(** * Data 301 lesson notebooks: the helper functions and formulas, verified

    The repository is a set of lesson notebooks.  The parts that compute
    something of their own are embedded here, one block per notebook:

    - 10.1 Bag of Words and N-Grams: [Counter], [get_bigrams];
    - 10.2 The Vector Space Model: [df], [idf], [tf_idf], the cosine
      similarity cells and the exercise stub [predict_spam];
    - 5.1 K-Nearest Neighbors for Regression: [get_30NN_prediction];
    - 5.4 Validation and Test Errors: the train/validation split and
      [get_val_error].

    Number model.  Integer columns hold [Z] values; the arithmetic
    [get_30NN_prediction] does on them is that of [int64], with its
    wrap-around written out.  The mean of an integer column is a rational
    [Q]; quantities that go through [np.log] or [np.sqrt] are real numbers
    [R] (exact arithmetic), and the cosine cell is also given in IEEE
    binary64 ([PrimFloat]), the arithmetic NumPy runs.

    Text model.  A string is a sequence of ASCII characters; the character
    classes of the regular expressions and [str.lower] are those of ASCII,
    and the properties of the tokenizer are stated for ASCII text. *)

From Stdlib Require Import Floats.PrimFloat.
From Stdlib Require Import ZArith QArith Reals Lra Lia List Permutation Sorted.
From Stdlib Require Import Ascii String.
From stdpp Require Import gmap strings list fin_maps.

Import ListNotations.

(* ===================================================================== *)
(** * 10.1 Bag of Words and N-Grams *)
(* ===================================================================== *)

(** A Python [Counter] is a dict from keys to counts.  Two counters are
    [==] when they hold the same counts, whatever the insertion order, which
    is equality of [gmap]s. *)
Abbreviation counter := (gmap string nat).

(** [Counter.__missing__]: reading an absent key gives 0. *)
Definition counter_get (c : counter) (w : string) : nat :=
  default 0%nat (c !! w).

(** [Counter(iterable)]: for each element in turn, [self[elem] = self.get(elem, 0) + 1]. *)
Definition counter_add (c : counter) (w : string) : counter :=
  <[w := S (counter_get c w)]> c.

Definition Counter (words : list string) : counter :=
  fold_left counter_add words ∅.

(** [sum(c.values())]. *)
Definition counter_total (c : counter) : nat :=
  map_fold (fun _ n acc => (n + acc)%nat) 0%nat c.

(** Python slices [l[:-1]] and [l[1:]]. *)
Definition slice_to_last {A} (l : list A) : list A :=
  firstn (length l - 1) l.

Definition slice_from_1 {A} (l : list A) : list A :=
  skipn 1 l.

(** [def get_bigrams(words): return zip(words[:-1], words[1:])]. *)
Definition get_bigrams {A} (words : list A) : list (A * A) :=
  combine (slice_to_last words) (slice_from_1 words).

(* ===================================================================== *)
(** * NumPy values and Python errors *)
(* ===================================================================== *)

(** A float as NumPy shows it: a number, or one of the special values a
    division by zero or [np.log] can produce. *)
Inductive npfloat (A : Type) : Type :=
| Finite (x : A)
| PInf
| NInf
| NaN.
Arguments Finite {A} x.
Arguments PInf {A}.
Arguments NInf {A}.
Arguments NaN {A}.

Inductive exn : Type :=
| NotImplementedError
| NotFittedError
| ValueError
| IndexError
| KeyError.

(** A call either returns a value or raises. *)
Inductive result (A : Type) : Type :=
| Ok (a : A)
| Raise (e : exn).
Arguments Ok {A} a.
Arguments Raise {A} e.

Definition bind {A B} (r : result A) (k : A -> result B) : result B :=
  match r with
  | Ok a => k a
  | Raise e => Raise e
  end.

(* ===================================================================== *)
(** * 10.2 The Vector Space Model *)
(* ===================================================================== *)

(** ** Text normalisation (ASCII) *)

(** Messages are strings of 8-bit characters; the character classes below
    are those of Python on ASCII text.  Python's [\w], [\s] and
    [str.lower] also know the letters, digits and spaces beyond ASCII;
    these are not modelled, and what is proved of the tokenizer is proved
    of ASCII text. *)

Definition is_ascii (c : ascii) : bool := (nat_of_ascii c <? 128)%nat.

(** A text all of whose characters are ASCII. *)
Definition ascii_text (s : string) : Prop :=
  forallb is_ascii (list_ascii_of_string s) = true.

Definition in_range (lo hi : nat) (c : ascii) : bool :=
  (lo <=? nat_of_ascii c)%nat && (nat_of_ascii c <=? hi)%nat.

Definition is_upper : ascii -> bool := in_range 65 90.
Definition is_lower : ascii -> bool := in_range 97 122.
Definition is_digit : ascii -> bool := in_range 48 57.

(** [[A-Za-z]] *)
Definition is_letter (c : ascii) : bool := is_upper c || is_lower c.

(** [\s], and the separators of [str.split()]: tab to carriage return, the
    four separators 28 to 31, and the space. *)
Definition is_space (c : ascii) : bool := in_range 9 13 c || in_range 28 32 c.

(** [\w]: letters, digits and the underscore. *)
Definition is_word_char (c : ascii) : bool :=
  is_letter c || is_digit c || (nat_of_ascii c =? 95)%nat.

Definition lower_char (c : ascii) : ascii :=
  if is_upper c then ascii_of_nat (nat_of_ascii c + 32) else c.

(** [.str.lower()] *)
Definition str_lower (s : list ascii) : list ascii := List.map lower_char s.

Definition flush (cur : list ascii) : list (list ascii) :=
  match cur with
  | [] => []
  | _ :: _ => [cur]
  end.

(** The maximal runs of characters satisfying [p], left to right; [cur] is
    the run being read. *)
Fixpoint runs (p : ascii -> bool) (cur s : list ascii) : list (list ascii) :=
  match s with
  | [] => flush cur
  | c :: s' =>
      if p c then runs p (cur ++ [c]) s'
      else flush cur ++ runs p [] s'
  end.

(** [.str.split()]: the maximal runs of non-whitespace characters. *)
Definition str_split (s : list ascii) : list (list ascii) :=
  runs (fun c => negb (is_space c)) [] s.

(** [.str.replace("[^A-Za-z\s]", "")]: every character that is neither a
    letter nor whitespace is removed. *)
Definition strip_non_letters (s : list ascii) : list ascii :=
  List.filter (fun c => is_letter c || is_space c) s.

(** The words of a message in the bag-of-words cell:
    [text.str.lower().str.replace("[^A-Za-z\s]", "").str.split()]. *)
Definition words_of_text (text : string) : list string :=
  List.map string_of_list_ascii
    (str_split (strip_non_letters (str_lower (list_ascii_of_string text)))).

(** ** Term frequencies and TF-IDF from scratch *)

(** [(tf > 0)], one row. *)
Definition positive_row (row : list nat) : list nat :=
  List.map (fun c => if (0 <? c)%nat then 1%nat else 0%nat) row.

Fixpoint add_rows (a b : list nat) : list nat :=
  match a, b with
  | x :: a', y :: b' => (x + y)%nat :: add_rows a' b'
  | _, _ => []
  end.

(** [df = (tf > 0).sum(axis=0)] for a frame with [ncols] columns: the rows
    of the boolean frame are added up, column by column. *)
Definition df (ncols : nat) (tf : list (list nat)) : list nat :=
  fold_left (fun acc row => add_rows acc (positive_row row)) tf
            (repeat 0%nat ncols).

(** [len(tf) / df], one entry: an integer divided by an integer count. *)
Definition np_div_counts (n d : nat) : npfloat R :=
  match d, n with
  | S _, _ => Finite (INR n / INR d)%R
  | O, S _ => PInf
  | O, O => NaN
  end.

(** [np.log]: the logarithm of 0 is minus infinity, of a negative number
    NaN (each with a warning). *)
Definition np_log (x : npfloat R) : npfloat R :=
  match x with
  | Finite r =>
      if Rlt_dec 0%R r then Finite (ln r)
      else if Req_dec_T r 0%R then NInf else NaN
  | PInf => PInf
  | NInf => NaN
  | NaN => NaN
  end.

(** [idf = np.log(len(tf) / df)] *)
Definition idf (ncols : nat) (tf : list (list nat)) : list (npfloat R) :=
  List.map (fun d => np_log (np_div_counts (length tf) d)) (df ncols tf).

(** A count times a weight. *)
Definition np_mul_count (c : nat) (w : npfloat R) : npfloat R :=
  match w, c with
  | Finite r, _ => Finite (INR c * r)%R
  | NaN, _ => NaN
  | _, O => NaN
  | PInf, S _ => PInf
  | NInf, S _ => NInf
  end.

Fixpoint mul_row (row : list nat) (w : list (npfloat R)) : list (npfloat R) :=
  match row, w with
  | c :: row', x :: w' => np_mul_count c x :: mul_row row' w'
  | _, _ => []
  end.

(** [tf_idf = tf * idf]: every row of [tf] times [idf], column by column. *)
Definition tf_idf (ncols : nat) (tf : list (list nat)) : list (list (npfloat R)) :=
  List.map (fun row => mul_row row (idf ncols tf)) tf.

(** ** TfidfVectorizer *)

(** The default analyzer: lowercase, then the tokens of
    [token_pattern = r"(?u)\b\w\w+\b"], the maximal runs of word characters
    that are at least two characters long.  This is the analyzer on
    [ascii_text]; on other text scikit-learn also takes the letters and
    digits beyond ASCII as word characters, which [is_word_char] does not. *)
Definition analyze (doc : string) : list string :=
  List.map string_of_list_ascii
    (List.filter (fun r => (2 <=? length r)%nat)
       (runs is_word_char [] (str_lower (list_ascii_of_string doc)))).

Fixpoint insert_sorted (t : string) (l : list string) : list string :=
  match l with
  | [] => [t]
  | u :: l' => if String.leb t u then t :: l else u :: insert_sorted t l'
  end.

(** [sorted(...)] *)
Definition sorted (l : list string) : list string :=
  fold_right insert_sorted [] l.

(** Number of documents that contain term [t]. *)
Definition doc_freq (t : string) (docs : list (list string)) : nat :=
  length (List.filter (fun d => existsb (String.eqb t) d) docs).

(** [smooth_idf=True]: [idf(t) = ln((1 + n) / (1 + df(t))) + 1]. *)
Definition smooth_idf (n d : nat) : R :=
  (ln (INR (1 + n) / INR (1 + d)) + 1)%R.

(** What [fit] learns: the vocabulary (one column per term) and the weight
    of each term. *)
Record fitted : Type := {
  vocabulary_ : list string;
  idf_ : list R
}.

(** The vectorizer object; [state = None] until [fit] is called. *)
Record TfidfVectorizer : Type := { state : option fitted }.

(** What [fit] learns from the documents: the sorted set of their tokens
    and, for each term, its smoothed inverse document frequency. *)
Definition learned (raw_documents : list string) : fitted :=
  let docs := List.map analyze raw_documents in
  let vocab := sorted (nodup String.string_dec (concat docs)) in
  {| vocabulary_ := vocab;
     idf_ := List.map (fun t => smooth_idf (length docs) (doc_freq t docs)) vocab |}.

(** [vec.fit(raw_documents)]; an empty vocabulary is a [ValueError]. *)
Definition fit (raw_documents : list string) : result TfidfVectorizer :=
  let f := learned raw_documents in
  match vocabulary_ f with
  | [] => Raise ValueError
  | _ :: _ => Ok {| state := Some f |}
  end.

(** One row of the matrix: for each term of the vocabulary, its count in
    the document times its weight ([norm=None]: rows are not normalised). *)
Definition tfidf_row (f : fitted) (doc : string) : list R :=
  List.map (fun tw => (INR (count_occ String.string_dec (analyze doc) (fst tw)) * snd tw)%R)
           (combine (vocabulary_ f) (idf_ f)).

(** [vec.transform(raw_documents)] *)
Definition transform (vec : TfidfVectorizer) (raw_documents : list string)
  : result (list (list R)) :=
  match state vec with
  | None => Raise NotFittedError
  | Some f => Ok (List.map (tfidf_row f) raw_documents)
  end.

(** [M[i, :]] *)
Definition getrow (M : list (list R)) (i : nat) : result (list R) :=
  match nth_error M i with
  | Some r => Ok r
  | None => Raise IndexError
  end.

(** ** Cosine similarity *)

Fixpoint multiply (a b : list R) : list R :=
  match a, b with
  | x :: a', y :: b' => (x * y)%R :: multiply a' b'
  | _, _ => []
  end.

Definition rsum (l : list R) : R := fold_right Rplus 0%R l.

(** [a.multiply(b).sum()] *)
Definition multiply_sum (a b : list R) : R := rsum (multiply a b).

(** [np.sqrt(a.multiply(a).sum())] *)
Definition vec_len (a : list R) : R := sqrt (multiply_sum a a).

(** NumPy division: a zero denominator gives NaN for [0 / 0] and an
    infinity otherwise (with a warning), never an exception. *)
Definition np_div (x y : R) : npfloat R :=
  if Req_dec_T y 0%R then
    if Req_dec_T x 0%R then NaN
    else if Rlt_dec 0%R x then PInf else NInf
  else Finite (x / y)%R.

(** The cell for two messages: [dot / (a_len * b_len)]. *)
Definition cosine (a b : list R) : npfloat R :=
  let dot := multiply_sum a b in
  let a_len := vec_len a in
  let b_len := vec_len b in
  np_div dot (a_len * b_len)%R.

(** The corpus-wide cell, for [a = tf_idf_sparse[0, :]] and
    [B = tf_idf_sparse]. *)
Definition dot_all (a : list R) (B : list (list R)) : list R :=
  List.map (multiply_sum a) B.

Definition b_len (B : list (list R)) : list R := List.map vec_len B.

Definition denominators (a : list R) (B : list (list R)) : list R :=
  List.map (Rmult (vec_len a)) (b_len B).

Fixpoint div_all (xs ys : list R) : list (npfloat R) :=
  match xs, ys with
  | x :: xs', y :: ys' => np_div x y :: div_all xs' ys'
  | _, _ => []
  end.

(** [cos_similarities], as a list indexed by message number. *)
Definition cos_similarities (a : list R) (B : list (list R)) : list (npfloat R) :=
  div_all (dot_all a B) (denominators a B).

(** The cells from [vec = TfidfVectorizer(norm=None)] to the division, on
    the column of messages [sms_text]. *)
Definition tf_idf_sparse (sms_text : list string) : result (list (list R)) :=
  bind (fit sms_text) (fun vec => transform vec sms_text).

Definition corpus_denominators (sms_text : list string) : result (list R) :=
  bind (tf_idf_sparse sms_text) (fun B =>
  bind (getrow B 0) (fun a => Ok (denominators a B))).

Definition corpus_cos_similarities (sms_text : list string)
  : result (list (npfloat R)) :=
  bind (tf_idf_sparse sms_text) (fun B =>
  bind (getrow B 0) (fun a => Ok (cos_similarities a B))).

(** The same cell in binary64, the arithmetic NumPy runs it in. *)
Fixpoint f64_multiply (a b : list float) : list float :=
  match a, b with
  | x :: a', y :: b' => PrimFloat.mul x y :: f64_multiply a' b'
  | _, _ => []
  end.

Definition f64_multiply_sum (a b : list float) : float :=
  fold_left PrimFloat.add (f64_multiply a b) 0%float.

Definition f64_vec_len (a : list float) : float :=
  PrimFloat.sqrt (f64_multiply_sum a a).

Definition f64_cosine (a b : list float) : float :=
  PrimFloat.div (f64_multiply_sum a b)
                (PrimFloat.mul (f64_vec_len a) (f64_vec_len b)).

(** ** Exercise 4 *)

(** [def predict_spam(new_text):] with the global [vec]. *)
Definition predict_spam (vec : TfidfVectorizer) (new_text : string) : result bool :=
  bind (bind (transform vec [new_text]) (fun M => getrow M 0))
       (fun x_new => Raise NotImplementedError).

(* ===================================================================== *)
(** * 5.1 K-Nearest Neighbors for Regression *)
(* ===================================================================== *)

(** The globals [get_30NN_prediction] reads: the feature rows [X_train] and
    the labels [y_train], two columns of the downloaded table, both indexed
    by row number. *)
Record training_data : Type := {
  X_train : list (list Z);
  y_train : list Z
}.

(** The feature columns are [int64]: NumPy's integer subtraction, power
    and sum keep the low 64 bits of the result, read as a signed number. *)
Definition wrap64 (z : Z) : Z := ((z + 2 ^ 63) mod 2 ^ 64 - 2 ^ 63)%Z.

Definition sub64 (a b : Z) : Z := wrap64 (a - b).
Definition mul64 (a b : Z) : Z := wrap64 (a * b).
Definition add64 (a b : Z) : Z := wrap64 (a + b).

(** [(row - x_new) ** 2], column by column, in [int64]. *)
Fixpoint sq_diffs (row x_new : list Z) : list Z :=
  match row, x_new with
  | a :: row', b :: x' => mul64 (sub64 a b) (sub64 a b) :: sq_diffs row' x'
  | _, _ => []
  end.

(** [.sum(axis=1)] of an [int64] frame, one row. *)
Definition sum64 (l : list Z) : Z := fold_left add64 l 0%Z.

Definition zsum (l : list Z) : Z := fold_right Z.add 0%Z l.

Definition sq_dist (x_new row : list Z) : Z := sum64 (sq_diffs row x_new).

(** A [Series]: index labels (row numbers) paired with values. *)
Definition dists (X : list (list Z)) (x_new : list Z) : list (nat * Z) :=
  combine (seq 0 (length X)) (List.map (sq_dist x_new) X).

Fixpoint insert_by_value (e : nat * Z) (s : list (nat * Z)) : list (nat * Z) :=
  match s with
  | [] => [e]
  | e' :: s' =>
      if (snd e <=? snd e')%Z then e :: s else e' :: insert_by_value e s'
  end.

(** [.sort_values()]: ascending by value. *)
Definition sort_values (s : list (nat * Z)) : list (nat * Z) :=
  fold_right insert_by_value [] s.

(** [.index] *)
Definition index (s : list (nat * Z)) : list nat := List.map fst s.

(** [y.loc[labels]]; a label that is not in the index is a [KeyError]. *)
Fixpoint loc (y : list Z) (labels : list nat) : result (list Z) :=
  match labels with
  | [] => Ok []
  | i :: labels' =>
      match nth_error y i with
      | None => Raise KeyError
      | Some v => bind (loc y labels') (fun vs => Ok (v :: vs))
      end
  end.

(** [.mean()]; the mean of no values is NaN. *)
Definition mean (vs : list Z) : npfloat Q :=
  match vs with
  | [] => NaN
  | _ :: _ => Finite (inject_Z (zsum vs) / inject_Z (Z.of_nat (length vs)))%Q
  end.

(** [dists.sort_values().index[:30]] *)
Definition inds_sorted (X : list (list Z)) (x_new : list Z) : list nat :=
  firstn 30 (index (sort_values (dists X x_new))).

(** [def get_30NN_prediction(x_new):] in the global environment [g]. *)
Definition get_30NN_prediction (g : training_data) (x_new : list Z)
  : result (npfloat Q) :=
  bind (loc (y_train g) (inds_sorted (X_train g) x_new))
       (fun ys => Ok (mean ys)).

(* ===================================================================== *)
(** * 5.4 Validation and Test Errors *)
(* ===================================================================== *)

(** ** The split *)

(** A table: rows with their index labels. *)
Definition frame (row : Type) : Type := list (Z * row).

Definition labels_of {row} (t : frame row) : list Z := List.map fst t.

(** [int(round(0.5 * n))]; Python rounds a half to the even neighbour. *)
Definition half_rounded (n : nat) : nat :=
  let q := (n / 2)%nat in
  if Nat.even n then q else if Nat.even q then q else S q.

(** [take(locs)]: the rows at the given positions, in that order. *)
Fixpoint take {row} (t : frame row) (locs : list nat) : result (frame row) :=
  match locs with
  | [] => Ok []
  | i :: locs' =>
      match nth_error t i with
      | None => Raise IndexError
      | Some r => bind (take t locs') (fun rs => Ok (r :: rs))
      end
  end.

(** The contract of the generator's [choice(n, size=k, replace=False)]:
    [k] distinct positions below [n]. *)
Definition is_choice (n k : nat) (locs : list nat) : Prop :=
  length locs = k /\ List.NoDup locs /\ Forall (fun i => (i < n)%nat) locs.

(** [housing.sample(frac=.5)]: [n = int(round(frac * len(housing)))],
    [locs = rs.choice(len(housing), size=n, replace=False)], then
    [housing.take(locs)].  The generator [rs_choice] is a parameter. *)
Definition sample {row} (rs_choice : nat -> nat -> list nat) (housing : frame row)
  : result (frame row) :=
  let n := half_rounded (length housing) in
  let locs := rs_choice (length housing) n in
  take housing locs.

Definition mem_label (l : Z) (labels : list Z) : bool :=
  existsb (Z.eqb l) labels.

(** [housing.drop(labels)]: every row whose label is listed is removed; a
    listed label that is not in the index is a [KeyError]. *)
Definition drop {row} (labels : list Z) (housing : frame row)
  : result (frame row) :=
  if forallb (fun l => mem_label l (labels_of housing)) labels
  then Ok (List.filter (fun r => negb (mem_label (fst r) labels)) housing)
  else Raise KeyError.

(** [train = housing.sample(frac=.5); val = housing.drop(train.index)] *)
Definition train_val_split {row} (rs_choice : nat -> nat -> list nat)
    (housing : frame row) : result (frame row * frame row) :=
  bind (sample rs_choice housing) (fun train =>
  bind (drop (labels_of train) housing) (fun val =>
  Ok (train, val))).

(** ** get_val_error *)

(** The scikit-learn and NumPy calls of the cell, as an interface: the
    function below is stated for any implementation of them. *)
Record sklearn : Type := {
  record : Type;       (* a row as a dict, [to_dict(orient="records")] *)
  matrix : Type;
  labels : Type;
  number : Type;
  vectorizer : Type;
  scaler : Type;
  regressor : Type;
  DictVectorizer_fit : list record -> result vectorizer;
  DictVectorizer_transform : vectorizer -> list record -> result matrix;
  StandardScaler_fit : matrix -> result scaler;
  StandardScaler_transform : scaler -> matrix -> result matrix;
  KNeighborsRegressor_fit : nat -> matrix -> labels -> result regressor;
  KNeighborsRegressor_predict : regressor -> matrix -> result labels;
  (* [np.sqrt(((y_val - y_val_pred) ** 2).mean())] *)
  root_mean_square : labels -> labels -> result number
}.

(** The notebook globals the body of [get_val_error] names. *)
Record notebook_globals (sk : sklearn) : Type := {
  X_train_dict : list (record sk);
  X_val_dict : list (record sk)
}.
Arguments X_train_dict {sk} _.
Arguments X_val_dict {sk} _.

(** The steps of the cell, from the records and labels they are run on. *)
Definition knn10_rmse (sk : sklearn)
    (train_records : list (record sk)) (train_labels : labels sk)
    (val_records : list (record sk)) (val_labels : labels sk)
  : result (number sk) :=
  bind (DictVectorizer_fit sk train_records) (fun vec =>
  bind (DictVectorizer_transform sk vec train_records) (fun X_train =>
  bind (DictVectorizer_transform sk vec val_records) (fun X_val =>
  bind (StandardScaler_fit sk X_train) (fun scaler =>
  bind (StandardScaler_transform sk scaler X_train) (fun X_train_sc =>
  bind (StandardScaler_transform sk scaler X_val) (fun X_val_sc =>
  bind (KNeighborsRegressor_fit sk 10 X_train_sc train_labels) (fun model =>
  bind (KNeighborsRegressor_predict sk model X_val_sc) (fun y_val_pred =>
  root_mean_square sk val_labels y_val_pred)))))))).

(** [def get_val_error(X_train, y_train, X_val, y_val):] in the global
    environment [g].  The body fits and transforms [X_train_dict] and
    [X_val_dict], which are globals; the parameters [X_train] and [X_val]
    are overwritten before they are read. *)
Definition get_val_error (sk : sklearn) (g : notebook_globals sk)
    (X_train : matrix sk) (y_train : labels sk)
    (X_val : matrix sk) (y_val : labels sk) : result (number sk) :=
  bind (DictVectorizer_fit sk (X_train_dict g)) (fun vec =>
  bind (DictVectorizer_transform sk vec (X_train_dict g)) (fun X_train =>
  bind (DictVectorizer_transform sk vec (X_val_dict g)) (fun X_val =>
  bind (StandardScaler_fit sk X_train) (fun scaler =>
  bind (StandardScaler_transform sk scaler X_train) (fun X_train_sc =>
  bind (StandardScaler_transform sk scaler X_val) (fun X_val_sc =>
  bind (KNeighborsRegressor_fit sk 10 X_train_sc y_train) (fun model =>
  bind (KNeighborsRegressor_predict sk model X_val_sc) (fun y_val_pred =>
  root_mean_square sk y_val y_val_pred)))))))).

(* ===================================================================== *)
(** * Further cells of the four lessons *)
(* ===================================================================== *)

(** ** 10.1: normalised words and bags of bigrams *)

(** [.str.replace("[^\w\s]", "")]: every character that is neither a word
    character nor whitespace is removed. *)
Definition strip_punctuation (s : list ascii) : list ascii :=
  List.filter (fun c => is_word_char c || is_space c) s.

(** One entry of [words]:
    [text.str.lower().str.replace("[^\w\s]", "").str.split()]. *)
Definition normalized_words (text : string) : list string :=
  List.map string_of_list_ascii
    (str_split (strip_punctuation (str_lower (list_ascii_of_string text)))).

(** [Counter] on keys of any hashable type, as [.apply(Counter)] uses it on
    the pairs [get_bigrams] yields. *)
Definition Counter_add_key {K} `{Countable K} (c : gmap K nat) (k : K)
  : gmap K nat :=
  <[k := S (default 0%nat (c !! k))]> c.

Definition Counter_of {K} `{Countable K} (keys : list K) : gmap K nat :=
  fold_left Counter_add_key keys ∅.

Definition Counter_total {K} `{Countable K} (c : gmap K nat) : nat :=
  map_fold (fun _ n acc => (n + acc)%nat) 0%nat c.

(** One entry of [words.apply(get_bigrams).apply(Counter)]. *)
Definition bag_of_bigrams (words : list string) : gmap (string * string) nat :=
  Counter_of (get_bigrams words).

(** ** 10.2: the term-frequency frame *)

(** [bag_of_words]: one [Counter] per message of the slice. *)
Definition bag_of_words (texts : list string) : list (gmap string nat) :=
  List.map (fun text => Counter (words_of_text text)) texts.

(** [tf = pd.DataFrame(list(bag_of_words)).fillna(0)], for the column
    labels [columns]: a key a bag does not hold is NaN in the frame and 0
    after [fillna(0)]. *)
Definition DataFrame_fillna0 (columns : list string) (bags : list (gmap string nat))
  : list (list nat) :=
  List.map (fun bag => List.map (counter_get bag) columns) bags.

(** The column labels [pd.DataFrame] gives a list of dicts are the keys of
    the dicts, each once; their order (sorted, or first seen, by pandas
    version) is left open. *)
Definition is_columns (columns : list string) (bags : list (gmap string nat))
  : Prop :=
  List.NoDup columns
  /\ forall w, In w columns <-> exists bag, In bag bags /\ is_Some (bag !! w).

(** ** 10.2: a message repeated *)

(** The vector of a message written [k] times over: every count, hence
    every TF or TF-IDF entry, is multiplied by [k] (the lesson's "I am Sam."
    and "I am Sam. Sam I am."). *)
Definition scaled (k : R) (a : list R) : list R := List.map (Rmult k) a.

(** ** 10.2: the ranking *)

(** Whether [x] may stand before [y] in [sort_values(ascending=False)]:
    larger values first, NaN last. *)
Definition desc_before (x y : npfloat R) : bool :=
  match x, y with
  | _, NaN => true
  | NaN, _ => false
  | PInf, _ => true
  | _, PInf => false
  | _, NInf => true
  | NInf, _ => false
  | Finite a, Finite b => if Rle_dec b a then true else false
  end.

Fixpoint insert_desc (e : nat * npfloat R) (s : list (nat * npfloat R))
  : list (nat * npfloat R) :=
  match s with
  | [] => [e]
  | e' :: s' =>
      if desc_before (snd e) (snd e') then e :: s else e' :: insert_desc e s'
  end.

(** [.sort_values(ascending=False)] on a series of floats. *)
Definition sort_values_desc (s : list (nat * npfloat R)) : list (nat * npfloat R) :=
  fold_right insert_desc [] s.

(** [cos_similarities = pd.DataFrame(...)[0]] is indexed by message number;
    [most_similar = cos_similarities.sort_values(ascending=False)]. *)
Definition most_similar (sims : list (npfloat R)) : list (nat * npfloat R) :=
  sort_values_desc (combine (seq 0 (length sims)) sims).

(** The cells up to [most_similar], on the column of messages. *)
Definition corpus_most_similar (sms_text : list string)
  : result (list (nat * npfloat R)) :=
  bind (corpus_cos_similarities sms_text) (fun sims => Ok (most_similar sims)).

(** The order of the ranking, on its entries. *)
Definition ranked_before (e e' : nat * npfloat R) : Prop :=
  desc_before (snd e) (snd e') = true.

(** The order of a sorted vocabulary. *)
Definition leb_true (a b : string) : Prop := String.leb a b = true.

(** ** 5.1: the first walkthrough *)

(** [.mean()] of a column of floats; NaN for an empty column. *)
Definition series_mean (col : list R) : npfloat R :=
  match col with
  | [] => NaN
  | _ :: _ => Finite (rsum col / INR (length col))%R
  end.

(** [.std()]: the sample standard deviation ([ddof=1]); NaN for fewer than
    two values. *)
Definition series_std (col : list R) : npfloat R :=
  match col with
  | [] => NaN
  | [_] => NaN
  | _ :: _ :: _ =>
      let mu := (rsum col / INR (length col))%R in
      Finite (sqrt (rsum (List.map (fun x => ((x - mu) * (x - mu))%R) col)
                    / INR (length col - 1)))
  end.

(** One column of [X_train_sc = (X_train - X_train_mean) / X_train_std]. *)
Definition standardize (col : list R) : list (npfloat R) :=
  match series_mean col, series_std col with
  | Finite mu, Finite sd => List.map (fun x => np_div (x - mu) sd) col
  | _, _ => List.map (fun _ => NaN) col
  end.

(** The same table in other units: every feature multiplied by [k] and
    shifted by [c]. *)
Definition rescale (k c : Z) (row : list Z) : list Z :=
  List.map (fun a => (k * a + c)%Z) row.

Definition rescale_data (k c : Z) (g : training_data) : training_data :=
  {| X_train := List.map (rescale k c) (X_train g); y_train := y_train g |}.

(** ** 5.4: the validation error *)

(** [(y_val - y_val_pred) ** 2], entry by entry. *)
Fixpoint squared_errors (y_val y_val_pred : list R) : list R :=
  match y_val, y_val_pred with
  | a :: y', b :: p' => ((a - b) * (a - b))%R :: squared_errors y' p'
  | _, _ => []
  end.

(** [np.sqrt(errors.mean())]; the mean of no values is NaN. *)
Definition sqrt_mean (errors : list R) : npfloat R :=
  match errors with
  | [] => NaN
  | _ :: _ => Finite (sqrt (rsum errors / INR (length errors)))
  end.

(** [rmse = np.sqrt(((y_val - y_val_pred) ** 2).mean())] for a Series
    [y_val] and an array [y_val_pred].  Arrays of equal length are
    subtracted entry by entry; a one-entry array is broadcast; any other
    pair of lengths is a [ValueError]. *)
Definition rmse (y_val y_val_pred : list R) : result (npfloat R) :=
  if (length y_val_pred =? length y_val)%nat
  then Ok (sqrt_mean (squared_errors y_val y_val_pred))
  else match y_val_pred with
       | [p] => Ok (sqrt_mean (List.map (fun a => ((a - p) * (a - p))%R) y_val))
       | _ => Raise ValueError
       end.

(** ** 10.2: CountVectorizer *)

(** One row of [vec.transform] for a [CountVectorizer]: the count of each
    vocabulary term among the tokens of the document. *)
Definition count_row (vocabulary : list string) (doc : string) : list nat :=
  List.map (count_occ String.string_dec (analyze doc)) vocabulary.

(** [vec = CountVectorizer(); vec.fit(sms["text"]);
    tf_sparse = vec.transform(sms["text"])]: the same analyzer and the same
    sorted vocabulary as the TF-IDF vectorizer, without the weights. *)
Definition tf_sparse (sms_text : list string) : result (list (list nat)) :=
  match vocabulary_ (learned sms_text) with
  | [] => Raise ValueError
  | _ :: _ =>
      Ok (List.map (count_row (vocabulary_ (learned sms_text))) sms_text)
  end.

(* ===================================================================== *)
(** * 10.1: get_bigrams in the notebook's namespace *)
(* ===================================================================== *)

(** A function defined in a notebook cell finds the names of its body when
    it is called: among its parameters first, then in the notebook's
    global namespace, then among the builtins.  To see what [get_bigrams]
    reads, its body is written out as the expression it is and evaluated
    by these rules. *)

Inductive builtin : Type := builtin_zip.

#[warnings="-register-all"]
Inductive value : Type :=
| VStr (s : string)
| VInt (z : Z)
| VList (items : list value)
| VTuple (items : list value)
| VBuiltin (f : builtin).

Abbreviation namespace := (gmap string value).

#[warnings="-register-all"]
Inductive expr : Type :=
| Name (id : string)
| Slice (e : expr) (lower upper : option Z)
| Call (func : expr) (args : list expr).

Record function_def : Type := {
  params : list string;
  returned : expr
}.

(** [def get_bigrams(words): return zip(words[:-1], words[1:])] *)
Definition get_bigrams_def : function_def := {|
  params := ["words"%string];
  returned := Call (Name "zip")
                [Slice (Name "words") None (Some (-1)%Z);
                 Slice (Name "words") (Some 1%Z) None]
|}.

Inductive evaluated : Type :=
| Value (v : value)
| NameError (id : string)
| TypeError.

Definition builtins (id : string) : option value :=
  if String.eqb id "zip" then Some (VBuiltin builtin_zip) else None.

(** Name lookup: local, global, builtin. *)
Definition resolve (globals locals : namespace) (id : string) : evaluated :=
  match locals !! id with
  | Some v => Value v
  | None =>
      match globals !! id with
      | Some v => Value v
      | None =>
          match builtins id with
          | Some v => Value v
          | None => NameError id
          end
      end
  end.

(** A slice bound, clamped to the sequence; a negative bound counts from
    the end. *)
Definition slice_bound (n : nat) (i : Z) : nat :=
  if (i <? 0)%Z then Z.to_nat (Z.of_nat n + i) else Nat.min (Z.to_nat i) n.

(** [l[lower:upper]] *)
Definition py_slice {A} (lower upper : option Z) (l : list A) : list A :=
  let n := length l in
  let start := match lower with None => 0%nat | Some i => slice_bound n i end in
  let stop := match upper with None => n | Some i => slice_bound n i end in
  firstn (stop - start) (skipn start l).

Definition slice_value (lower upper : option Z) (v : value) : evaluated :=
  match v with
  | VList l => Value (VList (py_slice lower upper l))
  | VTuple l => Value (VTuple (py_slice lower upper l))
  | VStr s =>
      Value (VStr (string_of_list_ascii
                     (py_slice lower upper (list_ascii_of_string s))))
  | VInt _ | VBuiltin _ => TypeError
  end.

(** The items an iterable yields. *)
Definition items_of (v : value) : option (list value) :=
  match v with
  | VList l | VTuple l => Some l
  | VStr s =>
      Some (List.map (fun c => VStr (String c EmptyString))
              (list_ascii_of_string s))
  | VInt _ | VBuiltin _ => None
  end.

Fixpoint all_items (vs : list value) : option (list (list value)) :=
  match vs with
  | [] => Some []
  | v :: vs' =>
      match items_of v, all_items vs' with
      | Some l, Some ls => Some (l :: ls)
      | _, _ => None
      end
  end.

(** One item of each iterable, when none is exhausted. *)
Fixpoint next_of_each (ls : list (list value))
  : option (list value * list (list value)) :=
  match ls with
  | [] => Some ([], [])
  | l :: ls' =>
      match l, next_of_each ls' with
      | h :: t, Some (hs, ts) => Some (h :: hs, t :: ts)
      | _, _ => None
      end
  end.

(** [zip] of any number of iterables, read to the end: tuples of one item of each, until
    the shortest is exhausted. *)
Fixpoint zip_items (fuel : nat) (ls : list (list value)) : list value :=
  match fuel with
  | O => []
  | S fuel' =>
      match next_of_each ls with
      | Some (hs, ts) => VTuple hs :: zip_items fuel' ts
      | None => []
      end
  end.

Definition zip (ls : list (list value)) : list value :=
  zip_items (length (List.hd [] ls)) ls.

Definition call_value (f : value) (args : list value) : evaluated :=
  match f with
  | VBuiltin builtin_zip =>
      match all_items args with
      | Some ls => Value (VList (zip ls))
      | None => TypeError
      end
  | _ => TypeError
  end.

Fixpoint eval (globals locals : namespace) (e : expr) : evaluated :=
  match e with
  | Name id => resolve globals locals id
  | Slice e' lower upper =>
      match eval globals locals e' with
      | Value v => slice_value lower upper v
      | err => err
      end
  | Call func args =>
      match eval globals locals func with
      | Value f =>
          (fix eval_args (es : list expr) (done : list value) : evaluated :=
             match es with
             | [] => call_value f (rev done)
             | e' :: es' =>
                 match eval globals locals e' with
                 | Value v => eval_args es' (v :: done)
                 | err => err
                 end
             end) args []
      | err => err
      end
  end.

(** A call binds the parameters to the arguments and evaluates the
    returned expression. *)
Definition call_function (d : function_def) (globals : namespace)
    (args : list value) : evaluated :=
  if (length (params d) =? length args)%nat
  then eval globals (list_to_map (combine (params d) args)) (returned d)
  else TypeError.

(** The pairs [get_bigrams] of above gives, as Python tuples. *)
Definition tuples (pairs : list (value * value)) : list value :=
  List.map (fun p => VTuple [fst p; snd p]) pairs.

(* ===================================================================== *)
(** * Notions used to state the properties, and example data *)
(* ===================================================================== *)

(** The document frequency of column [t], counted directly: the number of
    rows whose entry in column [t] is positive. *)
Definition doc_count (tf : list (list nat)) (t : nat) : nat :=
  length (List.filter (fun row => (0 <? nth t row 0)%nat) tf).

(** Two adjacent characters of [s] that both satisfy [p]. *)
Definition two_adjacent (p : ascii -> bool) (s : list ascii) : Prop :=
  exists before a b after,
    s = before ++ a :: b :: after /\ p a = true /\ p b = true.

(** The same, computed from left to right. *)
Fixpoint has_adjacent (p : ascii -> bool) (s : list ascii) : bool :=
  match s with
  | a :: s' =>
      match s' with
      | b :: _ => (p a && p b) || has_adjacent p s'
      | [] => false
      end
  | [] => false
  end.

(** The order [sort_values] sorts by. *)
Definition value_le (e e' : nat * Z) : Prop := (snd e <= snd e')%Z.

(** The Euclidean distance as the claim has it, in exact arithmetic and
    written without the helper's operations: the square root, over the
    reals, of the sum over the columns of the squared differences, over
    the unbounded integers. *)
Fixpoint squared_distance (x_new row : list Z) : Z :=
  match row, x_new with
  | a :: row', b :: x' => ((a - b) ^ 2 + squared_distance x' row')%Z
  | _, _ => 0%Z
  end.

Definition euclidean_distance (x_new row : list Z) : R :=
  sqrt (IZR (squared_distance x_new row)).

(** A value an [int64] column can hold. *)
Definition is_int64 (z : Z) : Prop := (- 2 ^ 63 <= z < 2 ^ 63)%Z.

(** The features and the query are [int64] values, and no training row is
    so far from the query that its squared distance leaves the range of
    [int64]. *)
Definition fits_int64 (X : list (list Z)) (x_new : list Z) : Prop :=
  List.Forall is_int64 x_new
  /\ List.Forall (fun row => List.Forall is_int64 row
                             /\ (squared_distance x_new row < 2 ^ 63)%Z) X.

(** The same, as a check that can be run on given data. *)
Definition is_int64b (z : Z) : bool := ((- 2 ^ 63 <=? z) && (z <? 2 ^ 63))%Z.

Definition fits_int64b (X : list (list Z)) (x_new : list Z) : bool :=
  forallb is_int64b x_new
  && forallb (fun row => forallb is_int64b row
                         && (squared_distance x_new row <? 2 ^ 63)%Z) X.

(** A helper that reads the global environment [g] (the tables the
    notebook downloaded) is independent of it when its result on an
    argument is the same in every environment. *)
Definition dataset_independent {G A B : Type} (f : G -> A -> B) : Prop :=
  forall (g1 g2 : G) (x : A), f g1 x = f g2 x.

(** The globals of lesson 10.1 once its cells have run: the downloaded
    messages under [texts], and (here, the same values) under [words]. *)
Definition spam_notebook (messages : list value) : namespace :=
  <["texts"%string := VList messages]>
    (<["words"%string := VList messages]> ∅).

Definition one_house (price : Z) : training_data :=
  {| X_train := [[0%Z]]; y_train := [price] |}.

(** Thirty-one houses with two features, in no particular order: house
    [i] is at [((7 i + 3) mod 31, i mod 3)] and costs [10 i]; the query
    is at (40, 1).  The farthest house is number 4, at (0, 1). *)
Definition scattered_houses : training_data :=
  {| X_train := List.map (fun i => [((7 * Z.of_nat i + 3) mod 31)%Z;
                                    (Z.of_nat i mod 3)%Z]) (seq 0 31);
     y_train := List.map (fun i => (10 * Z.of_nat i)%Z) (seq 0 31) |}.

(** Thirty houses at 1, 2, ..., 30 with prices 0, 10, ..., 290, and one
    more at 2^32 with price 0; the query is at 0. *)
Definition far_house : training_data :=
  {| X_train := List.map (fun i => [(Z.of_nat i + 1)%Z]) (seq 0 30)
                ++ [[4294967296%Z]];
     y_train := List.map (fun i => (10 * Z.of_nat i)%Z) (seq 0 30) ++ [0%Z] |}.

(** Thirty-one houses at 0, 1, ..., 30 with prices 0, 10, ..., 300, and a
    query at 0: the house at 30 is left out, the prediction is 4350 / 30. *)
Definition line_of_houses : training_data :=
  {| X_train := List.map (fun i => [Z.of_nat i]) (seq 0 31);
     y_train := List.map (fun i => (10 * Z.of_nat i)%Z) (seq 0 31) |}.

Definition four_houses : frame string :=
  [(0%Z, "Ames"); (1%Z, "Gilbert"); (2%Z, "OldTown"); (3%Z, "Sawyer")]%string.

(** An implementation of the interface that computes no numbers but
    records where its inputs come from: rows are row numbers, a prediction
    remembers the rows and labels the model was fitted on and the rows it
    predicts for, and the "error" is the whole provenance. *)
Inductive traced_labels : Type :=
| Given (ys : list Z)
| Predicted (fit_rows : list nat) (fit_labels : list Z) (for_rows : list nat).

Record provenance : Type := {
  fitted_on : list nat;
  fitted_with : list Z;
  scored_on : list nat;
  scored_against : list Z
}.

Definition tracing : sklearn := {|
  record := nat;
  matrix := list nat;
  labels := traced_labels;
  number := provenance;
  vectorizer := unit;
  scaler := unit;
  regressor := list nat * list Z;
  DictVectorizer_fit := fun _ => Ok tt;
  DictVectorizer_transform := fun _ rows => Ok rows;
  StandardScaler_fit := fun _ => Ok tt;
  StandardScaler_transform := fun _ rows => Ok rows;
  KNeighborsRegressor_fit := fun _ rows y =>
    match y with
    | Given ys => Ok (rows, ys)
    | Predicted _ _ _ => Raise ValueError
    end;
  KNeighborsRegressor_predict := fun model rows =>
    Ok (Predicted (fst model) (snd model) rows);
  root_mean_square := fun y_val y_val_pred =>
    match y_val, y_val_pred with
    | Given ys, Predicted fit_rows fit_labels for_rows =>
        Ok {| fitted_on := fit_rows; fitted_with := fit_labels;
              scored_on := for_rows; scored_against := ys |}
    | _, _ => Raise ValueError
    end
|}.

(** The lesson's state before the two calls: rows 0 and 1 were sampled
    into the training half, rows 2 and 3 are the validation half. *)
Definition lesson_globals : notebook_globals tracing :=
  {| X_train_dict := ([0; 1]%nat : list (record tracing));
     X_val_dict := ([2; 3]%nat : list (record tracing)) |}.

(* ===================================================================== *)
(** * Theorems: 10.1 *)
(* ===================================================================== *)

Lemma get_bigrams_cons2 {A} (a b : A) (l : list A) :
  get_bigrams (a :: b :: l) = (a, b) :: get_bigrams (b :: l).
Proof.
  unfold get_bigrams, slice_to_last, slice_from_1. simpl.
  rewrite Nat.sub_0_r. reflexivity.
Qed.

Lemma get_bigrams_seq {A} (d : A) (words : list A) :
  get_bigrams words =
  List.map (fun i => (nth i words d, nth (S i) words d))
           (seq 0 (length words - 1)).
Proof.
  induction words as [|a [|b l] IH]; try reflexivity.
  rewrite get_bigrams_cons2, IH.
  replace (length (a :: b :: l) - 1)%nat with (S (length (b :: l) - 1))
    by (simpl; lia).
  cbn [seq List.map]. rewrite <- seq_shift, List.map_map. reflexivity.
Qed.

(** C5. For a list of [n] words, [get_bigrams] returns exactly the pairs
    [(words[i], words[i+1])] for [i = 0 .. n-2], in that order: [n - 1]
    pairs; for a list with fewer than two words (the empty list included)
    it returns the empty sequence. *)
Theorem get_bigrams_consecutive_pairs {A} (d : A) (words : list A) :
  get_bigrams words =
    List.map (fun i => (nth i words d, nth (S i) words d))
             (seq 0 (length words - 1))
  /\ length (get_bigrams words) = (length words - 1)%nat
  /\ (forall i, (i < length words - 1)%nat ->
        nth_error (get_bigrams words) i
        = Some (nth i words d, nth (S i) words d))
  /\ ((length words < 2)%nat -> get_bigrams words = []).
Proof.
  pose proof (get_bigrams_seq d words) as E.
  split; [exact E|]. split; [|split].
  - rewrite E, List.length_map, List.length_seq. reflexivity.
  - intros i Hi. rewrite E.
    rewrite nth_error_map, nth_error_nth' with (d := 0%nat)
      by (rewrite List.length_seq; exact Hi).
    rewrite seq_nth by exact Hi. reflexivity.
  - intros Hlt. rewrite E.
    replace (length words - 1)%nat with 0%nat by lia. reflexivity.
Qed.

Lemma get_bigrams_consecutive_pairs_witness :
  get_bigrams ["the"; "dog"; "bit"; "her"; "owner"]%string
  = [("the", "dog"); ("dog", "bit"); ("bit", "her"); ("her", "owner")]%string
  /\ nth_error (get_bigrams ["the"; "dog"; "bit"]%string) 1
     = Some ("dog", "bit")%string
  /\ get_bigrams ["alone"%string] = [].
Proof.
  split; [|split].
  - exact (proj1 (get_bigrams_consecutive_pairs ""%string
                    ["the"; "dog"; "bit"; "her"; "owner"]%string)).
  - apply (proj1 (proj2 (proj2 (get_bigrams_consecutive_pairs ""%string
                    ["the"; "dog"; "bit"]%string))) 1%nat).
    simpl. lia.
  - apply (proj2 (proj2 (proj2 (get_bigrams_consecutive_pairs ""%string
                    ["alone"%string])))).
    simpl. lia.
Defined.

(** ** Counter *)

Lemma counter_add_lookup (c : gmap string nat) (w v : string) :
  counter_get (counter_add c w) v
  = if decide (w = v) then S (counter_get c v) else counter_get c v.
Proof.
  unfold counter_add, counter_get. case_decide as E.
  - subst. rewrite lookup_insert_eq. reflexivity.
  - rewrite lookup_insert_ne by exact E. reflexivity.
Qed.

Lemma counter_add_is_Some (c : gmap string nat) (w v : string) :
  is_Some (counter_add c w !! v) <-> w = v \/ is_Some (c !! v).
Proof.
  unfold counter_add. rewrite lookup_insert_is_Some. split.
  - intros [E|[_ H]]; auto.
  - intros [E|H]; [left; exact E|].
    destruct (decide (w = v)); [left|right]; auto.
Qed.

(** Folding from a counter [c]: counts add up, keys are those of [c] and
    those of the list. *)
Lemma fold_counter_get (l : list string) (c : gmap string nat) (v : string) :
  counter_get (fold_left counter_add l c) v
  = (count_occ String.string_dec l v + counter_get c v)%nat.
Proof.
  revert c. induction l as [|w l IH]; intros c; simpl; [reflexivity|].
  rewrite IH, counter_add_lookup.
  destruct (String.string_dec w v) as [E|E]; case_decide; try contradiction; lia.
Qed.

Lemma fold_counter_is_Some (l : list string) (c : gmap string nat) (v : string) :
  is_Some (fold_left counter_add l c !! v) <-> In v l \/ is_Some (c !! v).
Proof.
  revert c. induction l as [|w l IH]; intros c; simpl.
  - tauto.
  - rewrite IH, counter_add_is_Some. tauto.
Qed.

Lemma Counter_lookup (l : list string) (v : string) :
  Counter l !! v
  = if in_dec String.string_dec v l
    then Some (count_occ String.string_dec l v) else None.
Proof.
  unfold Counter.
  pose proof (fold_counter_get l ∅ v) as G.
  pose proof (fold_counter_is_Some l ∅ v) as S.
  unfold counter_get in G. rewrite lookup_empty in G, S. simpl in G.
  rewrite Nat.add_0_r in G.
  destruct (in_dec String.string_dec v l) as [Hin|Hin].
  - destruct (proj2 S (or_introl Hin)) as [n Hn].
    rewrite Hn in G |- *. simpl in G. congruence.
  - destruct (fold_left counter_add l ∅ !! v) as [n|] eqn:Hn; [|reflexivity].
    exfalso. destruct (proj1 S (ex_intro _ n eq_refl)) as [H|[x H]];
      [contradiction|discriminate].
Qed.

Lemma counter_total_add (c : gmap string nat) (w : string) :
  counter_total (counter_add c w) = S (counter_total c).
Proof.
  unfold counter_total, counter_add, counter_get.
  destruct (c !! w) as [n|] eqn:Hw; simpl.
  - rewrite <- insert_delete_eq.
    rewrite map_fold_insert_L; [| intros; lia | apply lookup_delete_eq].
    rewrite (map_fold_delete_L _ _ w n c); [lia | intros; lia | exact Hw].
  - rewrite map_fold_insert_L; [lia | intros; lia | exact Hw].
Qed.

Lemma fold_counter_total (l : list string) (c : gmap string nat) :
  counter_total (fold_left counter_add l c)
  = (length l + counter_total c)%nat.
Proof.
  revert c. induction l as [|w l IH]; intros c; simpl; [reflexivity|].
  rewrite IH, counter_total_add. lia.
Qed.

(** C10. [Counter(words)] maps each distinct word of the list to its number
    of occurrences (and holds no other key), the counts sum to the length
    of the list, and two lists that are rearrangements of each other give
    equal counters. *)
Theorem Counter_bag_of_words (words : list string) :
  (forall w, In w words ->
     Counter words !! w = Some (count_occ String.string_dec words w))
  /\ (forall w, ~ In w words -> Counter words !! w = None)
  /\ counter_total (Counter words) = length words
  /\ (forall words', Permutation words words' ->
        Counter words = Counter words').
Proof.
  split; [|split; [|split]].
  - intros w Hin. rewrite Counter_lookup.
    destruct (in_dec String.string_dec w words); [reflexivity|contradiction].
  - intros w Hin. rewrite Counter_lookup.
    destruct (in_dec String.string_dec w words); [contradiction|reflexivity].
  - unfold Counter. rewrite fold_counter_total.
    unfold counter_total. rewrite map_fold_empty. lia.
  - intros words' HP. apply map_eq. intros w. rewrite !Counter_lookup.
    rewrite (Permutation_count_occ String.string_dec words words') in HP.
    rewrite (HP w).
    assert (In w words <-> In w words') as Hiff.
    { rewrite !(count_occ_In String.string_dec), HP. reflexivity. }
    destruct (in_dec String.string_dec w words),
             (in_dec String.string_dec w words'); tauto.
Qed.

Lemma Counter_bag_of_words_witness :
  Counter ["I"; "am"; "Sam"; "Sam"; "I"; "am"]%string !! "Sam"%string = Some 2%nat
  /\ Counter ["I"; "am"; "Sam"]%string !! "the"%string = None
  /\ Counter ["I"; "am"; "Sam"]%string = Counter ["Sam"; "I"; "am"]%string.
Proof.
  split; [|split].
  - apply (proj1 (Counter_bag_of_words
                    ["I"; "am"; "Sam"; "Sam"; "I"; "am"]%string) "Sam"%string).
    simpl. tauto.
  - apply (proj1 (proj2 (Counter_bag_of_words ["I"; "am"; "Sam"]%string))
             "the"%string).
    simpl. intros [H|[H|[H|[]]]]; discriminate H.
  - apply (proj2 (proj2 (proj2 (Counter_bag_of_words ["I"; "am"; "Sam"]%string)))).
    apply perm_trans with ["I"; "Sam"; "am"]%string.
    + apply perm_skip, perm_swap.
    + apply perm_swap.
Defined.

(* ===================================================================== *)
(** * Theorems: 10.2, TF-IDF from scratch *)
(* ===================================================================== *)

Lemma add_rows_length (a b : list nat) :
  length a = length b -> length (add_rows a b) = length a.
Proof.
  revert b. induction a as [|x a IH]; intros [|y b] H; simpl in *;
    try discriminate; auto.
Qed.

Lemma add_rows_nth (a b : list nat) (t : nat) :
  length a = length b ->
  nth t (add_rows a b) 0%nat = (nth t a 0 + nth t b 0)%nat.
Proof.
  revert b t. induction a as [|x a IH]; intros [|y b] [|t] H; simpl in *;
    try discriminate; auto.
Qed.

Lemma positive_row_nth (row : list nat) (t : nat) :
  nth t (positive_row row) 0%nat = if (0 <? nth t row 0)%nat then 1%nat else 0%nat.
Proof.
  unfold positive_row. revert t.
  induction row as [|c row IH]; intros [|t]; simpl; auto.
Qed.

Section ColumnSums.
Variable ncols : nat.

Let step (acc row : list nat) : list nat := add_rows acc (positive_row row).

Lemma df_fold_length (tf : list (list nat)) (acc : list nat) :
  Forall (fun row => length row = ncols) tf -> length acc = ncols ->
  length (fold_left step tf acc) = ncols.
Proof.
  intros Hrect. revert acc.
  induction Hrect as [|row tf Hrow _ IH]; intros acc Hacc; simpl; [exact Hacc|].
  apply IH. unfold step. rewrite add_rows_length; [exact Hacc|].
  unfold positive_row. rewrite List.length_map. congruence.
Qed.

Lemma df_fold_nth (tf : list (list nat)) (acc : list nat) (t : nat) :
  Forall (fun row => length row = ncols) tf -> length acc = ncols ->
  nth t (fold_left step tf acc) 0%nat = (nth t acc 0 + doc_count tf t)%nat.
Proof.
  intros Hrect. revert acc.
  induction Hrect as [|row tf Hrow _ IH]; intros acc Hacc; simpl.
  - unfold doc_count. simpl. lia.
  - assert (length (positive_row row) = ncols) as Hp
        by (unfold positive_row; rewrite List.length_map; exact Hrow).
    rewrite IH by (unfold step; rewrite add_rows_length; congruence).
    unfold step. rewrite add_rows_nth by congruence.
    rewrite positive_row_nth. unfold doc_count. simpl.
    destruct (0 <? nth t row 0)%nat; simpl; lia.
Qed.

Lemma df_length (tf : list (list nat)) :
  Forall (fun row => length row = ncols) tf -> length (df ncols tf) = ncols.
Proof.
  intros H. apply df_fold_length; [exact H|apply repeat_length].
Qed.

Lemma df_nth (tf : list (list nat)) (t : nat) :
  Forall (fun row => length row = ncols) tf ->
  nth t (df ncols tf) 0%nat = doc_count tf t.
Proof.
  intros H. unfold df. fold step.
  rewrite df_fold_nth by (auto using repeat_length).
  rewrite nth_repeat. reflexivity.
Qed.
End ColumnSums.

Lemma map_nth_in {A B} (f : A -> B) (l : list A) (i : nat) (x : B) (y : A) :
  (i < length l)%nat -> nth i (List.map f l) x = f (nth i l y).
Proof.
  revert i. induction l as [|a l IH]; intros [|i] H; simpl in *; try lia; auto.
  apply IH. lia.
Qed.

Lemma mul_row_nth_error (row : list nat) (w : list (npfloat R)) (t : nat) c x :
  nth_error row t = Some c -> nth_error w t = Some x ->
  nth_error (mul_row row w) t = Some (np_mul_count c x).
Proof.
  revert w t. induction row as [|c' row IH]; intros [|x' w] [|t] Hc Hx;
    simpl in *; try discriminate; auto.
  congruence.
Qed.

Lemma np_log_ratio (n d : nat) :
  (0 < n)%nat -> (0 < d)%nat ->
  np_log (np_div_counts n d) = Finite (ln (INR n / INR d)).
Proof.
  intros Hn Hd. destruct d as [|k]; [lia|]. unfold np_div_counts, np_log.
  destruct (Rlt_dec 0 (INR n / INR (S k))) as [_|Hneg]; [reflexivity|].
  exfalso. apply Hneg. apply Rdiv_lt_0_compat; apply lt_0_INR; lia.
Qed.

(** C3. In the from-scratch TF-IDF cells, for a frame [tf] with [N] rows,
    the document frequency of column [t] is the number of rows with a
    positive count in that column, and the entry of [tf_idf] in row [d] and
    column [t] is [tf(d,t) * log(N / df(t))]; when [df(t) > 0] this is the
    real number [tf(d,t) * ln(N / df(t))], which is 0 when the count
    [tf(d,t)] is 0. *)
Theorem tf_idf_formula (ncols : nat) (tf : list (list nat)) (d t : nat) :
  Forall (fun row => length row = ncols) tf ->
  (d < length tf)%nat -> (t < ncols)%nat ->
  let N := length tf in
  let count := nth t (nth d tf []) 0%nat in
  let dft := doc_count tf t in
  nth_error (df ncols tf) t = Some dft
  /\ exists w,
       nth_error (nth d (tf_idf ncols tf) []) t = Some w
       /\ w = np_mul_count count (np_log (np_div_counts N dft))
       /\ ((0 < dft)%nat -> w = Finite (INR count * ln (INR N / INR dft))%R)
       /\ ((0 < dft)%nat -> count = 0%nat -> w = Finite 0%R).
Proof.
  intros Hrect Hd Ht N count dft.
  assert (nth_error (df ncols tf) t = Some dft) as Hdf.
  { rewrite nth_error_nth' with (d := 0%nat) by (rewrite df_length; auto).
    rewrite df_nth by exact Hrect. reflexivity. }
  split; [exact Hdf|].
  assert (length (nth d tf []) = ncols) as Hrow.
  { rewrite List.Forall_forall in Hrect. apply Hrect, nth_In, Hd. }
  exists (np_mul_count count (np_log (np_div_counts N dft))).
  assert (nth_error (idf ncols tf) t = Some (np_log (np_div_counts N dft))) as Hidf.
  { unfold idf. rewrite List.nth_error_map, Hdf. reflexivity. }
  split; [|split; [reflexivity|split]].
  - unfold tf_idf.
    rewrite map_nth_in with (y := []) by exact Hd.
    apply mul_row_nth_error; [|exact Hidf].
    apply nth_error_nth'. lia.
  - intros Hpos. rewrite (np_log_ratio N dft) by (unfold N; lia). reflexivity.
  - intros Hpos Hc. rewrite (np_log_ratio N dft) by (unfold N; lia).
    rewrite Hc. simpl. f_equal. apply Rmult_0_l.
Qed.

Lemma tf_idf_formula_witness :
  nth_error (df 3 [[2; 0; 1]; [0; 0; 3]]%nat) 0 = Some 1%nat
  /\ exists w,
       nth_error (nth 1 (tf_idf 3 [[2; 0; 1]; [0; 0; 3]]%nat) []) 0 = Some w
       /\ w = Finite 0%R.
Proof.
  destruct (tf_idf_formula 3 [[2; 0; 1]; [0; 0; 3]]%nat 1 0) as (Hdf & w & Hw & _ & _ & Hz).
  - repeat constructor.
  - simpl. lia.
  - lia.
  - split; [exact Hdf|]. exists w. split; [exact Hw|].
    apply Hz; [vm_compute; lia|reflexivity].
Defined.

(* ===================================================================== *)
(** * Theorems: 10.2, cosine similarity *)
(* ===================================================================== *)

Section Cosine.
Local Open Scope R_scope.

Lemma multiply_sum_cons (x y : R) (a b : list R) :
  multiply_sum (x :: a) (y :: b) = x * y + multiply_sum a b.
Proof. reflexivity. Qed.

Lemma sum_squares_nonneg (a : list R) : 0 <= multiply_sum a a.
Proof.
  induction a as [|x a IH]; [apply Rle_refl|].
  rewrite multiply_sum_cons. pose proof (Rle_0_sqr x) as Hx.
  unfold Rsqr in Hx. lra.
Qed.

Lemma sum_squares_zero (a : list R) :
  multiply_sum a a = 0 <-> Forall (fun x => x = 0) a.
Proof.
  induction a as [|x a IH].
  - split; [constructor|reflexivity].
  - rewrite multiply_sum_cons.
    pose proof (sum_squares_nonneg a) as Ha.
    pose proof (Rle_0_sqr x) as Hx. unfold Rsqr in Hx.
    split.
    + intros H. assert (x * x = 0) as Hxx by lra.
      assert (multiply_sum a a = 0) as Haa by lra.
      constructor; [|apply IH; exact Haa].
      destruct (Rmult_integral _ _ Hxx); assumption.
    + intros H. inversion H as [|? ? H0 Hrest]; subst.
      rewrite (proj2 IH Hrest). lra.
Qed.

(** One step of the Cauchy-Schwarz induction. *)
Lemma cauchy_schwarz_step (x y d A B : R) :
  0 <= A -> 0 <= B -> d * d <= A * B ->
  (x * y + d) * (x * y + d) <= (x * x + A) * (y * y + B).
Proof.
  intros HA HB Hd.
  assert (2 * (x * y * d) <= x * x * B + y * y * A) as Hmid.
  { destruct (Req_dec A 0) as [HA0|HA0].
    - subst A. rewrite Rmult_0_l in Hd.
      assert (d = 0) as ->.
      { pose proof (Rle_0_sqr d) as H. unfold Rsqr in H.
        assert (d * d = 0) as H0 by lra.
        destruct (Rmult_integral _ _ H0); assumption. }
      pose proof (Rle_0_sqr x) as Hx. unfold Rsqr in Hx.
      assert (0 <= x * x * B) by (apply Rmult_le_pos; assumption).
      lra.
    - assert (0 < A) as HApos by lra.
      apply Rmult_le_reg_l with A; [exact HApos|].
      pose proof (Rle_0_sqr (x * d - y * A)) as Hsq. unfold Rsqr in Hsq.
      pose proof (Rle_0_sqr x) as Hx. unfold Rsqr in Hx.
      assert (0 <= x * x * (A * B - d * d)) as Hgap
          by (apply Rmult_le_pos; lra).
      lra. }
  lra.
Qed.

Lemma cauchy_schwarz (a b : list R) :
  multiply_sum a b * multiply_sum a b
  <= multiply_sum a a * multiply_sum b b.
Proof.
  revert b. induction a as [|x a IH]; intros [|y b].
  - unfold multiply_sum; simpl. lra.
  - change (multiply_sum [] (y :: b)) with 0.
    change (multiply_sum [] []) with 0. lra.
  - change (multiply_sum (x :: a) []) with 0.
    change (multiply_sum [] []) with 0. lra.
  - rewrite !multiply_sum_cons.
    apply cauchy_schwarz_step;
      [apply sum_squares_nonneg | apply sum_squares_nonneg | apply IH].
Qed.

Lemma vec_len_nonneg (a : list R) : 0 <= vec_len a.
Proof. apply sqrt_pos. Qed.

Lemma vec_len_zero (a : list R) :
  vec_len a = 0 <-> Forall (fun x => x = 0) a.
Proof.
  rewrite <- sum_squares_zero. unfold vec_len. split.
  - apply sqrt_eq_0, sum_squares_nonneg.
  - intros ->. apply sqrt_0.
Qed.

Lemma vec_len_sqr (a : list R) : vec_len a * vec_len a = multiply_sum a a.
Proof. apply sqrt_sqrt, sum_squares_nonneg. Qed.

Lemma dot_le_lens (a b : list R) :
  multiply_sum a b <= vec_len a * vec_len b.
Proof.
  pose proof (cauchy_schwarz a b) as CS.
  pose proof (vec_len_nonneg a) as Ha.
  pose proof (vec_len_nonneg b) as Hb.
  assert (0 <= vec_len a * vec_len b) as Hab by (apply Rmult_le_pos; assumption).
  destruct (Rle_dec (multiply_sum a b) 0) as [Hneg|Hpos]; [lra|].
  apply Rnot_le_lt in Hpos.
  apply Rsqr_incr_0_var; [|exact Hab].
  unfold Rsqr.
  replace (vec_len a * vec_len b * (vec_len a * vec_len b))
    with ((vec_len a * vec_len a) * (vec_len b * vec_len b)) by ring.
  rewrite !vec_len_sqr. exact CS.
Qed.

Lemma dot_zero_of_len_zero (a b : list R) :
  vec_len a * vec_len b = 0 -> multiply_sum a b = 0.
Proof.
  intros H. pose proof (cauchy_schwarz a b) as CS.
  assert (multiply_sum a a * multiply_sum b b = 0) as Hz.
  { rewrite <- !vec_len_sqr.
    replace (vec_len a * vec_len a * (vec_len b * vec_len b))
      with ((vec_len a * vec_len b) * (vec_len a * vec_len b)) by ring.
    rewrite H. ring. }
  rewrite Hz in CS.
  pose proof (Rle_0_sqr (multiply_sum a b)) as Hs. unfold Rsqr in Hs.
  assert (multiply_sum a b * multiply_sum a b = 0) as H0 by lra.
  destruct (Rmult_integral _ _ H0); assumption.
Qed.

Lemma np_div_nonzero (x y : R) : y <> 0 -> np_div x y = Finite (x / y).
Proof.
  intros Hy. unfold np_div. destruct (Req_dec_T y 0); [contradiction|reflexivity].
Qed.

Lemma np_div_zero_zero : np_div 0 0 = NaN.
Proof.
  unfold np_div. destruct (Req_dec_T 0 0) as [_|H]; [|contradiction H; reflexivity].
  reflexivity.
Qed.

Lemma cosine_self (a : list R) : vec_len a <> 0 -> cosine a a = Finite 1.
Proof.
  intros Ha. unfold cosine.
  assert (vec_len a * vec_len a <> 0) as Hden
      by (apply Rmult_integral_contrapositive; split; assumption).
  rewrite np_div_nonzero by exact Hden.
  f_equal. rewrite vec_len_sqr in *. field. exact Hden.
Qed.

Lemma cosine_le_1 (a b : list R) :
  vec_len a <> 0 -> vec_len b <> 0 ->
  exists c, cosine a b = Finite c /\ c <= 1.
Proof.
  intros Ha Hb. unfold cosine.
  assert (vec_len a * vec_len b <> 0) as Hden
      by (apply Rmult_integral_contrapositive; split; assumption).
  rewrite np_div_nonzero by exact Hden.
  eexists; split; [reflexivity|].
  pose proof (vec_len_nonneg a). pose proof (vec_len_nonneg b).
  assert (0 < vec_len a * vec_len b) as Hpos
      by (apply Rmult_lt_0_compat; lra).
  apply Rmult_le_reg_r with (vec_len a * vec_len b); [exact Hpos|].
  unfold Rdiv. rewrite Rmult_assoc, Rinv_l by exact Hden.
  rewrite Rmult_1_r, Rmult_1_l. apply dot_le_lens.
Qed.

Lemma cosine_zero_len (a b : list R) :
  vec_len a * vec_len b = 0 -> cosine a b = NaN.
Proof.
  intros H. unfold cosine.
  rewrite (dot_zero_of_len_zero a b H), H. apply np_div_zero_zero.
Qed.

Lemma cos_similarities_nth (a : list R) (B : list (list R)) (i : nat) :
  nth_error (cos_similarities a B) i = option_map (cosine a) (nth_error B i).
Proof.
  unfold cos_similarities, dot_all, denominators, b_len.
  revert i. induction B as [|b B IH]; intros [|i]; simpl; auto.
Qed.
End Cosine.

(** C9, in exact real arithmetic.  For every vector with nonzero norm the
    cosine similarity [dot / (a_len * b_len)] of the vector with itself is
    1; for every pair of vectors with nonzero norms it is at most 1
    (Cauchy-Schwarz); so among the similarities of all messages to message
    0, message 0 has the value 1 and every other entry is at most 1 or NaN
    (which [sort_values] puts last).  This is about the real numbers; in
    binary64 the cell is exact only up to rounding. *)
Theorem cosine_similarity_at_most_1 :
  (forall a : list R, vec_len a <> 0%R -> cosine a a = Finite 1%R)
  /\ (forall a b : list R, vec_len a <> 0%R -> vec_len b <> 0%R ->
        exists c, cosine a b = Finite c /\ (c <= 1)%R)
  /\ (forall (a : list R) (B : list (list R)),
        vec_len a <> 0%R -> nth_error B 0 = Some a ->
        nth_error (cos_similarities a B) 0 = Some (Finite 1%R)
        /\ forall i s, nth_error (cos_similarities a B) i = Some s ->
             s = NaN \/ exists c, s = Finite c /\ (c <= 1)%R).
Proof.
  split; [exact cosine_self|]. split; [exact cosine_le_1|].
  intros a B Ha H0. split.
  - rewrite cos_similarities_nth, H0. simpl. f_equal. apply cosine_self, Ha.
  - intros i s Hs. rewrite cos_similarities_nth in Hs.
    destruct (nth_error B i) as [b|]; [|discriminate].
    simpl in Hs. injection Hs as <-.
    destruct (Req_dec (vec_len b) 0) as [Hb|Hb].
    + left. apply cosine_zero_len. rewrite Hb. apply Rmult_0_r.
    + right. apply cosine_le_1; assumption.
Qed.

Lemma vec_len_3_4_nonzero : vec_len [3%R; 4%R] <> 0%R.
Proof.
  intros H. apply vec_len_zero in H. inversion H as [|? ? H3 _]. lra.
Qed.

Lemma cosine_similarity_at_most_1_witness :
  cosine [3%R; 4%R] [3%R; 4%R] = Finite 1%R
  /\ nth_error (cos_similarities [3%R; 4%R] [[3%R; 4%R]; [0%R; 0%R]]) 0
     = Some (Finite 1%R).
Proof.
  split.
  - apply (proj1 cosine_similarity_at_most_1). exact vec_len_3_4_nonzero.
  - apply (proj2 (proj2 cosine_similarity_at_most_1) [3%R; 4%R]);
      [exact vec_len_3_4_nonzero | reflexivity].
Defined.

(** C9 as stated fails on the arithmetic the cell runs in.  In binary64 the
    vector [[1.0, 1.0]] has nonzero norm and similarity
    0.9999999999999998 with itself, below 1; the vector [[1.0, 1.0, 1.0]]
    has similarity 1.0000000000000002 with itself, above 1. *)
Lemma cosine_binary64_not_exactly_1 :
  PrimFloat.eqb (f64_vec_len [1%float; 1%float]) 0%float = false
  /\ PrimFloat.ltb (f64_cosine [1%float; 1%float] [1%float; 1%float]) 1%float
     = true
  /\ PrimFloat.eqb (f64_vec_len [1%float; 1%float; 1%float]) 0%float = false
  /\ PrimFloat.ltb 1%float
       (f64_cosine [1%float; 1%float; 1%float] [1%float; 1%float; 1%float])
     = true.
Proof. vm_compute. repeat split. Qed.

(* ===================================================================== *)
(** * Theorems: 10.2, the vectorizer and the zero denominators *)
(* ===================================================================== *)

Lemma In_insert_sorted (t x : string) (l : list string) :
  In x (insert_sorted t l) <-> x = t \/ In x l.
Proof.
  induction l as [|u l IH]; simpl.
  - split; intros [H|H]; auto.
  - destruct (String.leb t u); simpl; rewrite ?IH; split; intros H;
      repeat destruct H as [H|H]; auto.
Qed.

Lemma In_sorted (x : string) (l : list string) : In x (sorted l) <-> In x l.
Proof.
  unfold sorted. induction l as [|t l IH]; simpl; [reflexivity|].
  rewrite In_insert_sorted, IH. split; intros [H|H]; auto.
Qed.

Lemma combine_map_r {A B} (g : A -> B) (l : list A) :
  combine l (List.map g l) = List.map (fun x => (x, g x)) l.
Proof. induction l as [|x l IH]; simpl; congruence. Qed.

Lemma smooth_idf_pos (n d : nat) : (d <= n)%nat -> (0 < smooth_idf n d)%R.
Proof.
  intros Hle. unfold smooth_idf.
  assert (0 < INR (1 + d))%R as Hd by (apply lt_0_INR; lia).
  assert (INR (1 + d) <= INR (1 + n))%R as Hdn by (apply le_INR; lia).
  assert (1 <= INR (1 + n) / INR (1 + d))%R as Hq.
  { apply Rmult_le_reg_r with (INR (1 + d)); [exact Hd|].
    unfold Rdiv. rewrite Rmult_assoc, Rinv_l by lra. lra. }
  destruct (Req_dec (INR (1 + n) / INR (1 + d)) 1) as [E|E].
  - rewrite E, ln_1. lra.
  - assert (ln 1 < ln (INR (1 + n) / INR (1 + d)))%R as Hln
        by (apply ln_increasing; lra).
    rewrite ln_1 in Hln. lra.
Qed.

Lemma doc_freq_le (t : string) (docs : list (list string)) :
  (doc_freq t docs <= length docs)%nat.
Proof. apply List.filter_length_le. Qed.

Lemma In_vocabulary (raw_documents : list string) (doc t : string) :
  In doc raw_documents -> In t (analyze doc) ->
  In t (vocabulary_ (learned raw_documents)).
Proof.
  intros Hdoc Ht. simpl. rewrite In_sorted, nodup_In, in_concat.
  exists (analyze doc). split; [apply in_map; exact Hdoc|exact Ht].
Qed.

Lemma fit_ok (raw_documents : list string) (doc t : string) :
  In doc raw_documents -> In t (analyze doc) ->
  fit raw_documents = Ok {| state := Some (learned raw_documents) |}.
Proof.
  intros Hdoc Ht. pose proof (In_vocabulary _ _ _ Hdoc Ht) as Hin.
  unfold fit. destruct (vocabulary_ (learned raw_documents));
    [contradiction|reflexivity].
Qed.

Lemma fit_inv (raw_documents : list string) (vec : TfidfVectorizer) :
  fit raw_documents = Ok vec -> state vec = Some (learned raw_documents).
Proof.
  unfold fit. destruct (vocabulary_ (learned raw_documents)); [discriminate|].
  intros H. injection H as <-. reflexivity.
Qed.

Lemma tfidf_row_learned (raw_documents : list string) (doc : string) :
  tfidf_row (learned raw_documents) doc
  = List.map (fun t =>
       (INR (count_occ String.string_dec (analyze doc) t)
        * smooth_idf (length (List.map analyze raw_documents))
                     (doc_freq t (List.map analyze raw_documents)))%R)
      (vocabulary_ (learned raw_documents)).
Proof.
  unfold tfidf_row. simpl idf_. rewrite combine_map_r, List.map_map. reflexivity.
Qed.

(** A message without tokens has an all-zero row, whatever was learned. *)
Lemma tfidf_row_no_tokens (f : fitted) (doc : string) :
  analyze doc = [] -> vec_len (tfidf_row f doc) = 0%R.
Proof.
  intros Hno. apply vec_len_zero. unfold tfidf_row. rewrite Hno.
  apply List.Forall_forall. intros x Hx. apply in_map_iff in Hx.
  destruct Hx as (tw & <- & _). simpl. apply Rmult_0_l.
Qed.

(** A message of the corpus with a token has a nonzero row. *)
Lemma tfidf_row_some_token (raw_documents : list string) (doc : string) :
  In doc raw_documents -> analyze doc <> [] ->
  (0 < vec_len (tfidf_row (learned raw_documents) doc))%R.
Proof.
  intros Hdoc Hne.
  destruct (analyze doc) as [|t toks] eqn:Htoks; [contradiction|].
  assert (In t (analyze doc)) as Ht by (rewrite Htoks; left; reflexivity).
  pose proof (In_vocabulary _ _ _ Hdoc Ht) as Hvoc.
  pose proof (vec_len_nonneg (tfidf_row (learned raw_documents) doc)) as Hge.
  destruct (Req_dec (vec_len (tfidf_row (learned raw_documents) doc)) 0)
    as [Hz|Hnz]; [exfalso|lra].
  apply vec_len_zero in Hz. rewrite tfidf_row_learned in Hz.
  rewrite List.Forall_forall in Hz.
  specialize (Hz _ (in_map _ _ _ Hvoc)). simpl in Hz.
  pose proof (smooth_idf_pos (length (List.map analyze raw_documents))
                (doc_freq t (List.map analyze raw_documents))
                (doc_freq_le _ _)) as Hidf.
  assert (0 < INR (count_occ String.string_dec (analyze doc) t))%R as Hc.
  { apply lt_0_INR. apply (count_occ_In String.string_dec). exact Ht. }
  pose proof (Rmult_lt_0_compat _ _ Hc Hidf) as Hprod. lra.
Qed.

(** The denominators of the corpus-wide cell, when message 0 has a token. *)
Lemma corpus_denominators_eq (doc0 : string) (rest : list string) :
  analyze doc0 <> [] ->
  let f := learned (doc0 :: rest) in
  corpus_denominators (doc0 :: rest)
  = Ok (List.map (fun doc => (vec_len (tfidf_row f doc0) * vec_len (tfidf_row f doc))%R)
                 (doc0 :: rest)).
Proof.
  intros Hne f.
  destruct (analyze doc0) as [|t toks] eqn:Htoks; [contradiction|].
  assert (fit (doc0 :: rest) = Ok {| state := Some f |}) as Hfit.
  { apply fit_ok with doc0 t; [left; reflexivity|].
    rewrite Htoks. left. reflexivity. }
  unfold corpus_denominators, tf_idf_sparse. rewrite Hfit.
  unfold bind, transform. cbn [state getrow nth_error List.map].
  unfold denominators, b_len. cbn [List.map]. rewrite !List.map_map.
  reflexivity.
Qed.

(** C4, with the vectorizer's own notion of a word, for a corpus of ASCII
    messages.  When message 0 has at least one token, the corpus-wide
    division [dot / (a_len * b_len)] has a zero denominator for exactly the
    messages in which the vectorizer finds no token (a run of at least two
    letters, digits or underscores, after lowercasing): the row of such a
    message is all zeros, so its norm is zero and its similarity is NaN;
    for every message with at least one token the denominator is strictly
    positive. *)
Theorem zero_denominator_iff_no_token (doc0 : string) (rest : list string) :
  Forall ascii_text (doc0 :: rest) ->
  analyze doc0 <> [] ->
  exists dens sims,
    corpus_denominators (doc0 :: rest) = Ok dens
    /\ corpus_cos_similarities (doc0 :: rest) = Ok sims
    /\ forall i doc, nth_error (doc0 :: rest) i = Some doc ->
         exists den,
           nth_error dens i = Some den
           /\ (den = 0%R <-> analyze doc = [])
           /\ (analyze doc <> [] -> (0 < den)%R)
           /\ (analyze doc = [] ->
                 vec_len (tfidf_row (learned (doc0 :: rest)) doc) = 0%R
                 /\ nth_error sims i = Some NaN).
Proof.
  intros _ Hne. pose proof (corpus_denominators_eq doc0 rest Hne) as Hden.
  cbv zeta in Hden.
  set (f := learned (doc0 :: rest)) in *.
  assert (0 < vec_len (tfidf_row f doc0))%R as Ha.
  { apply tfidf_row_some_token; [left; reflexivity|exact Hne]. }
  assert (corpus_cos_similarities (doc0 :: rest)
          = Ok (cos_similarities (tfidf_row f doc0)
                  (List.map (tfidf_row f) (doc0 :: rest)))) as Hsim.
  { destruct (analyze doc0) as [|t toks] eqn:Htoks; [contradiction|].
    unfold corpus_cos_similarities, tf_idf_sparse.
    rewrite (fit_ok (doc0 :: rest) doc0 t);
      [reflexivity | left; reflexivity | rewrite Htoks; left; reflexivity]. }
  eexists. eexists. split; [exact Hden|]. split; [exact Hsim|].
  intros i doc Hi.
  exists (vec_len (tfidf_row f doc0) * vec_len (tfidf_row f doc))%R.
  assert (In doc (doc0 :: rest)) as Hin by (eapply nth_error_In; exact Hi).
  split; [|split; [|split]].
  - rewrite List.nth_error_map, Hi. reflexivity.
  - split.
    + intros Hz. destruct (analyze doc) as [|t ts] eqn:E; [reflexivity|exfalso].
      assert (analyze doc <> []) as E' by (rewrite E; discriminate).
      pose proof (tfidf_row_some_token _ _ Hin E') as Hb. fold f in Hb.
      pose proof (Rmult_lt_0_compat _ _ Ha Hb). lra.
    + intros E. rewrite (tfidf_row_no_tokens f doc E). apply Rmult_0_r.
  - intros E. apply Rmult_lt_0_compat; [exact Ha|].
    apply tfidf_row_some_token; assumption.
  - intros E. split; [apply tfidf_row_no_tokens; exact E|].
    rewrite cos_similarities_nth, List.nth_error_map, Hi. simpl. f_equal.
    apply cosine_zero_len. rewrite (tfidf_row_no_tokens f doc E).
    apply Rmult_0_r.
Qed.

Lemma zero_denominator_iff_no_token_witness :
  exists dens sims,
    corpus_denominators ["Go home"; ":-)"]%string = Ok dens
    /\ corpus_cos_similarities ["Go home"; ":-)"]%string = Ok sims
    /\ nth_error dens 1 = Some 0%R
    /\ nth_error sims 1 = Some NaN.
Proof.
  destruct (zero_denominator_iff_no_token "Go home"%string [":-)"%string])
    as (dens & sims & Hd & Hs & H).
  - repeat constructor.
  - vm_compute. discriminate.
  - exists dens, sims. split; [exact Hd|]. split; [exact Hs|].
    destruct (H 1%nat ":-)"%string eq_refl) as (den & Hden & Hz & _ & Hnan).
    assert (analyze ":-)"%string = []) as E by (vm_compute; reflexivity).
    split; [|exact (proj2 (Hnan E))].
    rewrite Hden. f_equal. apply Hz. exact E.
Defined.

(** C4 as stated fails in both directions.  The message ["I"] has a word
    after lowercasing and stripping non-letters, but the vectorizer drops
    one-letter tokens, so its row is zero and the division is by zero.  The
    message ["42"] has no word left after stripping non-letters, but the
    vectorizer keeps the token 42, so its denominator is positive. *)
Lemma zero_denominator_not_iff_no_words :
  (words_of_text "Go home"%string <> []
   /\ words_of_text "I"%string <> []
   /\ exists dens,
        corpus_denominators ["Go home"; "I"]%string = Ok dens
        /\ nth_error dens 1 = Some 0%R)
  /\ (words_of_text "42"%string = []
      /\ exists dens den,
           corpus_denominators ["Go home"; "42"]%string = Ok dens
           /\ nth_error dens 1 = Some den /\ (0 < den)%R).
Proof.
  assert (analyze "Go home"%string <> []) as Hgo by (vm_compute; discriminate).
  split; [split; [|split]|split].
  - vm_compute. discriminate.
  - vm_compute. discriminate.
  - eexists. split; [apply (corpus_denominators_eq _ _ Hgo)|].
    cbn [List.map nth_error]. f_equal.
    rewrite (tfidf_row_no_tokens _ "I"%string) by (vm_compute; reflexivity).
    apply Rmult_0_r.
  - vm_compute. reflexivity.
  - eexists. eexists. split; [apply (corpus_denominators_eq _ _ Hgo)|].
    split; [cbn [List.map nth_error]; reflexivity|].
    apply Rmult_lt_0_compat.
    + apply tfidf_row_some_token; [left; reflexivity|exact Hgo].
    + apply tfidf_row_some_token; [right; left; reflexivity|].
      vm_compute. discriminate.
Qed.

(* ===================================================================== *)
(** * Theorems: 10.2, Exercise 4 *)
(* ===================================================================== *)

(** C8. [predict_spam] never returns a value; with the vectorizer fitted
    as the cell does ([vec.fit(sms["text"])] succeeded), for every input
    string the TF-IDF vector is computed and the call raises
    [NotImplementedError]. *)
Theorem predict_spam_raises :
  (forall (vec : TfidfVectorizer) (new_text : string) (v : bool),
      predict_spam vec new_text <> Ok v)
  /\ (forall (sms_text : list string) (vec : TfidfVectorizer),
        fit sms_text = Ok vec ->
        forall new_text : string,
          (exists x_new, bind (transform vec [new_text]) (fun M => getrow M 0)
                         = Ok x_new)
          /\ predict_spam vec new_text = Raise NotImplementedError).
Proof.
  split.
  - intros vec new_text v. unfold predict_spam, transform.
    destruct (state vec); simpl; discriminate.
  - intros sms_text vec Hfit new_text. apply fit_inv in Hfit.
    unfold predict_spam, transform. rewrite Hfit. simpl.
    split; [eexists; reflexivity|reflexivity].
Qed.

Lemma predict_spam_raises_witness :
  exists vec,
    fit ["Free entry in a weekly comp"; "Ok lar"]%string = Ok vec
    /\ predict_spam vec "free cash"%string = Raise NotImplementedError.
Proof.
  eexists. split.
  - apply (fit_ok _ "Ok lar"%string "ok"%string).
    + right. left. reflexivity.
    + vm_compute. left. reflexivity.
  - apply (proj2 predict_spam_raises
             ["Free entry in a weekly comp"; "Ok lar"]%string).
    apply (fit_ok _ "Ok lar"%string "ok"%string).
    + right. left. reflexivity.
    + vm_compute. left. reflexivity.
Defined.

(* ===================================================================== *)
(** * Theorems: 5.1 *)
(* ===================================================================== *)

Lemma insert_by_value_perm (e : nat * Z) (s : list (nat * Z)) :
  Permutation (insert_by_value e s) (e :: s).
Proof.
  induction s as [|e' s IH]; simpl; [reflexivity|].
  destruct (snd e <=? snd e')%Z; [reflexivity|].
  rewrite IH. apply perm_swap.
Qed.

Lemma sort_values_perm (s : list (nat * Z)) : Permutation (sort_values s) s.
Proof.
  induction s as [|e s IH]; simpl; [reflexivity|].
  rewrite insert_by_value_perm. apply perm_skip, IH.
Qed.

Lemma insert_by_value_sorted (e : nat * Z) (s : list (nat * Z)) :
  StronglySorted value_le s -> StronglySorted value_le (insert_by_value e s).
Proof.
  induction s as [|e' s IH]; intros Hs; simpl.
  - constructor; constructor.
  - inversion Hs as [|? ? Hs' Hall]; subst.
    destruct (snd e <=? snd e')%Z eqn:E.
    + apply Z.leb_le in E. constructor; [exact Hs|].
      constructor; [exact E|].
      eapply List.Forall_impl; [|exact Hall].
      intros x Hx. unfold value_le in *. lia.
    + apply Z.leb_gt in E. constructor; [apply IH; exact Hs'|].
      apply List.Forall_forall. intros x Hx.
      apply (Permutation_in _ (insert_by_value_perm e s)) in Hx.
      destruct Hx as [<-|Hx]; [unfold value_le; lia|].
      rewrite List.Forall_forall in Hall. apply Hall, Hx.
Qed.

Lemma sort_values_sorted (s : list (nat * Z)) :
  StronglySorted value_le (sort_values s).
Proof.
  induction s as [|e s IH]; simpl; [constructor|].
  apply insert_by_value_sorted, IH.
Qed.

Lemma StronglySorted_weaken {A} (R S : A -> A -> Prop) (l : list A) :
  (forall x y, In x l -> In y l -> R x y -> S x y) ->
  StronglySorted R l -> StronglySorted S l.
Proof.
  intros H Hs. induction Hs as [|x l Hs IH Hall]; constructor.
  - apply IH. intros a b Ha Hb. apply H; right; assumption.
  - rewrite List.Forall_forall in *. intros y Hy.
    apply H; [left; reflexivity|right; exact Hy|apply Hall, Hy].
Qed.

Lemma StronglySorted_app_lt {A} (R : A -> A -> Prop) (l1 l2 : list A) :
  StronglySorted R (l1 ++ l2) ->
  forall x y, In x l1 -> In y l2 -> R x y.
Proof.
  induction l1 as [|a l1 IH]; intros Hs x y Hx Hy; [contradiction|].
  simpl in Hs. inversion Hs as [|? ? Hs' Hall]; subst.
  destruct Hx as [<-|Hx].
  - rewrite List.Forall_forall in Hall. apply Hall, in_or_app. right. exact Hy.
  - apply IH; assumption.
Qed.

(** Two sorted arrangements of the same elements coincide when the order
    is antisymmetric on them. *)
Lemma sorted_perm_unique {A} (R : A -> A -> Prop) (l1 l2 : list A) :
  (forall x y, In x l1 -> In y l1 -> R x y -> R y x -> x = y) ->
  StronglySorted R l1 -> StronglySorted R l2 -> Permutation l1 l2 ->
  l1 = l2.
Proof.
  revert l2. induction l1 as [|x l1 IH]; intros l2 Hanti H1 H2 HP.
  - apply Permutation_nil in HP. congruence.
  - destruct l2 as [|y l2];
      [apply Permutation_sym, Permutation_nil in HP; discriminate|].
    inversion H1 as [|? ? H1' Hall1]; subst.
    inversion H2 as [|? ? H2' Hall2]; subst.
    rewrite List.Forall_forall in Hall1, Hall2.
    assert (x = y) as <-.
    { assert (In x (y :: l2)) as Hx
          by (apply (Permutation_in _ HP); left; reflexivity).
      assert (In y (x :: l1)) as Hy
          by (apply (Permutation_in _ (Permutation_sym HP)); left; reflexivity).
      destruct Hx as [->|Hx]; [reflexivity|].
      destruct Hy as [->|Hy]; [reflexivity|].
      apply Hanti; [left; reflexivity|right; exact Hy|apply Hall1, Hy|apply Hall2, Hx]. }
    f_equal. apply IH; auto.
    + intros a b Ha Hb. apply Hanti; right; assumption.
    + eapply Permutation_cons_inv. exact HP.
Qed.

Lemma wrap64_small (z : Z) : (- 2 ^ 63 <= z < 2 ^ 63)%Z -> wrap64 z = z.
Proof. intros H. unfold wrap64. rewrite Z.mod_small; lia. Qed.

Lemma squared_distance_nonneg (x_new row : list Z) :
  (0 <= squared_distance x_new row)%Z.
Proof.
  revert x_new. induction row as [|a row IH]; intros [|b x]; simpl; try lia.
  specialize (IH x). pose proof (Z.pow_even_nonneg (a - b) 2) as H.
  change (Z.pow_pos (a - b) 2) with ((a - b) ^ 2)%Z.
  assert (Z.Even 2) as E by (exists 1%Z; reflexivity). specialize (H E). lia.
Qed.

Lemma sum64_exact (row x_new : list Z) (acc : Z) :
  (0 <= acc)%Z -> (acc + squared_distance x_new row < 2 ^ 63)%Z ->
  fold_left add64 (sq_diffs row x_new) acc
  = (acc + squared_distance x_new row)%Z.
Proof.
  revert x_new acc.
  induction row as [|a row IH]; intros [|b x] acc Hacc Hfit;
    cbn [sq_diffs squared_distance fold_left] in *; try lia.
  pose proof (squared_distance_nonneg x row) as Hrest.
  set (d := (a - b)%Z) in *.
  assert (d ^ 2 = d * d)%Z as Hsq by apply Z.pow_2_r.
  assert (0 <= d * d)%Z as Hnn by apply Z.square_nonneg.
  assert (- (d * d) <= d <= d * d)%Z as Habs by nia.
  unfold sub64. fold d. rewrite (wrap64_small d) by lia.
  unfold mul64. rewrite (wrap64_small (d * d)) by lia.
  unfold add64 at 2. rewrite (wrap64_small (acc + d * d)) by lia.
  rewrite IH by lia. lia.
Qed.

Lemma is_int64b_sound (z : Z) : is_int64b z = true -> is_int64 z.
Proof. unfold is_int64b, is_int64. intros H. apply andb_prop in H. lia. Qed.

Lemma fits_int64b_sound (X : list (list Z)) (x_new : list Z) :
  fits_int64b X x_new = true -> fits_int64 X x_new.
Proof.
  unfold fits_int64b, fits_int64. intros H. apply andb_prop in H.
  destruct H as [Hx HX]. rewrite forallb_forall in Hx, HX. split.
  - apply List.Forall_forall. intros z Hz. apply is_int64b_sound, Hx, Hz.
  - apply List.Forall_forall. intros row Hrow.
    specialize (HX row Hrow). apply andb_prop in HX. destruct HX as [Hr Hd].
    rewrite forallb_forall in Hr. split; [|lia].
    apply List.Forall_forall. intros z Hz. apply is_int64b_sound, Hr, Hz.
Qed.

(** The refinement the helper rests on: while no overflow occurs, the
    [int64] computation of line 208 is the exact squared distance. *)
Lemma sq_dist_exact (x_new row : list Z) :
  (squared_distance x_new row < 2 ^ 63)%Z ->
  sq_dist x_new row = squared_distance x_new row.
Proof.
  intros H. unfold sq_dist, sum64. rewrite sum64_exact; lia.
Qed.

Lemma euclidean_le_iff (x_new r1 r2 : list Z) :
  (euclidean_distance x_new r1 <= euclidean_distance x_new r2)%R
  <-> (squared_distance x_new r1 <= squared_distance x_new r2)%Z.
Proof.
  unfold euclidean_distance.
  pose proof (squared_distance_nonneg x_new r1) as H1.
  pose proof (squared_distance_nonneg x_new r2) as H2.
  apply IZR_le in H1, H2. split.
  - intros H. apply le_IZR. apply sqrt_le_0; assumption.
  - intros H. apply sqrt_le_1; try assumption. apply IZR_le, H.
Qed.

Lemma euclidean_inj (x_new r1 r2 : list Z) :
  euclidean_distance x_new r1 = euclidean_distance x_new r2 ->
  squared_distance x_new r1 = squared_distance x_new r2.
Proof.
  intros H. apply Z.le_antisymm; apply (euclidean_le_iff x_new); rewrite H;
    apply Rle_refl.
Qed.

(** Monotonicity of the square root: the Euclidean distances are in the
    same strict order as the exact squared ones. *)
Lemma euclidean_lt_iff (x_new r1 r2 : list Z) :
  (euclidean_distance x_new r1 < euclidean_distance x_new r2)%R
  <-> (squared_distance x_new r1 < squared_distance x_new r2)%Z.
Proof.
  pose proof (euclidean_le_iff x_new r2 r1) as H. split.
  - intros Hlt. apply Z.nle_gt. intros Hle. apply H in Hle. lra.
  - intros Hlt. apply Rnot_le_lt. intros Hle. apply H in Hle. lia.
Qed.

Lemma StronglySorted_unmap {A B} (f : A -> B) (R : B -> B -> Prop) (l : list A) :
  StronglySorted R (List.map f l) -> StronglySorted (fun x y => R (f x) (f y)) l.
Proof.
  induction l as [|x l IH]; simpl; intros Hs; [constructor|].
  inversion Hs as [|? ? Hs' Hall]; subst. constructor; [apply IH, Hs'|].
  rewrite List.Forall_forall in *. intros y Hy. apply Hall, in_map, Hy.
Qed.

Lemma combine_seq_map {B} (f : list Z -> B) (X : list (list Z)) (k : nat) :
  combine (seq k (length X)) (List.map f X)
  = List.map (fun i => (i, f (nth (i - k) X []))) (seq k (length X)).
Proof.
  revert k. induction X as [|r X IH]; intros k; simpl; [reflexivity|].
  rewrite Nat.sub_diag. f_equal. rewrite IH. apply List.map_ext_in.
  intros i Hi. apply in_seq in Hi.
  replace (i - k)%nat with (S (i - S k)) by lia. reflexivity.
Qed.

Lemma dists_eq (X : list (list Z)) (x_new : list Z) :
  dists X x_new
  = List.map (fun i => (i, sq_dist x_new (nth i X []))) (seq 0 (length X)).
Proof.
  unfold dists. rewrite combine_seq_map. apply List.map_ext.
  intros i. rewrite Nat.sub_0_r. reflexivity.
Qed.

Lemma NoDup_map_reflect {A B C} (f : A -> B) (g : A -> C) (l : list A) :
  (forall a b, f a = f b -> g a = g b) ->
  List.NoDup (List.map g l) -> List.NoDup (List.map f l).
Proof.
  intros Hfg. induction l as [|a l IH]; simpl; intros Hg; [constructor|].
  inversion Hg as [|? ? Hnin Hg']; subst. constructor; [|apply IH, Hg'].
  intros Hin. apply Hnin. apply in_map_iff in Hin.
  destruct Hin as (b & Hb & Hbl). apply in_map_iff. exists b.
  split; [symmetry; apply Hfg; symmetry; exact Hb|exact Hbl].
Qed.

Lemma loc_in_range (y : list Z) (labels : list nat) :
  (forall i, In i labels -> (i < length y)%nat) ->
  loc y labels = Ok (List.map (fun i => nth i y 0%Z) labels).
Proof.
  induction labels as [|i labels IH]; intros H; simpl; [reflexivity|].
  rewrite (nth_error_nth' y 0%Z) by (apply H; left; reflexivity).
  rewrite IH by (intros j Hj; apply H; right; exact Hj). reflexivity.
Qed.

Section NearestNeighbours.
Variable X : list (list Z).
Variable x_new : list Z.

Let n := length X.
Let d2 (i : nat) : Z := sq_dist x_new (nth i X []).
Let dist (i : nat) : R := euclidean_distance x_new (nth i X []).
Let order := index (sort_values (dists X x_new)).

Lemma order_perm : Permutation order (seq 0 n).
Proof.
  unfold order, index.
  rewrite (sort_values_perm (dists X x_new)), dists_eq, List.map_map.
  simpl. rewrite List.map_id. reflexivity.
Qed.

Lemma order_in_range (i : nat) : In i order -> (i < n)%nat.
Proof.
  intros Hi. apply (Permutation_in _ order_perm), in_seq in Hi. lia.
Qed.

Lemma order_sorted_sq :
  StronglySorted (fun i j => (d2 i <= d2 j)%Z) order.
Proof.
  pose proof (sort_values_sorted (dists X x_new)) as Hs.
  assert (sort_values (dists X x_new)
          = List.map (fun i => (i, d2 i)) order) as E.
  { unfold order, index. rewrite List.map_map.
    rewrite <- (List.map_id (sort_values (dists X x_new))) at 1.
    apply List.map_ext_in. intros e He.
    apply (Permutation_in _ (sort_values_perm _)) in He.
    rewrite dists_eq in He. apply in_map_iff in He.
    destruct He as (i & <- & _). reflexivity. }
  rewrite E in Hs. apply StronglySorted_unmap in Hs. exact Hs.
Qed.

Lemma nearest_length : length (inds_sorted X x_new) = Nat.min 30 n.
Proof.
  unfold inds_sorted. fold order.
  rewrite List.length_firstn, (Permutation_length order_perm), List.length_seq.
  reflexivity.
Qed.

Lemma nearest_NoDup : List.NoDup (inds_sorted X x_new).
Proof.
  unfold inds_sorted. fold order.
  assert (List.NoDup order) as H.
  { apply (Permutation_NoDup (Permutation_sym order_perm)), seq_NoDup. }
  rewrite <- (firstn_skipn 30 order) in H.
  apply List.NoDup_app_remove_r in H. exact H.
Qed.

Lemma nearest_in_range (i : nat) : In i (inds_sorted X x_new) -> (i < n)%nat.
Proof.
  unfold inds_sorted. fold order. intros Hi.
  apply order_in_range.
  rewrite <- (firstn_skipn 30 order); apply in_or_app; left; exact Hi.
Qed.

Hypothesis fits : fits_int64 X x_new.

(** Without overflow the helper's number for a row is the exact squared
    distance of that row. *)
Lemma d2_exact (i : nat) :
  (i < n)%nat -> d2 i = squared_distance x_new (nth i X []).
Proof.
  intros Hi. unfold d2. apply sq_dist_exact.
  destruct fits as [_ Hrows]. rewrite List.Forall_forall in Hrows.
  apply (Hrows (nth i X [])), nth_In, Hi.
Qed.

Lemma dist_lt_iff (i j : nat) :
  (i < n)%nat -> (j < n)%nat -> (dist i < dist j)%R <-> (d2 i < d2 j)%Z.
Proof.
  intros Hi Hj. rewrite (d2_exact i Hi), (d2_exact j Hj).
  apply euclidean_lt_iff.
Qed.

Lemma order_sorted : StronglySorted (fun i j => (dist i <= dist j)%R) order.
Proof.
  eapply StronglySorted_weaken; [|exact order_sorted_sq].
  intros i j Hi Hj H. cbv beta in H.
  rewrite (d2_exact i (order_in_range i Hi)) in H.
  rewrite (d2_exact j (order_in_range j Hj)) in H.
  apply euclidean_le_iff. exact H.
Qed.

Hypothesis distinct : List.NoDup (List.map (euclidean_distance x_new) X).

Lemma dist_inj (i j : nat) :
  (i < n)%nat -> (j < n)%nat -> dist i = dist j -> i = j.
Proof.
  intros Hi Hj H.
  apply (proj1 (List.NoDup_nth (List.map (euclidean_distance x_new) X) 0%R)
           distinct);
    rewrite ?List.length_map; try assumption.
  rewrite !(map_nth_in _ _ _ _ []) by assumption. exact H.
Qed.

Lemma order_unique (es : list nat) :
  Permutation es (seq 0 n) ->
  StronglySorted (fun i j => (dist i <= dist j)%R) es ->
  es = order.
Proof.
  intros HP Hs.
  apply (sorted_perm_unique (fun i j => (dist i <= dist j)%R)).
  - intros i j Hi Hj Hij Hji.
    apply (Permutation_in _ HP), in_seq in Hi.
    apply (Permutation_in _ HP), in_seq in Hj.
    apply dist_inj; [lia|lia|]. apply Rle_antisym; assumption.
  - exact Hs.
  - exact order_sorted.
  - rewrite HP. symmetry. exact order_perm.
Qed.

Lemma nearest_closer (i j : nat) :
  In i (inds_sorted X x_new) -> (j < n)%nat -> ~ In j (inds_sorted X x_new) ->
  (dist i < dist j)%R.
Proof.
  intros Hi Hj Hnj. pose proof (nearest_in_range i Hi) as Hin.
  unfold inds_sorted in *. fold order in Hi, Hnj.
  assert (In j (skipn 30 order)) as Hjs.
  { assert (In j order) as Ho.
    { apply (Permutation_in _ (Permutation_sym order_perm)), in_seq. lia. }
    rewrite <- (firstn_skipn 30 order) in Ho.
    apply in_app_or in Ho. destruct Ho; [contradiction|assumption]. }
  pose proof order_sorted as Hs.
  rewrite <- (firstn_skipn 30 order) in Hs.
  pose proof (StronglySorted_app_lt _ _ _ Hs i j Hi Hjs) as Hle.
  destruct Hle as [Hlt|Heq]; [exact Hlt|].
  apply dist_inj in Heq; [|assumption|assumption].
  subst j. contradiction.
Qed.
End NearestNeighbours.

Lemma get_30NN_prediction_mean (g : training_data) (x_new : list Z) :
  length (y_train g) = length (X_train g) ->
  get_30NN_prediction g x_new
  = Ok (mean (List.map (fun i => nth i (y_train g) 0%Z)
                (inds_sorted (X_train g) x_new))).
Proof.
  intros Hlen. unfold get_30NN_prediction.
  rewrite loc_in_range; [reflexivity|].
  intros i Hi. rewrite Hlen. apply (nearest_in_range _ _ _ Hi).
Qed.

(** C1 as stated fails on [int64] columns.  With thirty houses at
    1, ..., 30 and one at 2^32 (every value an [int64], every Euclidean
    distance to the query 0 different), houses 0 to 29 are each nearer
    than house 30, and the mean of their prices is 4350 / 30.  The square
    of 2^32 wraps around to 0, so the helper ranks house 30 first, leaves
    house 29 out, and returns 4060 / 30. *)
Lemma get_30NN_prediction_int64_overflow :
  let g := far_house in
  let x_new := [0%Z] in
  let dist := fun i => euclidean_distance x_new (nth i (X_train g) []) in
  length (y_train g) = length (X_train g)
  /\ List.Forall (List.Forall is_int64) (x_new :: X_train g)
  /\ List.NoDup (List.map (euclidean_distance x_new) (X_train g))
  /\ (forall i, (i < 30)%nat -> (dist i < dist 30%nat)%R)
  /\ mean (List.map (fun i => nth i (y_train g) 0%Z) (seq 0 30))
     = Finite (4350 # 30)
  /\ sq_dist x_new (nth 30 (X_train g) []) = 0%Z
  /\ In 30%nat (inds_sorted (X_train g) x_new)
  /\ ~ In 29%nat (inds_sorted (X_train g) x_new)
  /\ get_30NN_prediction g x_new = Ok (Finite (4060 # 30))
  /\ ~ (4060 # 30 == 4350 # 30)%Q.
Proof.
  cbv zeta.
  split; [reflexivity|].
  split.
  { unfold is_int64. cbn [far_house X_train List.map seq app].
    repeat (constructor; [repeat (constructor; [lia|]); constructor|]).
    constructor. }
  split.
  { apply (NoDup_map_reflect _ (squared_distance [0%Z])); [apply euclidean_inj|].
    vm_compute. repeat (constructor; [simpl; lia|]). constructor. }
  split.
  { intros i Hi. apply euclidean_lt_iff.
    do 30 (destruct i as [|i]; [vm_compute; reflexivity|]). lia. }
  split; [vm_compute; reflexivity|].
  split; [vm_compute; reflexivity|].
  split; [vm_compute; tauto|].
  split; [vm_compute; intuition lia|].
  split; [vm_compute; reflexivity|].
  vm_compute. discriminate.
Qed.

(** C1, amended.  For every training set (feature rows with one label each)
    and every query point such that no squared distance overflows [int64]
    and the Euclidean distances to the query point are pairwise distinct,
    [get_30NN_prediction] returns the mean of the labels of the 30 training
    points nearest in Euclidean distance (of all of them when there are
    fewer than 30).  The indices it selects by sorting the squared
    distances it computes are in range, distinct, strictly closer in
    Euclidean distance than every index left out, and are the first 30 of
    any arrangement of the indices in ascending Euclidean distance: the
    square root being monotone, the Euclidean distances are in the same
    order as the numbers the helper sorts. *)
Theorem get_30NN_prediction_nearest (g : training_data) (x_new : list Z) :
  length (y_train g) = length (X_train g) ->
  fits_int64 (X_train g) x_new ->
  List.NoDup (List.map (euclidean_distance x_new) (X_train g)) ->
  let n := length (X_train g) in
  let dist := fun i => euclidean_distance x_new (nth i (X_train g) []) in
  let nearest := inds_sorted (X_train g) x_new in
  length nearest = Nat.min 30 n
  /\ ((30 <= n)%nat -> length nearest = 30%nat)
  /\ List.NoDup nearest
  /\ (forall i, In i nearest -> (i < n)%nat)
  /\ (forall i j, In i nearest -> (j < n)%nat -> ~ In j nearest ->
        (dist i < dist j)%R)
  /\ (forall i j, (i < n)%nat -> (j < n)%nat ->
        (dist i < dist j)%R
        <-> (sq_dist x_new (nth i (X_train g) [])
             < sq_dist x_new (nth j (X_train g) []))%Z)
  /\ (forall es, Permutation es (seq 0 n) ->
        StronglySorted (fun i j => (dist i <= dist j)%R) es ->
        firstn 30 es = nearest)
  /\ get_30NN_prediction g x_new
     = Ok (mean (List.map (fun i => nth i (y_train g) 0%Z) nearest))
  /\ ((30 <= n)%nat ->
      get_30NN_prediction g x_new
      = Ok (Finite (inject_Z (zsum (List.map (fun i => nth i (y_train g) 0%Z)
                                             nearest))
                    / inject_Z 30)%Q)).
Proof.
  intros Hlen Hfits Hdistinct n dist nearest.
  pose proof (nearest_length (X_train g) x_new) as HL. fold n nearest in HL.
  split; [exact HL|]. split; [intros H; rewrite HL; lia|].
  split; [apply nearest_NoDup|].
  split; [apply nearest_in_range|].
  split; [apply nearest_closer; assumption|].
  split; [intros i j; apply dist_lt_iff; exact Hfits|].
  split.
  - intros es HP Hs. unfold nearest, inds_sorted. f_equal.
    apply order_unique; assumption.
  - pose proof (get_30NN_prediction_mean g x_new Hlen) as Hmean.
    fold nearest in Hmean.
    split; [exact Hmean|].
    intros H30. rewrite Hmean. f_equal.
    assert (length (List.map (fun i => nth i (y_train g) 0%Z) nearest) = 30%nat)
      as HL30 by (rewrite List.length_map, HL; lia).
    unfold mean.
    destruct (List.map (fun i => nth i (y_train g) 0%Z) nearest) as [|v vs];
      [discriminate|].
    rewrite HL30. reflexivity.
Qed.

Lemma scattered_houses_fit : fits_int64 (X_train scattered_houses) [40; 1]%Z.
Proof. apply fits_int64b_sound. vm_compute. reflexivity. Qed.

Lemma scattered_houses_distinct :
  List.NoDup (List.map (euclidean_distance [40; 1]%Z) (X_train scattered_houses)).
Proof.
  apply (NoDup_map_reflect _ (squared_distance [40; 1]%Z));
    [apply euclidean_inj|].
  vm_compute. repeat (constructor; [simpl; lia|]). constructor.
Qed.

Lemma get_30NN_prediction_nearest_witness :
  length (inds_sorted (X_train scattered_houses) [40; 1]%Z) = 30%nat
  /\ List.hd 0%nat (inds_sorted (X_train scattered_houses) [40; 1]%Z) = 26%nat
  /\ ~ In 4%nat (inds_sorted (X_train scattered_houses) [40; 1]%Z)
  /\ (forall i, In i (inds_sorted (X_train scattered_houses) [40; 1]%Z) ->
        (euclidean_distance [40; 1]%Z (nth i (X_train scattered_houses) [])
         < euclidean_distance [40; 1]%Z [0; 1]%Z)%R)
  /\ get_30NN_prediction scattered_houses [40; 1]%Z = Ok (Finite (4610 # 30)).
Proof.
  pose proof (get_30NN_prediction_nearest scattered_houses [40; 1]%Z
                eq_refl scattered_houses_fit scattered_houses_distinct) as H.
  cbv zeta in H. destruct H as (_ & H30 & _ & _ & Hcloser & _ & _ & Hmean & _).
  split; [apply H30; vm_compute; lia|].
  split; [vm_compute; reflexivity|].
  split; [vm_compute; intuition lia|].
  split.
  - intros i Hi.
    apply (Hcloser i 4%nat Hi); [vm_compute; lia|vm_compute; intuition lia].
  - rewrite Hmean. vm_compute. reflexivity.
Defined.

(* ===================================================================== *)
(** * Theorems: 5.4, the split *)
(* ===================================================================== *)

Section Split.
Context {row : Type}.
Variable housing : frame row.
Hypothesis distinct_labels : List.NoDup (labels_of housing).

Lemma rows_distinct : List.NoDup housing.
Proof. exact (List.NoDup_map_inv fst housing distinct_labels). Qed.

Lemma label_determines_row (r r' : Z * row) :
  In r housing -> In r' housing -> fst r = fst r' -> r = r'.
Proof.
  clear -distinct_labels. unfold labels_of in distinct_labels.
  induction housing as [|h t IH]; simpl in *; [contradiction|].
  inversion distinct_labels as [|? ? Hnin Hrest]; subst.
  intros [->|Hr] [->|Hr'] E; auto.
  - exfalso. apply Hnin. rewrite E. apply in_map, Hr'.
  - exfalso. apply Hnin. rewrite <- E. apply in_map, Hr.
Qed.

Lemma take_in_range (locs : list nat) :
  Forall (fun i => (i < length housing)%nat) locs ->
  exists train,
    take housing locs = Ok train
    /\ Forall2 (fun i r => nth_error housing i = Some r) locs train.
Proof.
  induction 1 as [|i locs Hi _ (train & Ht & HF)]; simpl.
  - exists []. split; [reflexivity|constructor].
  - destruct (nth_error housing i) as [r|] eqn:Hr.
    + exists (r :: train). rewrite Ht. split; [reflexivity|].
      constructor; assumption.
    + apply nth_error_None in Hr. lia.
Qed.

Lemma taken_rows (locs : list nat) (train : frame row) :
  Forall2 (fun i r => nth_error housing i = Some r) locs train ->
  (forall r, In r train -> exists i, In i locs /\ nth_error housing i = Some r)
  /\ (List.NoDup locs -> List.NoDup train)
  /\ length train = length locs.
Proof.
  induction 1 as [|i r locs train Hir HF (IHin & IHnd & IHlen)].
  - split; [intros r []|]. split; [constructor|reflexivity].
  - split; [|split].
    + intros r' [<-|Hr'].
      * exists i. split; [left; reflexivity|exact Hir].
      * destruct (IHin r' Hr') as (j & Hj & Hjr). exists j.
        split; [right; exact Hj|exact Hjr].
    + intros Hnd. inversion Hnd as [|? ? Hnin Hnd']; subst.
      constructor; [|apply IHnd, Hnd'].
      intros Hr. destruct (IHin r Hr) as (j & Hj & Hjr).
      assert (i = j) as ->; [|contradiction].
      apply (proj1 (List.NoDup_nth_error housing) rows_distinct).
      * apply nth_error_Some. rewrite Hir. discriminate.
      * congruence.
    + simpl. congruence.
Qed.

Lemma mem_label_In (l : Z) (ls : list Z) : mem_label l ls = true <-> In l ls.
Proof.
  unfold mem_label. rewrite existsb_exists. split.
  - intros (x & Hx & E). apply Z.eqb_eq in E. subst. exact Hx.
  - intros H. exists l. split; [exact H|apply Z.eqb_refl].
Qed.

Lemma split_filter (b : Z * row -> bool) (t : frame row) :
  Permutation (List.filter b t ++ List.filter (fun r => negb (b r)) t) t.
Proof.
  induction t as [|r t IH]; simpl; [reflexivity|].
  destruct (b r); simpl.
  - apply perm_skip, IH.
  - symmetry. apply Permutation_cons_app. symmetry. exact IH.
Qed.

(** C7. The split of lesson 5.4 partitions the table.  Whatever positions
    the generator draws within its contract, when the row labels are pairwise
    distinct, [train] has the sampled size, every row of the table is in
    exactly one of [train] and [val], no row (and no label) is in both,
    and [train] followed by [val] is a rearrangement of the table. *)
Theorem train_val_partition (rs_choice : nat -> nat -> list nat) :
  is_choice (length housing) (half_rounded (length housing))
            (rs_choice (length housing) (half_rounded (length housing))) ->
  exists train val,
    train_val_split rs_choice housing = Ok (train, val)
    /\ length train = half_rounded (length housing)
    /\ Permutation (train ++ val) housing
    /\ (forall r, In r housing ->
          (In r train /\ ~ In r val) \/ (In r val /\ ~ In r train))
    /\ (forall r, In r train \/ In r val -> In r housing)
    /\ (forall l, In l (labels_of train) -> ~ In l (labels_of val)).
Proof.
  set (locs := rs_choice (length housing) (half_rounded (length housing))).
  intros (Hlen & Hnd & Hrange).
  destruct (take_in_range locs Hrange) as (train & Htake & HF).
  destruct (taken_rows locs train HF) as (Hin & Hndt & Hlt).
  specialize (Hndt Hnd).
  assert (forall r, In r train -> In r housing) as Hsub.
  { intros r Hr. destruct (Hin r Hr) as (i & _ & Hi).
    eapply nth_error_In. exact Hi. }
  set (b := fun r : Z * row => mem_label (fst r) (labels_of train)).
  assert (forall r, In r housing -> (b r = true <-> In r train)) as Hb.
  { intros r Hr. unfold b. rewrite mem_label_In. unfold labels_of.
    rewrite in_map_iff. split.
    - intros (r' & E & Hr'). 
      rewrite (label_determines_row r r' Hr (Hsub _ Hr') (eq_sym E)).
      exact Hr'.
    - intros H. exists r. split; [reflexivity|exact H]. }
  set (val := List.filter (fun r => negb (b r)) housing).
  assert (drop (labels_of train) housing = Ok val) as Hdrop.
  { unfold drop. 
    replace (forallb (fun l => mem_label l (labels_of housing)) (labels_of train))
      with true; [reflexivity|].
    symmetry. apply forallb_forall. intros l Hl. apply mem_label_In.
    unfold labels_of in *. apply in_map_iff in Hl.
    destruct Hl as (r & <- & Hr). apply in_map, Hsub, Hr. }
  assert (Permutation train (List.filter b housing)) as Hperm.
  { apply Permutation.NoDup_Permutation;
      [exact Hndt | apply List.NoDup_filter, rows_distinct|].
    intros r. rewrite filter_In. split.
    - intros Hr. split; [apply Hsub, Hr|apply Hb; auto].
    - intros [Hr Hbr]. apply Hb; assumption. }
  assert (forall r, In r val <-> In r housing /\ ~ In r train) as Hval.
  { intros r. unfold val. rewrite filter_In. split.
    - intros [Hr Hn]. split; [exact Hr|]. intros Ht.
      apply Hb in Ht; [|exact Hr]. rewrite Ht in Hn. discriminate.
    - intros [Hr Hn]. split; [exact Hr|].
      destruct (b r) eqn:E; [|reflexivity].
      exfalso. apply Hn, Hb; assumption. }
  exists train, val. split; [|split; [|split; [|split; [|split]]]].
  - unfold train_val_split, sample. cbv zeta. fold locs. rewrite Htake.
    simpl. rewrite Hdrop. reflexivity.
  - congruence.
  - rewrite Hperm. apply split_filter.
  - intros r Hr. destruct (b r) eqn:E.
    + left. assert (In r train) as Ht by (apply Hb; assumption).
      split; [exact Ht|]. intros Hv. apply Hval in Hv. tauto.
    + right. assert (~ In r train) as Hn.
      { intros Ht. apply Hb in Ht; [|exact Hr]. congruence. }
      split; [apply Hval; tauto|exact Hn].
  - intros r [Hr|Hr]; [apply Hsub, Hr|apply Hval in Hr; tauto].
  - intros l Hl Hv. unfold labels_of in Hl, Hv.
    apply in_map_iff in Hl. destruct Hl as (r & <- & Hr).
    apply in_map_iff in Hv. destruct Hv as (r' & E & Hr').
    apply Hval in Hr'. destruct Hr' as [Hr'h Hr'n]. apply Hr'n.
    rewrite (label_determines_row r' r Hr'h (Hsub _ Hr) E). exact Hr.
Qed.
End Split.

Lemma train_val_partition_witness :
  exists train val,
    train_val_split (fun _ _ => [2; 0]%nat) four_houses = Ok (train, val)
    /\ Permutation (train ++ val) four_houses
    /\ train = [(2%Z, "OldTown"); (0%Z, "Ames")]%string
    /\ val = [(1%Z, "Gilbert"); (3%Z, "Sawyer")]%string.
Proof.
  destruct (train_val_partition four_houses) with (rs_choice := fun _ _ : nat => [2; 0]%nat)
    as (train & val & Hsplit & _ & Hperm & _).
  - vm_compute. repeat (constructor; [simpl; lia|]). constructor.
  - split; [reflexivity|]. split.
    + repeat (constructor; [simpl; lia|]). constructor.
    + repeat (constructor; [simpl; lia|]). constructor.
  - exists train, val. split; [exact Hsplit|]. split; [exact Hperm|].
    vm_compute in Hsplit. injection Hsplit as <- <-. split; reflexivity.
Defined.

(* ===================================================================== *)
(** * Theorems: 5.4, get_val_error *)
(* ===================================================================== *)

(** C2 does not hold of the code.  The result of [get_val_error] does not
    depend on its first and third arguments: it is the validation error of
    a model fitted on the global [X_train_dict] with the labels passed
    second and scored on the global [X_val_dict] against the labels passed
    fourth.  In the swapped call of the lesson the model is therefore still
    fitted on the features of the first half, now paired with the labels of
    the second half. *)
Theorem get_val_error_reads_globals (sk : sklearn) (g : notebook_globals sk) :
  (forall (X_train X_train' X_val X_val' : matrix sk) (y_train y_val : labels sk),
      get_val_error sk g X_train y_train X_val y_val
      = get_val_error sk g X_train' y_train X_val' y_val)
  /\ (forall (X_train X_val : matrix sk) (y_train y_val : labels sk),
        get_val_error sk g X_train y_train X_val y_val
        = knn10_rmse sk (X_train_dict g) y_train (X_val_dict g) y_val)
  /\ (forall (X_train X_val : matrix sk) (y_train y_val : labels sk),
        get_val_error sk g X_val y_val X_train y_train
        = knn10_rmse sk (X_train_dict g) y_val (X_val_dict g) y_train).
Proof. repeat split. Qed.

(* ===================================================================== *)
(** * Theorems: the two helpers as functions of their inputs *)
(* ===================================================================== *)

Lemma get_30NN_prediction_depends_on_data :
  get_30NN_prediction (one_house 1) [0%Z]
  <> get_30NN_prediction (one_house 2) [0%Z].
Proof. vm_compute. discriminate. Qed.

Lemma py_slice_to_last {A} (l : list A) :
  py_slice None (Some (-1)%Z) l = slice_to_last l.
Proof.
  unfold py_slice, slice_to_last, slice_bound. simpl.
  rewrite Nat.sub_0_r. f_equal. lia.
Qed.

Lemma py_slice_from_1 {A} (l : list A) :
  py_slice (Some 1%Z) None l = slice_from_1 l.
Proof.
  unfold py_slice, slice_from_1, slice_bound. simpl.
  replace (Z.to_nat 1) with 1%nat by reflexivity.
  destruct l as [|a l]; [reflexivity|].
  simpl. rewrite Nat.sub_0_r. apply firstn_all.
Qed.

Lemma zip_items_two (a b : list value) (fuel : nat) :
  (length a <= fuel)%nat ->
  zip_items fuel [a; b] = tuples (combine a b).
Proof.
  revert a b. induction fuel as [|fuel IH]; intros a b Hlen.
  - destruct a; [reflexivity|simpl in Hlen; lia].
  - destruct a as [|x a]; [reflexivity|].
    destruct b as [|y b]; [reflexivity|].
    simpl in *. rewrite IH by lia. reflexivity.
Qed.

(** The names the body of [get_bigrams] looks up: [zip], which no
    parameter binds, and [words], which is the parameter whatever the
    notebook's global [words] holds. *)
Lemma get_bigrams_def_eval (globals : namespace) (w : value) :
  call_function get_bigrams_def globals [w]
  = match resolve globals ∅ "zip" with
    | Value f =>
        match slice_value None (Some (-1)%Z) w with
        | Value a =>
            match slice_value (Some 1%Z) None w with
            | Value b => call_value f [a; b]
            | err => err
            end
        | err => err
        end
    | err => err
    end.
Proof.
  unfold call_function, get_bigrams_def. cbn -[resolve slice_value call_value].
  assert (forall id, id <> "words"%string ->
            resolve globals (<["words"%string := w]> ∅) id
            = resolve globals ∅ id) as Hother.
  { intros id Hid. unfold resolve.
    rewrite lookup_insert_ne by congruence. reflexivity. }
  assert (resolve globals (<["words"%string := w]> ∅) "words" = Value w)
    as Hwords.
  { unfold resolve. rewrite lookup_insert_eq. reflexivity. }
  rewrite Hother by discriminate. rewrite Hwords. reflexivity.
Qed.

Lemma resolve_zip (g1 g2 : namespace) :
  g1 !! "zip"%string = g2 !! "zip"%string ->
  resolve g1 ∅ "zip" = resolve g2 ∅ "zip".
Proof. intros H. unfold resolve. rewrite !lookup_empty, H. reflexivity. Qed.

Lemma get_bigrams_def_independent (g1 g2 : namespace) (args : list value) :
  g1 !! "zip"%string = g2 !! "zip"%string ->
  call_function get_bigrams_def g1 args = call_function get_bigrams_def g2 args.
Proof.
  intros Hzip. destruct args as [|w [|w' args]]; try reflexivity.
  rewrite !get_bigrams_def_eval, (resolve_zip g1 g2 Hzip). reflexivity.
Qed.

Lemma get_bigrams_def_runs (globals : namespace) (words : list value) :
  globals !! "zip"%string = None ->
  call_function get_bigrams_def globals [VList words]
  = Value (VList (tuples (get_bigrams words))).
Proof.
  intros Hzip. rewrite get_bigrams_def_eval.
  unfold resolve. rewrite lookup_empty, Hzip.
  cbn [builtins String.eqb Ascii.eqb Bool.eqb slice_value call_value all_items
       items_of].
  unfold zip. cbn [List.hd].
  rewrite zip_items_two by reflexivity.
  rewrite py_slice_to_last, py_slice_from_1. reflexivity.
Qed.

(** C6 as stated fails: it says that neither helper is independent of the
    downloaded datasets, and [get_bigrams] is.  Evaluated by Python's
    lookup rules, its body gives the same result in any two global
    namespaces that agree on the one global name it reads, [zip] (which
    the notebook never rebinds), whatever tables they hold under [texts],
    [words] or any other name. *)
Lemma helpers_not_both_impure :
  ~ (~ (forall (g1 g2 : namespace) (args : list value),
          g1 !! "zip"%string = g2 !! "zip"%string ->
          call_function get_bigrams_def g1 args
          = call_function get_bigrams_def g2 args)
     /\ ~ dataset_independent get_30NN_prediction).
Proof.
  intros [H _]. apply H. exact get_bigrams_def_independent.
Qed.

(** C6, amended.  [get_bigrams] is a self-contained function of its
    argument: called in any two global namespaces that agree on the name
    [zip], it gives the same result on the same arguments, and where [zip]
    is the builtin its result on a list is the list of consecutive pairs
    of that list, with no downloaded table involved (a global named
    [words], as the notebook has, is hidden by the parameter).
    [get_30NN_prediction] reads the globals [X_train] and [y_train]: its
    result on one argument changes with the table. *)
Theorem helpers_purity :
  (forall (g1 g2 : namespace) (args : list value),
     g1 !! "zip"%string = g2 !! "zip"%string ->
     call_function get_bigrams_def g1 args
     = call_function get_bigrams_def g2 args)
  /\ (forall (globals : namespace) (words : list value),
        globals !! "zip"%string = None ->
        call_function get_bigrams_def globals [VList words]
        = Value (VList (tuples (get_bigrams words))))
  /\ ~ dataset_independent get_30NN_prediction.
Proof.
  split; [exact get_bigrams_def_independent|].
  split; [exact get_bigrams_def_runs|].
  intros H. apply get_30NN_prediction_depends_on_data. apply H.
Qed.

Lemma helpers_purity_witness :
  call_function get_bigrams_def (spam_notebook [VStr "Ok lar"; VStr "U dun say"])
    [VList [VStr "green"; VStr "eggs"; VStr "and"; VStr "ham"]]
  = call_function get_bigrams_def (spam_notebook [VStr "I am Sam"])
      [VList [VStr "green"; VStr "eggs"; VStr "and"; VStr "ham"]]
  /\ call_function get_bigrams_def (spam_notebook [VStr "I am Sam"])
       [VList [VStr "green"; VStr "eggs"; VStr "and"; VStr "ham"]]
     = Value (VList [VTuple [VStr "green"; VStr "eggs"];
                     VTuple [VStr "eggs"; VStr "and"];
                     VTuple [VStr "and"; VStr "ham"]]).
Proof.
  split.
  - apply (proj1 helpers_purity). reflexivity.
  - rewrite (proj1 (proj2 helpers_purity)); reflexivity.
Defined.

(** The swapped call of the lesson,
    [get_val_error(X_val, y_val, X_train, y_train)], traced: the model is
    fitted on rows 0 and 1 (the first half) with the labels of rows 2 and
    3, and scored on rows 2 and 3 against the labels of rows 0 and 1. *)
Example swapped_call_provenance :
  get_val_error tracing lesson_globals
    ([2; 3]%nat : matrix tracing) (Given [215000; 105000]%Z : labels tracing)
    ([0; 1]%nat : matrix tracing) (Given [172000; 244000]%Z : labels tracing)
  = Ok {| fitted_on := [0; 1]%nat; fitted_with := [215000; 105000]%Z;
          scored_on := [2; 3]%nat; scored_against := [172000; 244000]%Z |}.
Proof. reflexivity. Qed.

(* ===================================================================== *)
(** * Further properties: 10.1 *)
(* ===================================================================== *)

Lemma get_bigrams_fst_snd {A} (d : A) (words : list A) :
  words <> [] ->
  List.hd d words :: List.map snd (get_bigrams words) = words
  /\ List.map fst (get_bigrams words) ++ [List.last words d] = words.
Proof.
  induction words as [|a [|b l] IH]; intros Hne; [contradiction| |].
  - split; reflexivity.
  - rewrite get_bigrams_cons2.
    destruct IH as [IH1 IH2]; [discriminate|].
    split.
    + simpl. simpl in IH1. rewrite IH1. reflexivity.
    + cbn [List.map fst app]. change (List.last (a :: b :: l) d) with (List.last (b :: l) d).
      rewrite IH2. reflexivity.
Qed.

Lemma get_bigrams_app {A} (d : A) (xs ys : list A) :
  xs <> [] -> ys <> [] ->
  get_bigrams (xs ++ ys)
  = get_bigrams xs ++ (List.last xs d, List.hd d ys) :: get_bigrams ys.
Proof.
  intros Hx Hy. induction xs as [|a [|b l] IH]; [contradiction| |].
  - destruct ys as [|y ys]; [contradiction|].
    cbn [app]. rewrite get_bigrams_cons2. reflexivity.
  - change ((a :: b :: l) ++ ys) with (a :: b :: (l ++ ys)).
    rewrite !get_bigrams_cons2.
    change (b :: l ++ ys) with ((b :: l) ++ ys).
    rewrite IH by discriminate. reflexivity.
Qed.

(** X1. The bigrams of a non-empty word list determine it: the first word
    followed by the second components is the list, the first components
    followed by the last word is the list, and each bigram starts with the
    word the previous one ends with. *)
Theorem get_bigrams_rebuild {A} (d : A) (words : list A) :
  words <> [] ->
  List.hd d words :: List.map snd (get_bigrams words) = words
  /\ List.map fst (get_bigrams words) ++ [List.last words d] = words
  /\ (forall i p q,
        nth_error (get_bigrams words) i = Some p ->
        nth_error (get_bigrams words) (S i) = Some q ->
        snd p = fst q).
Proof.
  intros Hne. destruct (get_bigrams_fst_snd d words Hne) as [H1 H2].
  split; [exact H1|]. split; [exact H2|].
  intros i p q Hp Hq. rewrite (get_bigrams_seq d) in Hp, Hq.
  rewrite List.nth_error_map in Hp, Hq.
  destruct (nth_error (seq 0 (length words - 1)) i) as [j|] eqn:Hj;
    [|discriminate].
  destruct (nth_error (seq 0 (length words - 1)) (S i)) as [k|] eqn:Hk;
    [|discriminate].
  simpl in Hp, Hq. injection Hp as <-. injection Hq as <-. simpl.
  assert (i < length (seq 0 (length words - 1)))%nat as Hi
      by (apply nth_error_Some; rewrite Hj; discriminate).
  assert (S i < length (seq 0 (length words - 1)))%nat as Hsi
      by (apply nth_error_Some; rewrite Hk; discriminate).
  rewrite List.length_seq in Hi, Hsi.
  rewrite (nth_error_nth' _ 0%nat) in Hj by (rewrite List.length_seq; exact Hi).
  rewrite (nth_error_nth' _ 0%nat) in Hk by (rewrite List.length_seq; exact Hsi).
  rewrite seq_nth in Hj by exact Hi. rewrite seq_nth in Hk by exact Hsi.
  injection Hj as <-. injection Hk as <-. reflexivity.
Qed.

Lemma get_bigrams_rebuild_witness :
  "green"%string
    :: List.map snd (get_bigrams ["green"; "eggs"; "and"; "ham"]%string)
  = ["green"; "eggs"; "and"; "ham"]%string.
Proof.
  apply (proj1 (get_bigrams_rebuild ""%string
                  ["green"; "eggs"; "and"; "ham"]%string ltac:(discriminate))).
Defined.

(** X2. The bigrams of two non-empty word lists put end to end are the
    bigrams of the first, the bigram that joins the last word of the first
    to the first word of the second, and the bigrams of the second. *)
Theorem get_bigrams_concatenation {A} (d : A) (xs ys : list A) :
  xs <> [] -> ys <> [] ->
  get_bigrams (xs ++ ys)
  = get_bigrams xs ++ (List.last xs d, List.hd d ys) :: get_bigrams ys
  /\ length (get_bigrams (xs ++ ys))
     = S (length (get_bigrams xs) + length (get_bigrams ys)).
Proof.
  intros Hx Hy. pose proof (get_bigrams_app d xs ys Hx Hy) as E.
  split; [exact E|]. rewrite E, List.length_app. simpl. lia.
Qed.

Lemma get_bigrams_concatenation_witness :
  get_bigrams (["the"; "dog"] ++ ["bit"; "her"])%list%string
  = [("the", "dog"); ("dog", "bit"); ("bit", "her")]%string.
Proof.
  apply (proj1 (get_bigrams_concatenation ""%string
                  ["the"; "dog"]%string ["bit"; "her"]%string
                  ltac:(discriminate) ltac:(discriminate))).
Defined.

(** ** Splitting and stripping *)

Lemma runs_concat (p : ascii -> bool) (cur s : list ascii) :
  concat (runs p cur s) = cur ++ List.filter p s.
Proof.
  revert cur. induction s as [|c s IH]; intros cur; simpl.
  - destruct cur; simpl; rewrite ?List.app_nil_r; reflexivity.
  - destruct (p c).
    + rewrite IH, <- List.app_assoc. reflexivity.
    + rewrite List.concat_app, IH. destruct cur; simpl;
        rewrite ?List.app_nil_r; reflexivity.
Qed.

Lemma runs_nonempty (p : ascii -> bool) (cur s r : list ascii) :
  In r (runs p cur s) -> r <> [].
Proof.
  revert cur. induction s as [|c s IH]; intros cur; simpl.
  - destruct cur; simpl; [tauto|]. intros [<-|[]]. discriminate.
  - destruct (p c); [apply IH|]. intros H. apply in_app_or in H.
    destruct H as [H|H]; [|eapply IH; exact H].
    destruct cur; simpl in H; [tauto|]. destruct H as [<-|[]]. discriminate.
Qed.

Lemma runs_chars (p : ascii -> bool) (s r : list ascii) (c : ascii) :
  In r (runs p [] s) -> In c r -> In c s /\ p c = true.
Proof.
  intros Hr Hc.
  assert (In c (concat (runs p [] s))) as H
      by (apply in_concat; exists r; split; assumption).
  rewrite runs_concat in H. simpl in H. apply filter_In in H. exact H.
Qed.

Lemma lower_char_not_upper (c : ascii) : is_upper (lower_char c) = false.
Proof. destruct c as [[] [] [] [] [] [] [] []]; reflexivity. Qed.

Lemma word_char_not_space (c : ascii) : is_word_char c = true -> is_space c = false.
Proof.
  destruct c as [[] [] [] [] [] [] [] []]; vm_compute; intros H;
    first [reflexivity | discriminate H].
Qed.

Lemma letter_is_word_char (c : ascii) : is_letter c = true -> is_word_char c = true.
Proof. unfold is_word_char. intros ->. reflexivity. Qed.

Lemma filter_filter {A} (f g : A -> bool) (l : list A) :
  List.filter f (List.filter g l) = List.filter (fun x => g x && f x) l.
Proof.
  induction l as [|x l IH]; simpl; [reflexivity|].
  destruct (g x); simpl; [destruct (f x)|]; rewrite IH; reflexivity.
Qed.

Lemma string_of_list_nonempty (r : list ascii) :
  r <> [] -> string_of_list_ascii r <> ""%string.
Proof. destruct r; [contradiction|discriminate]. Qed.

(** The words cut from a text by lowercasing, keeping the characters that
    satisfy [keep] or are whitespace, and splitting. *)
Lemma split_words_clean (keep : ascii -> bool) (text : string) (w : string) :
  (forall c, keep c = true -> is_space c = false) ->
  In w (List.map string_of_list_ascii
          (str_split (List.filter (fun c => keep c || is_space c)
                        (str_lower (list_ascii_of_string text))))) ->
  w <> ""%string
  /\ Forall (fun c => keep c = true /\ is_upper c = false /\ is_space c = false)
            (list_ascii_of_string w).
Proof.
  intros Hkeep Hw. apply in_map_iff in Hw. destruct Hw as (r & <- & Hr).
  split; [apply string_of_list_nonempty; eapply runs_nonempty; exact Hr|].
  rewrite list_ascii_of_string_of_list_ascii.
  apply List.Forall_forall. intros c Hc.
  destruct (runs_chars _ _ _ _ Hr Hc) as [Hin Hns].
  apply filter_In in Hin. destruct Hin as [Hin Hk].
  apply negb_true_iff in Hns. rewrite Hns, orb_false_r in Hk.
  split; [exact Hk|]. split; [|exact Hns].
  unfold str_lower in Hin. apply in_map_iff in Hin.
  destruct Hin as (c0 & <- & _). apply lower_char_not_upper.
Qed.

Lemma split_words_concat (keep : ascii -> bool) (text : string) :
  (forall c, keep c = true -> is_space c = false) ->
  concat (List.map list_ascii_of_string
            (List.map string_of_list_ascii
               (str_split (List.filter (fun c => keep c || is_space c)
                             (str_lower (list_ascii_of_string text))))))
  = List.filter keep (str_lower (list_ascii_of_string text)).
Proof.
  intros Hkeep. rewrite List.map_map.
  rewrite (List.map_ext _ (fun r => r))
    by (intros r; apply list_ascii_of_string_of_list_ascii).
  rewrite List.map_id. unfold str_split. rewrite runs_concat. simpl.
  rewrite filter_filter. apply List.filter_ext. intros c.
  destruct (keep c) eqn:E; simpl.
  - rewrite (Hkeep c E). reflexivity.
  - destruct (is_space c); reflexivity.
Qed.

(** X3. Every word of lesson 10.1's [words] is non-empty and made of
    word characters only (letters, digits, underscore), with no capital
    letter and no whitespace; and the words, put end to end, are exactly the
    word characters of the lowercased text, in order: only punctuation and
    whitespace are lost. *)
Theorem normalized_words_clean (text : string) :
  (forall w, In w (normalized_words text) ->
     w <> ""%string
     /\ Forall (fun c => is_word_char c = true /\ is_upper c = false
                         /\ is_space c = false)
               (list_ascii_of_string w))
  /\ concat (List.map list_ascii_of_string (normalized_words text))
     = List.filter is_word_char (str_lower (list_ascii_of_string text)).
Proof.
  split.
  - intros w Hw. apply (split_words_clean is_word_char text w);
      [exact word_char_not_space|exact Hw].
  - apply (split_words_concat is_word_char). exact word_char_not_space.
Qed.

Lemma normalized_words_clean_witness :
  normalized_words "Go until jurong point, crazy.. Available only"%string
  = ["go"; "until"; "jurong"; "point"; "crazy"; "available"; "only"]%string
  /\ "point"%string <> ""%string.
Proof.
  split; [vm_compute; reflexivity|].
  apply (proj1 (normalized_words_clean
                  "Go until jurong point, crazy.. Available only"%string)).
  vm_compute. tauto.
Defined.

(** X4. Every word of lesson 10.2's bag-of-words cell is non-empty and made
    of lowercase letters only; and the words, put end to end, are exactly
    the letters of the lowercased text, in order: digits, punctuation and
    whitespace are lost, nothing else. *)
Theorem words_of_text_letters (text : string) :
  (forall w, In w (words_of_text text) ->
     w <> ""%string
     /\ Forall (fun c => is_lower c = true) (list_ascii_of_string w))
  /\ concat (List.map list_ascii_of_string (words_of_text text))
     = List.filter is_letter (str_lower (list_ascii_of_string text)).
Proof.
  assert (forall c, is_letter c = true -> is_space c = false) as Hls
      by (intros c Hc; apply word_char_not_space, letter_is_word_char, Hc).
  split.
  - intros w Hw.
    destruct (split_words_clean is_letter text w Hls Hw) as [Hne Hall].
    split; [exact Hne|]. eapply List.Forall_impl; [|exact Hall].
    intros c (Hl & Hu & _). unfold is_letter in Hl. rewrite Hu in Hl.
    exact Hl.
  - apply (split_words_concat is_letter). exact Hls.
Qed.

Lemma words_of_text_letters_witness :
  words_of_text "U dun say so early hor... U c already then say 2"%string
  = ["u"; "dun"; "say"; "so"; "early"; "hor"; "u"; "c"; "already"; "then";
     "say"]%string
  /\ "hor"%string <> ""%string.
Proof.
  split; [vm_compute; reflexivity|].
  apply (proj1 (words_of_text_letters
                  "U dun say so early hor... U c already then say 2"%string)).
  vm_compute. tauto.
Defined.

(** ** Counters on any key type *)

Section CounterOf.
Context {K : Type} `{Countable K}.

Let key_dec (x y : K) : {x = y} + {x <> y} := decide (x = y).

Lemma Counter_of_fold_get (l : list K) (c : gmap K nat) (k : K) :
  default 0%nat (fold_left Counter_add_key l c !! k)
  = (count_occ key_dec l k + default 0%nat (c !! k))%nat.
Proof.
  revert c. induction l as [|x l IH]; intros c; simpl; [reflexivity|].
  rewrite IH. unfold Counter_add_key.
  destruct (key_dec x k) as [->|E].
  - rewrite lookup_insert_eq. simpl. lia.
  - rewrite lookup_insert_ne by exact E. reflexivity.
Qed.

Lemma Counter_of_fold_is_Some (l : list K) (c : gmap K nat) (k : K) :
  is_Some (fold_left Counter_add_key l c !! k) <-> In k l \/ is_Some (c !! k).
Proof.
  revert c. induction l as [|x l IH]; intros c; simpl; [tauto|].
  rewrite IH. unfold Counter_add_key. rewrite lookup_insert_is_Some.
  destruct (key_dec x k); tauto.
Qed.

Lemma Counter_of_lookup_in (l : list K) (k : K) :
  In k l -> Counter_of l !! k = Some (count_occ key_dec l k).
Proof.
  intros Hin. unfold Counter_of.
  pose proof (Counter_of_fold_get l ∅ k) as G.
  destruct (proj2 (Counter_of_fold_is_Some l ∅ k) (or_introl Hin)) as [n Hn].
  rewrite Hn, lookup_empty in G. simpl in G. rewrite Hn. f_equal. lia.
Qed.

Lemma Counter_of_lookup_out (l : list K) (k : K) :
  ~ In k l -> Counter_of l !! k = None.
Proof.
  intros Hout. unfold Counter_of.
  destruct (fold_left Counter_add_key l ∅ !! k) as [n|] eqn:Hn; [|reflexivity].
  exfalso. destruct (proj1 (Counter_of_fold_is_Some l ∅ k) (ex_intro _ n Hn))
    as [Hin|[x Hx]]; [contradiction|].
  rewrite lookup_empty in Hx. discriminate.
Qed.

Lemma Counter_total_add_key (c : gmap K nat) (k : K) :
  Counter_total (Counter_add_key c k) = S (Counter_total c).
Proof.
  unfold Counter_total, Counter_add_key.
  destruct (c !! k) as [n|] eqn:Hk; simpl.
  - rewrite <- insert_delete_eq.
    rewrite map_fold_insert_L; [| intros; lia | apply lookup_delete_eq].
    rewrite (map_fold_delete_L _ _ k n c); [lia | intros; lia | exact Hk].
  - rewrite map_fold_insert_L; [lia | intros; lia | exact Hk].
Qed.

Lemma Counter_of_total (l : list K) : Counter_total (Counter_of l) = length l.
Proof.
  unfold Counter_of.
  assert (forall c, Counter_total (fold_left Counter_add_key l c)
                    = (length l + Counter_total c)%nat) as G.
  { induction l as [|x l IH]; intros c; simpl; [reflexivity|].
    rewrite IH, Counter_total_add_key. lia. }
  rewrite G. unfold Counter_total. rewrite map_fold_empty. lia.
Qed.
End CounterOf.

(** X5. The bag of bigrams of a message counts each pair of adjacent words
    as often as it occurs, holds no other pair, and holds one bigram fewer
    than the message has words; a message of fewer than two words has an
    empty bag. *)
Theorem bag_of_bigrams_counts (words : list string) :
  Counter_total (bag_of_bigrams words) = (length words - 1)%nat
  /\ (forall p, In p (get_bigrams words) ->
        bag_of_bigrams words !! p
        = Some (count_occ (fun x y => decide (x = y)) (get_bigrams words) p))
  /\ (forall p, ~ In p (get_bigrams words) -> bag_of_bigrams words !! p = None)
  /\ ((length words < 2)%nat -> bag_of_bigrams words = ∅).
Proof.
  unfold bag_of_bigrams. split; [|split; [|split]].
  - rewrite Counter_of_total, (get_bigrams_seq ""%string).
    rewrite List.length_map, List.length_seq. reflexivity.
  - intros p Hp. apply Counter_of_lookup_in. exact Hp.
  - intros p Hp. apply Counter_of_lookup_out. exact Hp.
  - intros Hlt. rewrite (get_bigrams_seq ""%string).
    replace (length words - 1)%nat with 0%nat by lia. reflexivity.
Qed.

Lemma bag_of_bigrams_counts_witness :
  bag_of_bigrams ["sam"; "i"; "am"; "sam"; "i"]%string
    !! ("sam", "i")%string = Some 2%nat
  /\ bag_of_bigrams ["sam"; "i"; "am"; "sam"; "i"]%string
       !! ("i", "sam")%string = None
  /\ bag_of_bigrams ["sam"%string] = ∅.
Proof.
  pose proof (bag_of_bigrams_counts ["sam"; "i"; "am"; "sam"; "i"]%string)
    as (_ & Hin & Hout & _).
  split; [|split].
  - rewrite Hin; [reflexivity|]. vm_compute. tauto.
  - apply Hout. vm_compute. intros [E|[E|[E|[E|[]]]]]; discriminate E.
  - apply (proj2 (proj2 (proj2 (bag_of_bigrams_counts ["sam"%string])))).
    simpl. lia.
Defined.

(* ===================================================================== *)
(** * Further properties: 10.2, TF-IDF from scratch *)
(* ===================================================================== *)

Lemma doc_count_le (tf : list (list nat)) (t : nat) :
  (doc_count tf t <= length tf)%nat.
Proof. apply List.filter_length_le. Qed.

Lemma doc_count_pos (tf : list (list nat)) (t : nat) (row : list nat) :
  In row tf -> (0 < nth t row 0)%nat -> (0 < doc_count tf t)%nat.
Proof.
  intros Hin Hpos. unfold doc_count.
  assert (In row (List.filter (fun row => (0 <? nth t row 0)%nat) tf)) as H.
  { apply filter_In. split; [exact Hin|]. apply Nat.ltb_lt. exact Hpos. }
  destruct (List.filter (fun row => (0 <? nth t row 0)%nat) tf);
    [contradiction|simpl; lia].
Qed.

Lemma tf_idf_nth_error (ncols : nat) (tf : list (list nat)) (d t : nat) :
  Forall (fun row => length row = ncols) tf ->
  (d < length tf)%nat -> (t < ncols)%nat ->
  nth_error (nth d (tf_idf ncols tf) []) t
  = Some (np_mul_count (nth t (nth d tf []) 0%nat)
            (np_log (np_div_counts (length tf) (doc_count tf t)))).
Proof.
  intros Hrect Hd Ht.
  assert (length (nth d tf []) = ncols) as Hrow.
  { rewrite List.Forall_forall in Hrect. apply Hrect, nth_In, Hd. }
  unfold tf_idf. rewrite map_nth_in with (y := []) by exact Hd.
  apply mul_row_nth_error; [apply nth_error_nth'; lia|].
  unfold idf. rewrite List.nth_error_map.
  rewrite nth_error_nth' with (d := 0%nat) by (rewrite df_length; auto).
  rewrite df_nth by exact Hrect. reflexivity.
Qed.

Lemma ln_ratio_nonneg (n d : nat) :
  (0 < d)%nat -> (d <= n)%nat ->
  (0 <= ln (INR n / INR d))%R /\ (ln (INR n / INR d) = 0%R <-> d = n).
Proof.
  intros Hd Hle.
  assert (0 < INR d)%R as Hd' by (apply lt_0_INR; exact Hd).
  assert (INR d <= INR n)%R as Hle' by (apply le_INR; exact Hle).
  assert (1 <= INR n / INR d)%R as Hq.
  { apply Rmult_le_reg_r with (INR d); [exact Hd'|].
    unfold Rdiv. rewrite Rmult_assoc, Rinv_l by lra. lra. }
  destruct (Nat.eq_dec d n) as [->|Hne].
  - unfold Rdiv. rewrite Rinv_r by lra. rewrite ln_1. split; [lra|tauto].
  - assert (INR d < INR n)%R as Hlt by (apply lt_INR; lia).
    assert (1 < INR n / INR d)%R as Hq1.
    { apply Rmult_lt_reg_r with (INR d); [exact Hd'|].
      unfold Rdiv. rewrite Rmult_assoc, Rinv_l by lra. lra. }
    pose proof (ln_increasing 1 (INR n / INR d) ltac:(lra) Hq1) as Hln.
    rewrite ln_1 in Hln. split; [lra|]. split; [lra|contradiction].
Qed.

(** X6. In the from-scratch TF-IDF of a rectangular frame of counts, a term
    occurs in at most as many documents as there are rows.  For a term that
    occurs somewhere the weight is a real number that is never negative,
    and it is zero exactly when the count is zero or the term occurs in
    every document.  For a term that occurs nowhere, the column is all
    zeros and its weights are NaN, not 0. *)
Theorem tf_idf_weights (ncols : nat) (tf : list (list nat)) (d t : nat) :
  Forall (fun row => length row = ncols) tf ->
  (d < length tf)%nat -> (t < ncols)%nat ->
  let N := length tf in
  let count := nth t (nth d tf []) 0%nat in
  let dft := doc_count tf t in
  let entry := nth_error (nth d (tf_idf ncols tf) []) t in
  (dft <= N)%nat
  /\ ((0 < dft)%nat ->
      exists r, entry = Some (Finite r) /\ (0 <= r)%R
                /\ (r = 0%R <-> count = 0%nat \/ dft = N))
  /\ (dft = 0%nat -> count = 0%nat /\ entry = Some NaN).
Proof.
  intros Hrect Hd Ht N count dft entry.
  pose proof (doc_count_le tf t) as Hle. fold dft N in Hle.
  pose proof (tf_idf_nth_error ncols tf d t Hrect Hd Ht) as He.
  fold N count dft entry in He.
  split; [exact Hle|]. split.
  - intros Hpos. rewrite np_log_ratio in He by (unfold N; lia).
    destruct (ln_ratio_nonneg N dft Hpos Hle) as [Hln Hln0].
    exists (INR count * ln (INR N / INR dft))%R.
    split; [exact He|]. split.
    + apply Rmult_le_pos; [apply pos_INR|exact Hln].
    + split.
      * intros H0. apply Rmult_integral in H0. destruct H0 as [H0|H0].
        -- left. apply INR_eq. rewrite H0. reflexivity.
        -- right. apply Hln0. exact H0.
      * intros [H0|H0].
        -- rewrite H0. apply Rmult_0_l.
        -- rewrite (proj2 Hln0 H0). apply Rmult_0_r.
  - intros H0.
    assert (count = 0%nat) as Hc.
    { destruct count as [|c] eqn:E; [reflexivity|exfalso].
      assert (0 < dft)%nat; [|lia].
      apply (doc_count_pos tf t (nth d tf [])); [apply nth_In, Hd|].
      fold count. lia. }
    split; [exact Hc|]. rewrite He, H0, Hc.
    unfold N. destruct (length tf); [lia|]. reflexivity.
Qed.

Lemma tf_idf_weights_witness :
  (exists r,
     nth_error (nth 0 (tf_idf 3 [[2; 0; 1]; [0; 0; 3]]%nat) []) 0
     = Some (Finite r) /\ (0 <= r)%R)
  /\ nth_error (nth 0 (tf_idf 3 [[2; 0; 1]; [0; 0; 3]]%nat) []) 1 = Some NaN.
Proof.
  split.
  - destruct (tf_idf_weights 3 [[2; 0; 1]; [0; 0; 3]]%nat 0 0) as (_ & H & _).
    + repeat constructor.
    + simpl. lia.
    + lia.
    + destruct H as (r & Hr & Hpos & _); [vm_compute; lia|].
      exists r. split; assumption.
  - destruct (tf_idf_weights 3 [[2; 0; 1]; [0; 0; 3]]%nat 0 1) as (_ & _ & H).
    + repeat constructor.
    + simpl. lia.
    + lia.
    + apply H. vm_compute. reflexivity.
Defined.

Lemma counter_get_Counter (words : list string) (w : string) :
  counter_get (Counter words) w = count_occ String.string_dec words w.
Proof.
  unfold Counter. rewrite fold_counter_get.
  unfold counter_get. rewrite lookup_empty. simpl. lia.
Qed.

Lemma Counter_key_occurs (words : list string) (w : string) :
  is_Some (Counter words !! w) -> In w words.
Proof.
  intros H. apply fold_counter_is_Some in H. destruct H as [H|[x H]];
    [exact H|]. rewrite lookup_empty in H. discriminate.
Qed.

(** X7. The term-frequency frame built from the bags of words has one row
    per message and one column per word; the entry for a message and a word
    is the number of times the word occurs in the message (0 where the bag
    has no such key).  Every column's word occurs in at least one message,
    so every TF-IDF weight computed from this frame is a non-negative real
    number: no division by zero, no NaN. *)
Theorem tf_frame_from_bags (texts columns : list string) :
  is_columns columns (bag_of_words texts) ->
  let tf := DataFrame_fillna0 columns (bag_of_words texts) in
  let ncols := length columns in
  Forall (fun row => length row = ncols) tf
  /\ length tf = length texts
  /\ (forall d t text w,
        nth_error texts d = Some text -> nth_error columns t = Some w ->
        nth t (nth d tf []) 0%nat
        = count_occ String.string_dec (words_of_text text) w)
  /\ (forall t, (t < ncols)%nat -> (1 <= doc_count tf t)%nat)
  /\ (forall d t, (d < length texts)%nat -> (t < ncols)%nat ->
        exists r, nth_error (nth d (tf_idf ncols tf) []) t = Some (Finite r)
                  /\ (0 <= r)%R).
Proof.
  intros [Hnd Hcols] tf ncols.
  assert (Forall (fun row => length row = ncols) tf) as Hrect.
  { apply List.Forall_forall. intros row Hrow. unfold tf, DataFrame_fillna0 in Hrow.
    apply in_map_iff in Hrow. destruct Hrow as (bag & <- & _).
    apply List.length_map. }
  assert (length tf = length texts) as Hlen.
  { unfold tf, DataFrame_fillna0, bag_of_words. rewrite !List.length_map.
    reflexivity. }
  assert (forall t, (t < ncols)%nat -> (1 <= doc_count tf t)%nat) as Hdf.
  { intros t Ht. set (w := nth t columns ""%string).
    assert (In w columns) as Hw by (apply nth_In; exact Ht).
    apply Hcols in Hw. destruct Hw as (bag & Hbag & Hsome).
    apply (doc_count_pos tf t (List.map (counter_get bag) columns)).
    - unfold tf, DataFrame_fillna0.
      apply (List.in_map (fun b => List.map (counter_get b) columns)).
      exact Hbag.
    - rewrite (map_nth_in _ _ _ _ ""%string) by exact Ht. fold w.
      unfold bag_of_words in Hbag. apply in_map_iff in Hbag.
      destruct Hbag as (text & <- & _).
      rewrite counter_get_Counter. apply (count_occ_In String.string_dec).
      apply Counter_key_occurs. exact Hsome. }
  split; [exact Hrect|]. split; [exact Hlen|]. split; [|split; [exact Hdf|]].
  - intros d t text w Hd Ht.
    assert (d < length texts)%nat as Hd'
        by (apply nth_error_Some; rewrite Hd; discriminate).
    assert (t < length columns)%nat as Ht'
        by (apply nth_error_Some; rewrite Ht; discriminate).
    unfold tf, DataFrame_fillna0, bag_of_words. rewrite List.map_map.
    rewrite (map_nth_in _ _ _ _ ""%string) by exact Hd'.
    rewrite (map_nth_in _ _ _ _ ""%string) by exact Ht'.
    rewrite counter_get_Counter.
    apply (nth_error_nth _ _ ""%string) in Hd.
    apply (nth_error_nth _ _ ""%string) in Ht. rewrite Hd, Ht. reflexivity.
  - intros d t Hd Ht. rewrite <- Hlen in Hd.
    rewrite (tf_idf_nth_error ncols tf d t Hrect Hd Ht).
    specialize (Hdf t Ht).
    rewrite np_log_ratio by lia.
    eexists. split; [reflexivity|].
    apply Rmult_le_pos; [apply pos_INR|].
    apply ln_ratio_nonneg; [lia|apply doc_count_le].
Qed.

Lemma tf_frame_from_bags_witness :
  nth 2 (nth 0 (DataFrame_fillna0 ["am"; "i"; "sam"]%string
                  (bag_of_words ["Sam I am. Sam"%string])) []) 0%nat
  = 2%nat
  /\ (1 <= doc_count (DataFrame_fillna0 ["am"; "i"; "sam"]%string
                        (bag_of_words ["Sam I am. Sam"%string])) 1)%nat.
Proof.
  assert (is_columns ["am"; "i"; "sam"]%string
            (bag_of_words ["Sam I am. Sam"%string])) as Hc.
  { split.
    - constructor; [simpl; intros [H|[H|[]]]; discriminate H|].
      constructor; [simpl; intros [H|[]]; discriminate H|].
      constructor; [simpl; tauto|constructor].
    - intros w. split.
      + intros Hw. exists (Counter (words_of_text "Sam I am. Sam"%string)).
        split; [left; reflexivity|].
        rewrite Counter_lookup.
        destruct (in_dec String.string_dec w
                    (words_of_text "Sam I am. Sam"%string)) as [_|Hn];
          [eexists; reflexivity|].
        exfalso. apply Hn. simpl in Hw. destruct Hw as [<-|[<-|[<-|[]]]];
          vm_compute; tauto.
      + intros (bag & [<-|[]] & Hsome).
        apply Counter_key_occurs in Hsome. vm_compute in Hsome.
        simpl. tauto. }
  pose proof (tf_frame_from_bags _ _ Hc) as (_ & _ & Hentry & Hdf & _).
  split.
  - rewrite (Hentry 0%nat 2%nat _ _ eq_refl eq_refl). vm_compute. reflexivity.
  - apply Hdf. simpl. lia.
Defined.

(* ===================================================================== *)
(** * Further properties: 10.2, cosine similarity *)
(* ===================================================================== *)

Section CosineDirection.
Local Open Scope R_scope.

Lemma multiply_sum_comm (a b : list R) : multiply_sum a b = multiply_sum b a.
Proof.
  revert b. induction a as [|x a IH]; intros [|y b]; try reflexivity.
  rewrite !multiply_sum_cons, IH. ring.
Qed.

Lemma multiply_sum_scaled_l (k : R) (a b : list R) :
  multiply_sum (scaled k a) b = k * multiply_sum a b.
Proof.
  revert b. induction a as [|x a IH]; intros [|y b];
    try (unfold multiply_sum; simpl; ring).
  unfold scaled in *. cbn [List.map]. rewrite !multiply_sum_cons, IH. ring.
Qed.

Lemma vec_len_scaled (k : R) (a : list R) :
  0 <= k -> vec_len (scaled k a) = k * vec_len a.
Proof.
  intros Hk. unfold vec_len.
  rewrite multiply_sum_scaled_l, (multiply_sum_comm a (scaled k a)),
    multiply_sum_scaled_l.
  replace (k * (k * multiply_sum a a)) with ((k * k) * multiply_sum a a) by ring.
  rewrite sqrt_mult_alt by (apply Rle_0_sqr).
  rewrite sqrt_square by exact Hk. reflexivity.
Qed.

Lemma np_div_scale (k x y : R) : 0 < k -> np_div (k * x) (k * y) = np_div x y.
Proof.
  intros Hk. unfold np_div.
  destruct (Req_dec_T (k * y) 0) as [Hky|Hky], (Req_dec_T y 0) as [Hy|Hy].
  - destruct (Req_dec_T (k * x) 0) as [Hkx|Hkx], (Req_dec_T x 0) as [Hx|Hx].
    + reflexivity.
    + exfalso. apply Rmult_integral in Hkx. destruct Hkx; [lra|contradiction].
    + exfalso. apply Hkx. rewrite Hx. ring.
    + destruct (Rlt_dec 0 (k * x)) as [H1|H1], (Rlt_dec 0 x) as [H2|H2];
        try reflexivity; exfalso.
      * apply H2. apply Rmult_lt_reg_l with k; [exact Hk|]. lra.
      * apply H1. apply Rmult_lt_0_compat; assumption.
  - exfalso. apply Rmult_integral in Hky. destruct Hky; [lra|contradiction].
  - exfalso. apply Hky. rewrite Hy. ring.
  - f_equal. field. split; lra.
Qed.

Lemma cosine_comm (a b : list R) : cosine a b = cosine b a.
Proof.
  unfold cosine. rewrite (multiply_sum_comm a b), (Rmult_comm (vec_len a)).
  reflexivity.
Qed.

Lemma cosine_scaled_l (k : R) (a b : list R) :
  0 < k -> cosine (scaled k a) b = cosine a b.
Proof.
  intros Hk. unfold cosine.
  rewrite multiply_sum_scaled_l, vec_len_scaled by lra.
  rewrite Rmult_assoc. apply np_div_scale. exact Hk.
Qed.

(** X8. The cosine similarity of the cell depends on the directions of the
    two vectors only: it is symmetric, it does not change when one message
    is repeated [k] times (its vector multiplied by [k > 0]), and a message
    and its [k]-fold repetition have similarity 1.  (Real arithmetic.) *)
Theorem cosine_direction_only :
  (forall a b : list R, cosine a b = cosine b a)
  /\ (forall (k : R) (a b : list R), 0 < k ->
        cosine (scaled k a) b = cosine a b
        /\ cosine a (scaled k b) = cosine a b)
  /\ (forall (k : R) (a : list R), 0 < k -> vec_len a <> 0 ->
        cosine a (scaled k a) = Finite 1).
Proof.
  split; [exact cosine_comm|]. split.
  - intros k a b Hk. split; [apply cosine_scaled_l, Hk|].
    rewrite (cosine_comm a (scaled k b)), cosine_scaled_l by exact Hk.
    apply cosine_comm.
  - intros k a Hk Ha.
    rewrite (cosine_comm a (scaled k a)), cosine_scaled_l by exact Hk.
    apply cosine_self, Ha.
Qed.

Lemma cosine_direction_only_witness :
  cosine [3; 4] (scaled 2 [3; 4]) = Finite 1.
Proof.
  apply (proj2 (proj2 cosine_direction_only)); [lra|].
  exact vec_len_3_4_nonzero.
Defined.

Lemma multiply_sum_map {A} (f g : A -> R) (l : list A) :
  multiply_sum (List.map f l) (List.map g l)
  = rsum (List.map (fun t => f t * g t) l).
Proof.
  induction l as [|t l IH]; [reflexivity|].
  cbn [List.map]. rewrite multiply_sum_cons, IH. reflexivity.
Qed.

Lemma rsum_nonneg (l : list R) : Forall (fun x => 0 <= x) l -> 0 <= rsum l.
Proof.
  induction 1 as [|x l Hx _ IH]; simpl; [apply Rle_refl|]. lra.
Qed.

Lemma rsum_pos_iff (l : list R) :
  Forall (fun x => 0 <= x) l -> (0 < rsum l <-> exists x, In x l /\ 0 < x).
Proof.
  induction 1 as [|x l Hx Hl IH]; simpl.
  - split; [lra|intros (x & [] & _)].
  - pose proof (rsum_nonneg l Hl) as Hs. split.
    + intros Hpos. destruct (Rlt_dec 0 x) as [H0|H0].
      * exists x. split; [left; reflexivity|exact H0].
      * assert (0 < rsum l) as H1 by lra.
        apply IH in H1. destruct H1 as (y & Hy & Hy0).
        exists y. split; [right; exact Hy|exact Hy0].
    + intros (y & [<-|Hy] & Hy0); [lra|].
      assert (0 < rsum l) by (apply IH; exists y; split; assumption). lra.
Qed.
End CosineDirection.

Lemma cos_similarities_map (a : list R) (B : list (list R)) :
  cos_similarities a B = List.map (cosine a) B.
Proof.
  apply List.nth_error_ext. intros i.
  rewrite cos_similarities_nth, List.nth_error_map. reflexivity.
Qed.

Lemma corpus_cos_similarities_eq (doc0 : string) (rest : list string) :
  analyze doc0 <> [] ->
  let f := learned (doc0 :: rest) in
  corpus_cos_similarities (doc0 :: rest)
  = Ok (List.map (fun doc => cosine (tfidf_row f doc0) (tfidf_row f doc))
                 (doc0 :: rest)).
Proof.
  intros Hne f.
  destruct (analyze doc0) as [|t toks] eqn:Htoks; [contradiction|].
  unfold corpus_cos_similarities, tf_idf_sparse.
  rewrite (fit_ok (doc0 :: rest) doc0 t);
    [|left; reflexivity|rewrite Htoks; left; reflexivity].
  unfold bind, transform. cbn [state]. fold f.
  change (getrow (List.map (tfidf_row f) (doc0 :: rest)) 0)
    with (Ok (tfidf_row f doc0)).
  cbv iota beta. rewrite cos_similarities_map, List.map_map. reflexivity.
Qed.

(** The dot product of the rows of two messages is positive exactly when
    they share a token. *)
Lemma dot_rows_shared_token (raw_documents : list string) (d1 d2 : string) :
  In d1 raw_documents ->
  let f := learned raw_documents in
  (0 <= multiply_sum (tfidf_row f d1) (tfidf_row f d2))%R
  /\ ((0 < multiply_sum (tfidf_row f d1) (tfidf_row f d2))%R
      <-> exists t, In t (analyze d1) /\ In t (analyze d2)).
Proof.
  intros Hd1 f. unfold f. rewrite !tfidf_row_learned, multiply_sum_map.
  set (n := length (List.map analyze raw_documents)).
  set (w := fun t => smooth_idf n (doc_freq t (List.map analyze raw_documents))).
  set (c1 := fun t => INR (count_occ String.string_dec (analyze d1) t)).
  set (c2 := fun t => INR (count_occ String.string_dec (analyze d2) t)).
  assert (forall t, (0 < w t)%R) as Hw
      by (intros t; apply smooth_idf_pos, doc_freq_le).
  assert (forall t, (0 <= c1 t)%R) as Hc1 by (intros t; apply pos_INR).
  assert (forall t, (0 <= c2 t)%R) as Hc2 by (intros t; apply pos_INR).
  assert (Forall (fun x => (0 <= x)%R)
            (List.map (fun t => (c1 t * w t * (c2 t * w t))%R)
                      (vocabulary_ (learned raw_documents)))) as Hall.
  { apply List.Forall_forall. intros x Hx. apply in_map_iff in Hx.
    destruct Hx as (t & <- & _). specialize (Hw t).
    repeat apply Rmult_le_pos; auto; lra. }
  split; [apply rsum_nonneg; exact Hall|].
  etransitivity; [exact (rsum_pos_iff _ Hall)|]. split.
  - intros (x & Hx & Hpos). apply in_map_iff in Hx.
    destruct Hx as (t & <- & _). exists t.
    assert (c1 t <> 0 /\ c2 t <> 0)%R as [H1 H2].
    { split; intros E; rewrite E in Hpos; lra. }
    split; apply (count_occ_In String.string_dec), Nat.neq_0_lt_0;
      intros E; [apply H1|apply H2]; unfold c1, c2; rewrite E; reflexivity.
  - intros (t & Ht1 & Ht2).
    exists (c1 t * w t * (c2 t * w t))%R. split.
    + apply (in_map (fun t => (c1 t * w t * (c2 t * w t))%R)).
      apply In_vocabulary with d1; assumption.
    + assert (0 < c1 t)%R
        by (apply lt_0_INR, (count_occ_In String.string_dec); exact Ht1).
      assert (0 < c2 t)%R
        by (apply lt_0_INR, (count_occ_In String.string_dec); exact Ht2).
      specialize (Hw t). repeat apply Rmult_lt_0_compat; assumption.
Qed.

(** X9. For a corpus of ASCII messages in which message 0 has a token,
    the corpus-wide cell gives one similarity per message; for a message
    with a token it is a real number between 0 and 1, and it is positive
    exactly when the message shares a token with message 0.  (Real
    arithmetic.) *)
Theorem corpus_similarities_range (doc0 : string) (rest : list string) :
  Forall ascii_text (doc0 :: rest) ->
  analyze doc0 <> [] ->
  exists sims,
    corpus_cos_similarities (doc0 :: rest) = Ok sims
    /\ length sims = length (doc0 :: rest)
    /\ forall i doc,
         nth_error (doc0 :: rest) i = Some doc -> analyze doc <> [] ->
         exists c,
           nth_error sims i = Some (Finite c)
           /\ (0 <= c <= 1)%R
           /\ ((0 < c)%R <-> exists t, In t (analyze doc0) /\ In t (analyze doc)).
Proof.
  intros _ Hne. pose proof (corpus_cos_similarities_eq doc0 rest Hne) as Hs.
  cbv zeta in Hs. set (f := learned (doc0 :: rest)) in *.
  eexists. split; [exact Hs|]. split; [apply List.length_map|].
  intros i doc Hi Hdoc.
  assert (In doc0 (doc0 :: rest)) as Hin0 by (left; reflexivity).
  assert (In doc (doc0 :: rest)) as Hin by (eapply nth_error_In; exact Hi).
  pose proof (tfidf_row_some_token _ _ Hin0 Hne) as Ha.
  pose proof (tfidf_row_some_token _ _ Hin Hdoc) as Hb.
  fold f in Ha, Hb.
  destruct (dot_rows_shared_token (doc0 :: rest) doc0 doc Hin0) as [Hdot Hshare].
  fold f in Hdot, Hshare.
  set (a := tfidf_row f doc0) in *. set (b := tfidf_row f doc) in *.
  assert (0 < vec_len a * vec_len b)%R as Hden
      by (apply Rmult_lt_0_compat; assumption).
  exists (multiply_sum a b / (vec_len a * vec_len b))%R.
  split; [|split; [split|]].
  - rewrite List.nth_error_map, Hi. simpl. f_equal. unfold cosine.
    apply np_div_nonzero. lra.
  - apply Rmult_le_pos; [exact Hdot|]. left. apply Rinv_0_lt_compat, Hden.
  - apply Rmult_le_reg_r with (vec_len a * vec_len b)%R; [exact Hden|].
    unfold Rdiv. rewrite Rmult_assoc, Rinv_l by lra.
    rewrite Rmult_1_r, Rmult_1_l. apply dot_le_lens.
  - rewrite <- Hshare. split.
    + intros Hc. apply Rmult_lt_reg_r with (/ (vec_len a * vec_len b))%R;
        [apply Rinv_0_lt_compat, Hden|]. rewrite Rmult_0_l. exact Hc.
    + intros Hd. apply Rmult_lt_0_compat; [exact Hd|].
      apply Rinv_0_lt_compat, Hden.
Qed.

Lemma corpus_similarities_range_witness :
  exists sims c,
    corpus_cos_similarities ["go home now"; "home alone"; "42 ok"]%string
    = Ok sims
    /\ nth_error sims 1 = Some (Finite c) /\ (0 < c <= 1)%R.
Proof.
  destruct (corpus_similarities_range "go home now"%string
              ["home alone"; "42 ok"]%string) as (sims & Hs & _ & H).
  - repeat constructor.
  - vm_compute. discriminate.
  - destruct (H 1%nat "home alone"%string eq_refl) as (c & Hc & [_ H1] & Hpos).
    + vm_compute. discriminate.
    + exists sims, c. split; [exact Hs|]. split; [exact Hc|].
      split; [|exact H1]. apply Hpos. exists "home"%string.
      vm_compute. tauto.
Defined.

(* ===================================================================== *)
(** * Further properties: 10.2, fitting and transforming *)
(* ===================================================================== *)

Lemma insert_sorted_perm (t : string) (l : list string) :
  Permutation (insert_sorted t l) (t :: l).
Proof.
  induction l as [|u l IH]; simpl; [reflexivity|].
  destruct (String.leb t u); [reflexivity|].
  rewrite IH. apply perm_swap.
Qed.

Lemma sorted_perm (l : list string) : Permutation (sorted l) l.
Proof.
  unfold sorted. induction l as [|t l IH]; simpl; [reflexivity|].
  rewrite insert_sorted_perm. apply perm_skip, IH.
Qed.

Lemma insert_sorted_Sorted (t : string) (l : list string) :
  Sorted leb_true l -> Sorted leb_true (insert_sorted t l).
Proof.
  induction l as [|u l IH]; intros Hs; simpl.
  - repeat constructor.
  - destruct (String.leb t u) eqn:E.
    + constructor; [exact Hs|]. constructor. exact E.
    + inversion Hs as [|? ? Hs' Hhd]; subst.
      constructor; [apply IH, Hs'|].
      assert (leb_true u t) as Hut.
      { destruct (String.leb_total t u) as [H|H]; [congruence|exact H]. }
      destruct l as [|v l]; simpl; [constructor; exact Hut|].
      destruct (String.leb t v); constructor; [exact Hut|].
      inversion Hhd; assumption.
Qed.

Lemma sorted_Sorted (l : list string) : Sorted leb_true (sorted l).
Proof.
  unfold sorted. induction l as [|t l IH]; simpl; [constructor|].
  apply insert_sorted_Sorted, IH.
Qed.

Lemma vocabulary_tokens (raw_documents : list string) (t : string) :
  In t (vocabulary_ (learned raw_documents))
  <-> exists doc, In doc raw_documents /\ In t (analyze doc).
Proof.
  simpl. rewrite In_sorted, nodup_In, in_concat. split.
  - intros (toks & Htoks & Ht). apply in_map_iff in Htoks.
    destruct Htoks as (doc & <- & Hdoc). exists doc. split; assumption.
  - intros (doc & Hdoc & Ht). exists (analyze doc).
    split; [apply in_map; exact Hdoc|exact Ht].
Qed.

Lemma tfidf_row_nonneg (raw_documents : list string) (doc : string) :
  Forall (fun x => (0 <= x)%R) (tfidf_row (learned raw_documents) doc).
Proof.
  rewrite tfidf_row_learned. apply List.Forall_forall. intros x Hx.
  apply in_map_iff in Hx. destruct Hx as (t & <- & _).
  apply Rmult_le_pos; [apply pos_INR|].
  left. apply smooth_idf_pos, doc_freq_le.
Qed.

(** X10. On ASCII messages, [vec.fit] raises [ValueError] exactly when no
    message has a token.  Otherwise the vocabulary it learns is in
    ascending order, without duplicates, and holds exactly the tokens of
    the messages, with one weight per term; and [vec.transform] then
    returns, for any list of ASCII texts, one row per text with one
    non-negative entry per term. *)
Theorem fit_then_transform (raw_documents : list string) :
  Forall ascii_text raw_documents ->
  (fit raw_documents = Raise ValueError
   <-> forall doc, In doc raw_documents -> analyze doc = [])
  /\ forall vec, fit raw_documents = Ok vec ->
       exists f,
         state vec = Some f
         /\ Sorted leb_true (vocabulary_ f)
         /\ List.NoDup (vocabulary_ f)
         /\ (forall t, In t (vocabulary_ f)
                       <-> exists doc, In doc raw_documents /\ In t (analyze doc))
         /\ length (idf_ f) = length (vocabulary_ f)
         /\ forall texts, Forall ascii_text texts -> exists M,
              transform vec texts = Ok M
              /\ length M = length texts
              /\ Forall (fun row => length row = length (vocabulary_ f)
                                    /\ Forall (fun x => (0 <= x)%R) row) M.
Proof.
  intros _. split.
  - unfold fit. split.
    + intros Hfit doc Hdoc.
      destruct (vocabulary_ (learned raw_documents)) as [|v vs] eqn:Hv;
        [|discriminate].
      destruct (analyze doc) as [|t toks] eqn:Htoks; [reflexivity|exfalso].
      assert (In t (vocabulary_ (learned raw_documents))) as Hin.
      { apply vocabulary_tokens. exists doc. split; [exact Hdoc|].
        rewrite Htoks. left. reflexivity. }
      rewrite Hv in Hin. contradiction.
    + intros Hall.
      destruct (vocabulary_ (learned raw_documents)) as [|v vs] eqn:Hv;
        [reflexivity|exfalso].
      assert (In v (vocabulary_ (learned raw_documents))) as Hin
          by (rewrite Hv; left; reflexivity).
      apply vocabulary_tokens in Hin. destruct Hin as (doc & Hdoc & Ht).
      rewrite (Hall doc Hdoc) in Ht. contradiction.
  - intros vec Hfit. apply fit_inv in Hfit.
    exists (learned raw_documents).
    split; [exact Hfit|]. split; [apply sorted_Sorted|]. split.
    { simpl. apply (Permutation_NoDup (Permutation_sym (sorted_perm _))).
      apply List.NoDup_nodup. }
    split; [apply vocabulary_tokens|]. split; [apply List.length_map|].
    intros texts _. unfold transform. rewrite Hfit.
    eexists. split; [reflexivity|]. split; [apply List.length_map|].
    apply List.Forall_forall. intros row Hrow. apply in_map_iff in Hrow.
    destruct Hrow as (doc & <- & _). split; [|apply tfidf_row_nonneg].
    rewrite tfidf_row_learned. apply List.length_map.
Qed.

Lemma fit_then_transform_witness :
  fit [":-)"; "?"; ""]%string = Raise ValueError
  /\ exists vec f,
       fit ["Ok lar"; "joking wif u oni"]%string = Ok vec
       /\ state vec = Some f
       /\ vocabulary_ f = ["joking"; "lar"; "ok"; "oni"; "wif"]%string.
Proof.
  split.
  - apply (proj1 (fit_then_transform [":-)"; "?"; ""]%string
                    ltac:(repeat constructor))).
    intros doc [<-|[<-|[<-|[]]]]; vm_compute; reflexivity.
  - assert (fit ["Ok lar"; "joking wif u oni"]%string
            = Ok {| state := Some (learned ["Ok lar"; "joking wif u oni"]%string) |})
      as Hfit.
    { apply (fit_ok _ "Ok lar"%string "ok"%string);
        [left; reflexivity|vm_compute; tauto]. }
    destruct (proj2 (fit_then_transform ["Ok lar"; "joking wif u oni"]%string
                       ltac:(repeat constructor))
                _ Hfit) as (f & Hf & _).
    eexists. exists f. split; [exact Hfit|]. split; [exact Hf|].
    simpl in Hf. injection Hf as <-. vm_compute. reflexivity.
Defined.

(** X11. On ASCII text, tokens of a new text that are not in the fitted
    vocabulary are ignored: the row [vec.transform] gives a text is all
    zeros exactly when none of its tokens is in the vocabulary, and the
    similarity of such a row to any vector is NaN. *)
Theorem transform_unseen_tokens (raw_documents : list string) (new_text : string) :
  Forall ascii_text raw_documents -> ascii_text new_text ->
  let f := learned raw_documents in
  (Forall (fun x => x = 0%R) (tfidf_row f new_text)
   <-> forall t, In t (analyze new_text) -> ~ In t (vocabulary_ f))
  /\ ((forall t, In t (analyze new_text) -> ~ In t (vocabulary_ f)) ->
      forall b, cosine (tfidf_row f new_text) b = NaN).
Proof.
  intros _ _ f.
  assert (Forall (fun x => x = 0%R) (tfidf_row f new_text)
          <-> forall t, In t (analyze new_text) -> ~ In t (vocabulary_ f)) as Hz.
  { unfold f. rewrite tfidf_row_learned, List.Forall_forall. split.
    - intros Hall t Ht Hv.
      specialize (Hall _ (in_map _ _ _ Hv)). simpl in Hall.
      apply Rmult_integral in Hall. destruct Hall as [Hc|Hw].
      + apply (count_occ_In String.string_dec) in Ht.
        apply lt_0_INR in Ht. lra.
      + pose proof (smooth_idf_pos
                      (length (List.map analyze raw_documents))
                      (doc_freq t (List.map analyze raw_documents))
                      (doc_freq_le _ _)). lra.
    - intros Hun x Hx. apply in_map_iff in Hx. destruct Hx as (t & <- & Hv).
      rewrite (proj1 (count_occ_not_In String.string_dec _ t)).
      + apply Rmult_0_l.
      + intros Ht. exact (Hun t Ht Hv). }
  split; [exact Hz|].
  intros Hun b. apply cosine_zero_len.
  rewrite (proj2 (vec_len_zero _) (proj2 Hz Hun)). apply Rmult_0_l.
Qed.

Lemma transform_unseen_tokens_witness :
  cosine (tfidf_row (learned ["Ok lar"; "joking wif u oni"]%string)
            "free cash"%string)
         [1%R; 2%R; 3%R; 4%R; 5%R]
  = NaN.
Proof.
  apply (proj2 (transform_unseen_tokens
                  ["Ok lar"; "joking wif u oni"]%string "free cash"%string
                  ltac:(repeat constructor) ltac:(reflexivity))).
  intros t Ht Hv. vm_compute in Ht, Hv.
  destruct Ht as [<-|[<-|[]]];
    repeat (destruct Hv as [Hv|Hv]; [discriminate Hv|]); exact Hv.
Defined.

(* ===================================================================== *)
(** * Further properties: 10.2, the ranking *)
(* ===================================================================== *)

Lemma desc_before_refl (x : npfloat R) : desc_before x x = true.
Proof.
  destruct x; simpl; try reflexivity.
  destruct (Rle_dec x x) as [_|H]; [reflexivity|]. exfalso. apply H, Rle_refl.
Qed.

Lemma desc_before_total (x y : npfloat R) :
  desc_before x y = false -> desc_before y x = true.
Proof.
  destruct x as [a| | |], y as [b| | |]; simpl; try reflexivity;
    try discriminate.
  destruct (Rle_dec b a) as [H|H]; [discriminate|]. intros _.
  destruct (Rle_dec a b) as [_|H']; [reflexivity|]. exfalso. lra.
Qed.

Lemma desc_before_trans (x y z : npfloat R) :
  desc_before x y = true -> desc_before y z = true -> desc_before x z = true.
Proof.
  destruct x as [a| | |], y as [b| | |], z as [c| | |]; simpl;
    try reflexivity; try discriminate.
  destruct (Rle_dec b a), (Rle_dec c b), (Rle_dec c a);
    try reflexivity; try discriminate. exfalso. lra.
Qed.

Lemma insert_desc_perm (e : nat * npfloat R) (s : list (nat * npfloat R)) :
  Permutation (insert_desc e s) (e :: s).
Proof.
  induction s as [|e' s IH]; simpl; [reflexivity|].
  destruct (desc_before (snd e) (snd e')); [reflexivity|].
  rewrite IH. apply perm_swap.
Qed.

Lemma sort_values_desc_perm (s : list (nat * npfloat R)) :
  Permutation (sort_values_desc s) s.
Proof.
  induction s as [|e s IH]; simpl; [reflexivity|].
  rewrite insert_desc_perm. apply perm_skip, IH.
Qed.

Lemma insert_desc_sorted (e : nat * npfloat R) (s : list (nat * npfloat R)) :
  StronglySorted ranked_before s -> StronglySorted ranked_before (insert_desc e s).
Proof.
  induction s as [|e' s IH]; intros Hs; simpl.
  - constructor; constructor.
  - inversion Hs as [|? ? Hs' Hall]; subst.
    destruct (desc_before (snd e) (snd e')) eqn:E.
    + constructor; [exact Hs|]. constructor; [exact E|].
      eapply List.Forall_impl; [|exact Hall].
      intros x Hx. unfold ranked_before in *.
      eapply desc_before_trans; eassumption.
    + constructor; [apply IH, Hs'|].
      apply List.Forall_forall. intros x Hx.
      apply (Permutation_in _ (insert_desc_perm e s)) in Hx.
      destruct Hx as [<-|Hx]; [apply desc_before_total, E|].
      rewrite List.Forall_forall in Hall. apply Hall, Hx.
Qed.

Lemma sort_values_desc_sorted (s : list (nat * npfloat R)) :
  StronglySorted ranked_before (sort_values_desc s).
Proof.
  induction s as [|e s IH]; simpl; [constructor|].
  apply insert_desc_sorted, IH.
Qed.

Lemma StronglySorted_nth_error {A} (R : A -> A -> Prop) (l : list A) :
  StronglySorted R l ->
  forall i j x y, (i < j)%nat ->
    nth_error l i = Some x -> nth_error l j = Some y -> R x y.
Proof.
  induction 1 as [|a l Hs IH Hall]; intros i j x y Hij Hx Hy.
  - destruct i; discriminate.
  - destruct j as [|j]; [lia|]. simpl in Hy. destruct i as [|i].
    + simpl in Hx. injection Hx as <-.
      rewrite List.Forall_forall in Hall. eapply Hall, nth_error_In, Hy.
    + simpl in Hx. apply (IH i j); [lia|assumption|assumption].
Qed.

Lemma In_combine_seq_from {A} (l : list A) (k i : nat) (v : A) :
  In (i, v) (combine (seq k (length l)) l)
  <-> (k <= i)%nat /\ nth_error l (i - k) = Some v.
Proof.
  revert k. induction l as [|x l IH]; intros k; simpl.
  - split; [contradiction|]. intros [_ H]. destruct (i - k)%nat; discriminate.
  - rewrite IH. split.
    + intros [E|[Hk Hn]].
      * injection E as <- <-. rewrite Nat.sub_diag. split; [lia|reflexivity].
      * split; [lia|]. replace (i - k)%nat with (S (i - S k)) by lia. exact Hn.
    + intros [Hk Hn]. destruct (Nat.eq_dec k i) as [->|Hne].
      * left. rewrite Nat.sub_diag in Hn. simpl in Hn. congruence.
      * right. split; [lia|].
        replace (i - k)%nat with (S (i - S k)) in Hn by lia. exact Hn.
Qed.

Lemma In_combine_seq {A} (l : list A) (k i : nat) (v : A) :
  k = 0%nat ->
  (In (i, v) (combine (seq k (length l)) l) <-> nth_error l i = Some v).
Proof.
  intros ->. rewrite In_combine_seq_from, Nat.sub_0_r. split; [tauto|].
  intros H. split; [lia|exact H].
Qed.

(** X12. The ranking [most_similar] is a rearrangement of the similarities
    with their message numbers, in descending order with the NaN entries
    last: of two entries, the earlier one has the larger (or equal) value,
    and nothing but NaN follows a NaN. *)
Theorem most_similar_ranking (sims : list (npfloat R)) :
  Permutation (most_similar sims) (combine (seq 0 (length sims)) sims)
  /\ (forall i v, In (i, v) (most_similar sims) <-> nth_error sims i = Some v)
  /\ (forall i j mi mj a b, (i <= j)%nat ->
        nth_error (most_similar sims) i = Some (mi, Finite a) ->
        nth_error (most_similar sims) j = Some (mj, Finite b) ->
        (b <= a)%R)
  /\ (forall i j mi mj v, (i <= j)%nat ->
        nth_error (most_similar sims) i = Some (mi, NaN) ->
        nth_error (most_similar sims) j = Some (mj, v) ->
        v = NaN).
Proof.
  pose proof (sort_values_desc_perm (combine (seq 0 (length sims)) sims)) as HP.
  pose proof (sort_values_desc_sorted (combine (seq 0 (length sims)) sims)) as HS.
  fold (most_similar sims) in HP, HS.
  assert (forall i j x y, (i <= j)%nat ->
            nth_error (most_similar sims) i = Some x ->
            nth_error (most_similar sims) j = Some y ->
            desc_before (snd x) (snd y) = true) as Hord.
  { intros i j x y Hij Hx Hy. destruct (Nat.eq_dec i j) as [->|Hne].
    - rewrite Hx in Hy. injection Hy as <-. apply desc_before_refl.
    - apply (StronglySorted_nth_error _ _ HS i j); [lia|assumption|assumption]. }
  split; [exact HP|]. split; [|split].
  - intros i v. rewrite <- (In_combine_seq sims 0 i v) by reflexivity.
    split; [apply (Permutation_in _ HP)|].
    apply (Permutation_in _ (Permutation_sym HP)).
  - intros i j mi mj a b Hij Hi Hj.
    specialize (Hord i j _ _ Hij Hi Hj). simpl in Hord.
    destruct (Rle_dec b a); [assumption|discriminate].
  - intros i j mi mj v Hij Hi Hj.
    specialize (Hord i j _ _ Hij Hi Hj). simpl in Hord.
    destruct v; [discriminate|discriminate|discriminate|reflexivity].
Qed.

Lemma most_similar_ranking_witness :
  In (1%nat, Finite 1%R) (most_similar [NaN; Finite 1%R])
  /\ (1 <= 1)%R.
Proof.
  destruct (most_similar_ranking [NaN; Finite 1%R]) as (_ & Hin & Hord & _).
  split.
  - apply Hin. reflexivity.
  - apply (Hord 0%nat 0%nat 1%nat 1%nat 1%R 1%R); [lia| |]; reflexivity.
Defined.

Lemma StronglySorted_hd {A} (R : A -> A -> Prop) (x : A) (l : list A) :
  StronglySorted R (x :: l) -> (forall y, R y y) ->
  forall y, In y (x :: l) -> R x y.
Proof.
  intros Hs Hrefl y [<-|Hy]; [apply Hrefl|].
  inversion Hs as [|? ? _ Hall]. rewrite List.Forall_forall in Hall.
  apply Hall, Hy.
Qed.

Lemma cosine_NaN_or_le_1 (a b : list R) :
  vec_len a <> 0%R ->
  cosine a b = NaN \/ exists c, cosine a b = Finite c /\ (c <= 1)%R.
Proof.
  intros Ha. destruct (Req_dec (vec_len b) 0) as [Hb|Hb].
  - left. apply cosine_zero_len. rewrite Hb. apply Rmult_0_r.
  - right. apply cosine_le_1; assumption.
Qed.

(** X13. For a corpus of ASCII messages in which message 0 has a token,
    the ranking of the corpus has one entry per message, its first entry
    has similarity 1, message 0 is among the entries with similarity 1,
    and an entry is NaN exactly when its message has no token.  (Real
    arithmetic.) *)
Theorem corpus_ranking_top (doc0 : string) (rest : list string) :
  Forall ascii_text (doc0 :: rest) ->
  analyze doc0 <> [] ->
  exists ranking,
    corpus_most_similar (doc0 :: rest) = Ok ranking
    /\ length ranking = length (doc0 :: rest)
    /\ (exists m, nth_error ranking 0 = Some (m, Finite 1%R))
    /\ In (0%nat, Finite 1%R) ranking
    /\ (forall m v doc,
          In (m, v) ranking -> nth_error (doc0 :: rest) m = Some doc ->
          (v = NaN <-> analyze doc = [])).
Proof.
  intros _ Hne. pose proof (corpus_cos_similarities_eq doc0 rest Hne) as Hs.
  cbv zeta in Hs. set (f := learned (doc0 :: rest)) in *.
  set (a := tfidf_row f doc0) in *.
  set (sims := List.map (fun doc => cosine a (tfidf_row f doc)) (doc0 :: rest)) in *.
  assert (0 < vec_len a)%R as Ha
      by (apply tfidf_row_some_token; [left; reflexivity|exact Hne]).
  assert (vec_len a <> 0%R) as Ha0 by lra.
  pose proof (sort_values_desc_perm (combine (seq 0 (length sims)) sims)) as HP.
  pose proof (sort_values_desc_sorted (combine (seq 0 (length sims)) sims)) as HS.
  fold (most_similar sims) in HP, HS.
  assert (forall m v, In (m, v) (most_similar sims) <-> nth_error sims m = Some v)
    as Hin.
  { intros m v. rewrite <- (In_combine_seq sims 0 m v) by reflexivity.
    split; [apply (Permutation_in _ HP)|].
    apply (Permutation_in _ (Permutation_sym HP)). }
  assert (In (0%nat, Finite 1%R) (most_similar sims)) as H0.
  { apply Hin. unfold sims. simpl. f_equal. apply cosine_self, Ha0. }
  exists (most_similar sims).
  split; [unfold corpus_most_similar; rewrite Hs; reflexivity|].
  split.
  { rewrite (Permutation_length HP), List.length_combine, List.length_seq.
    unfold sims. rewrite List.length_map. apply Nat.min_id. }
  split; [|split; [exact H0|]].
  - destruct (most_similar sims) as [|[m v] tl] eqn:E; [contradiction|].
    exists m. simpl. f_equal. f_equal.
    assert (desc_before v (Finite 1%R) = true) as Hbefore.
    { apply (StronglySorted_hd ranked_before (m, v) tl HS
               (fun e => desc_before_refl (snd e)) _ H0). }
    assert (nth_error sims m = Some v) as Hv
        by (apply Hin; left; reflexivity).
    unfold sims in Hv. rewrite List.nth_error_map in Hv.
    destruct (nth_error (doc0 :: rest) m) as [doc|]; [|discriminate].
    simpl in Hv. injection Hv as <-.
    destruct (cosine_NaN_or_le_1 a (tfidf_row f doc) Ha0) as [Hn|(c & Hc & Hle)].
    + rewrite Hn in Hbefore. discriminate.
    + rewrite Hc in Hbefore |- *. simpl in Hbefore.
      destruct (Rle_dec 1 c); [|discriminate]. f_equal. lra.
  - intros m v doc Hmv Hdoc. apply Hin in Hmv.
    unfold sims in Hmv. rewrite List.nth_error_map, Hdoc in Hmv.
    simpl in Hmv. injection Hmv as <-. split.
    + intros Hnan. destruct (analyze doc) as [|t ts] eqn:E; [reflexivity|exfalso].
      assert (analyze doc <> []) as E' by (rewrite E; discriminate).
      assert (In doc (doc0 :: rest)) as Hd by (eapply nth_error_In; exact Hdoc).
      pose proof (tfidf_row_some_token _ _ Hd E') as Hb. fold f in Hb.
      unfold cosine in Hnan. rewrite np_div_nonzero in Hnan; [discriminate|].
      apply Rmult_integral_contrapositive. split; lra.
    + intros E. apply cosine_zero_len.
      rewrite (tfidf_row_no_tokens f doc E). apply Rmult_0_r.
Qed.

Lemma corpus_ranking_top_witness :
  exists ranking m,
    corpus_most_similar ["go home now"; ":-)"; "home alone"]%string = Ok ranking
    /\ nth_error ranking 0 = Some (m, Finite 1%R)
    /\ In (0%nat, Finite 1%R) ranking.
Proof.
  destruct (corpus_ranking_top "go home now"%string [":-)"; "home alone"]%string)
    as (ranking & Hr & _ & (m & Hm) & H0 & _).
  - repeat constructor.
  - vm_compute. discriminate.
  - exists ranking, m. split; [exact Hr|]. split; [exact Hm|exact H0].
Defined.

(* ===================================================================== *)
(** * Further properties: 5.1 *)
(* ===================================================================== *)










Lemma squared_distance_rescale (k c : Z) (x row : list Z) :
  squared_distance (rescale k c x) (rescale k c row)
  = (k * k * squared_distance x row)%Z.
Proof.
  unfold rescale. revert x. induction row as [|a row IH]; intros [|b x];
    cbn [List.map squared_distance]; try lia.
  rewrite IH, !Z.pow_2_r. ring.
Qed.

Lemma combine_map_snd {A B C} (f : B -> C) (l : list A) (l' : list B) :
  combine l (List.map f l') = List.map (fun e => (fst e, f (snd e))) (combine l l').
Proof.
  revert l'. induction l as [|a l IH]; intros [|b l']; try reflexivity.
  simpl. rewrite IH. reflexivity.
Qed.

Lemma insert_by_value_scaled (K : Z) (e : nat * Z) (s : list (nat * Z)) :
  (0 < K)%Z ->
  insert_by_value (fst e, (K * snd e)%Z)
                  (List.map (fun e => (fst e, (K * snd e)%Z)) s)
  = List.map (fun e => (fst e, (K * snd e)%Z)) (insert_by_value e s).
Proof.
  intros HK. induction s as [|e' s IH]; [reflexivity|].
  cbn [List.map insert_by_value snd fst].
  replace (K * snd e <=? K * snd e')%Z with (snd e <=? snd e')%Z.
  - destruct (snd e <=? snd e')%Z; [reflexivity|].
    cbn [List.map fst snd]. rewrite IH. reflexivity.
  - destruct (Z.leb_spec (snd e) (snd e')), (Z.leb_spec (K * snd e) (K * snd e'));
      try reflexivity; exfalso; nia.
Qed.

Lemma sort_values_scaled (K : Z) (s : list (nat * Z)) :
  (0 < K)%Z ->
  sort_values (List.map (fun e => (fst e, (K * snd e)%Z)) s)
  = List.map (fun e => (fst e, (K * snd e)%Z)) (sort_values s).
Proof.
  intros HK. induction s as [|e s IH]; [reflexivity|].
  cbn [List.map]. unfold sort_values in *. cbn [fold_right].
  rewrite IH. apply insert_by_value_scaled. exact HK.
Qed.

(** X16. The prediction does not depend on the unit the features are
    measured in, as long as the data fit [int64] before and after the
    change of unit: multiplying every feature of the training rows and of
    the query by the same non-zero integer and adding the same offset then
    selects the same neighbours and gives the same prediction. *)
Theorem prediction_unit_invariant (k c : Z) (g : training_data) (x_new : list Z) :
  k <> 0%Z ->
  fits_int64 (X_train g) x_new ->
  fits_int64 (X_train (rescale_data k c g)) (rescale k c x_new) ->
  inds_sorted (X_train (rescale_data k c g)) (rescale k c x_new)
  = inds_sorted (X_train g) x_new
  /\ get_30NN_prediction (rescale_data k c g) (rescale k c x_new)
     = get_30NN_prediction g x_new.
Proof.
  intros Hk [_ Hfits] [_ Hfits']. cbn [rescale_data X_train] in Hfits'.
  rewrite List.Forall_forall in Hfits, Hfits'.
  assert (inds_sorted (X_train (rescale_data k c g)) (rescale k c x_new)
          = inds_sorted (X_train g) x_new) as Hinds.
  { unfold inds_sorted, rescale_data, dists. cbn [X_train]. f_equal.
    rewrite List.length_map, List.map_map.
    rewrite (List.map_ext_in _ (fun row => (k * k * sq_dist x_new row)%Z)).
    - rewrite <- (List.map_map (sq_dist x_new) (Z.mul (k * k))).
      rewrite combine_map_snd, sort_values_scaled by nia.
      unfold index. rewrite List.map_map. reflexivity.
    - intros row Hrow.
      rewrite (sq_dist_exact _ _
                 (proj2 (Hfits' _ (in_map (rescale k c) _ _ Hrow)))).
      rewrite (sq_dist_exact _ _ (proj2 (Hfits _ Hrow))).
      apply squared_distance_rescale. }
  split; [exact Hinds|].
  unfold get_30NN_prediction. rewrite Hinds. reflexivity.
Qed.

Lemma prediction_unit_invariant_witness :
  get_30NN_prediction (rescale_data 144 0 line_of_houses) (rescale 144 0 [7%Z])
  = get_30NN_prediction line_of_houses [7%Z].
Proof.
  apply (proj2 (prediction_unit_invariant 144 0 line_of_houses [7%Z]
                  ltac:(discriminate)
                  ltac:(apply fits_int64b_sound; vm_compute; reflexivity)
                  ltac:(apply fits_int64b_sound; vm_compute; reflexivity))).
Defined.

Section Standardize.
Local Open Scope R_scope.

Lemma rsum_map_sub_const (mu : R) (l : list R) :
  rsum (List.map (fun x => x - mu) l) = rsum l - INR (length l) * mu.
Proof.
  induction l as [|x l IH]; [simpl; ring|].
  cbn [List.map rsum fold_right]. fold (rsum (List.map (fun x => x - mu) l)).
  fold (rsum l). rewrite IH. change (length (x :: l)) with (S (length l)).
  rewrite S_INR. ring.
Qed.

Lemma rsum_map_mul_r {A} (f : A -> R) (c : R) (l : list A) :
  rsum (List.map (fun x => f x * c) l) = rsum (List.map f l) * c.
Proof.
  induction l as [|x l IH]; [simpl; ring|].
  cbn [List.map rsum fold_right].
  fold (rsum (List.map (fun x => f x * c) l)). fold (rsum (List.map f l)).
  rewrite IH. ring.
Qed.

Lemma squares_nonneg (mu : R) (l : list R) :
  Forall (fun x => 0 <= x) (List.map (fun x => (x - mu) * (x - mu)) l).
Proof.
  apply List.Forall_forall. intros y Hy. apply in_map_iff in Hy.
  destruct Hy as (x & <- & _). pose proof (Rle_0_sqr (x - mu)) as H.
  unfold Rsqr in H. exact H.
Qed.

Lemma series_std_inv (col : list R) (sd : R) :
  series_std col = Finite sd ->
  (2 <= length col)%nat
  /\ sd = sqrt (rsum (List.map (fun x => (x - rsum col / INR (length col))
                                         * (x - rsum col / INR (length col))) col)
                / INR (length col - 1)).
Proof.
  destruct col as [|a [|b rest]]; try discriminate.
  intros H. injection H as <-. split; [simpl; lia|reflexivity].
Qed.

Lemma series_mean_cons (col : list R) :
  (1 <= length col)%nat -> series_mean col = Finite (rsum col / INR (length col)).
Proof. destruct col; [simpl; lia|reflexivity]. Qed.

Lemma series_std_cons (col : list R) :
  (2 <= length col)%nat ->
  series_std col
  = Finite (sqrt (rsum (List.map (fun x => (x - rsum col / INR (length col))
                                           * (x - rsum col / INR (length col))) col)
                  / INR (length col - 1))).
Proof. destruct col as [|a [|b rest]]; simpl; try lia. reflexivity. Qed.

(** X17. Standardising a feature column as the first walkthrough does, with
    the column's mean and sample standard deviation, gives a column of mean
    0 and standard deviation 1, provided the deviation is not zero.  A
    column with fewer than two rows, or whose values are all equal, becomes
    all NaN.  (Real arithmetic.) *)
Theorem standardize_mean_0_std_1 (col : list R) :
  (forall sd, series_std col = Finite sd -> sd <> 0 ->
     exists zs,
       standardize col = List.map Finite zs
       /\ length zs = length col
       /\ series_mean zs = Finite 0
       /\ series_std zs = Finite 1)
  /\ ((length col < 2)%nat \/ series_std col = Finite 0 ->
      standardize col = List.map (fun _ => NaN) col).
Proof.
  split.
  - intros sd Hstd Hsd. destruct (series_std_inv col sd Hstd) as [Hn Heq].
    set (n := length col) in *. set (mu := rsum col / INR n) in *.
    set (S := rsum (List.map (fun x => (x - mu) * (x - mu)) col)) in *.
    assert (0 < INR n) as HnR by (apply lt_0_INR; lia).
    assert (0 < INR (n - 1)) as Hn1R by (apply lt_0_INR; lia).
    assert (0 <= S) as HS by (apply rsum_nonneg, squares_nonneg).
    assert (sd * sd = S / INR (n - 1)) as Hsd2.
    { rewrite Heq. apply sqrt_sqrt. apply Rmult_le_pos; [exact HS|].
      left. apply Rinv_0_lt_compat, Hn1R. }
    exists (List.map (fun x => (x - mu) * / sd) col).
    assert (length (List.map (fun x => (x - mu) * / sd) col) = n) as Hlen
        by apply List.length_map.
    assert (rsum (List.map (fun x => (x - mu) * / sd) col) = 0) as Hsum.
    { rewrite (rsum_map_mul_r (fun x => x - mu)), rsum_map_sub_const.
      fold n. unfold mu. field. split; lra. }
    split; [|split; [exact Hlen|split]].
    + unfold standardize. rewrite series_mean_cons by (fold n; lia).
      rewrite Hstd. fold n mu. rewrite List.map_map.
      apply List.map_ext. intros x. apply np_div_nonzero. exact Hsd.
    + rewrite series_mean_cons by (rewrite Hlen; lia).
      rewrite Hsum, Hlen. f_equal. unfold Rdiv. apply Rmult_0_l.
    + rewrite series_std_cons by (rewrite Hlen; lia).
      rewrite Hsum, Hlen. f_equal. rewrite List.map_map.
      rewrite (List.map_ext _ (fun x => (x - mu) * (x - mu) * (/ sd * / sd)))
        by (intros x; unfold Rdiv; ring).
      rewrite rsum_map_mul_r. fold S.
      replace (S * (/ sd * / sd) / INR (n - 1)) with 1; [apply sqrt_1|].
      replace (S * (/ sd * / sd) / INR (n - 1))
        with ((S / INR (n - 1)) * / (sd * sd)) by (field; split; lra).
      rewrite <- Hsd2. field. exact Hsd.
  - intros [Hfew|Hzero].
    + unfold standardize.
      destruct col as [|a [|b rest]]; [reflexivity|reflexivity|simpl in Hfew; lia].
    + destruct (series_std_inv col 0 Hzero) as [Hn Heq].
      set (n := length col) in *. set (mu := rsum col / INR n) in *.
      set (S := rsum (List.map (fun x => (x - mu) * (x - mu)) col)) in *.
      assert (0 < INR (n - 1)) as Hn1R by (apply lt_0_INR; lia).
      assert (0 <= S) as HS by (apply rsum_nonneg, squares_nonneg).
      assert (S = 0) as HS0.
      { symmetry in Heq. apply sqrt_eq_0 in Heq.
        - apply Rmult_integral in Heq. destruct Heq as [H|H]; [exact H|].
          pose proof (Rinv_0_lt_compat _ Hn1R). lra.
        - apply Rmult_le_pos; [exact HS|]. left. apply Rinv_0_lt_compat, Hn1R. }
      unfold standardize. rewrite series_mean_cons by (fold n; lia).
      rewrite Hzero. fold n mu. apply List.map_ext_in. intros x Hx.
      assert (x - mu = 0) as ->; [|apply np_div_zero_zero].
      destruct (Req_dec (x - mu) 0) as [E|E]; [exact E|exfalso].
      assert (0 < S); [|lra].
      apply (rsum_pos_iff _ (squares_nonneg mu col)).
      exists ((x - mu) * (x - mu)). split.
      * apply (in_map (fun x => (x - mu) * (x - mu))). exact Hx.
      * pose proof (Rle_0_sqr (x - mu)) as H. unfold Rsqr in H.
        destruct H as [H|H]; [exact H|]. symmetry in H.
        apply Rmult_integral in H. destruct H; contradiction.
Qed.
End Standardize.

Lemma standardize_mean_0_std_1_witness :
  (exists zs,
     standardize [1%R; 3%R] = List.map Finite zs
     /\ series_mean zs = Finite 0%R /\ series_std zs = Finite 1%R)
  /\ standardize [1656%R] = [NaN].
Proof.
  split.
  - destruct (proj1 (standardize_mean_0_std_1 [1%R; 3%R]) _ eq_refl)
      as (zs & Hz & _ & Hm & Hs).
    + apply Rgt_not_eq, Rlt_gt, sqrt_lt_R0. simpl. lra.
    + exists zs. split; [exact Hz|]. split; [exact Hm|exact Hs].
  - apply (proj2 (standardize_mean_0_std_1 [1656%R])). left. simpl. lia.
Defined.

(* ===================================================================== *)
(** * Further properties: 5.4, the split *)
(* ===================================================================== *)

Lemma take_Ok_rows {row} (t : frame row) (locs : list nat) (train : frame row) :
  take t locs = Ok train ->
  Forall (fun i => (i < length t)%nat) locs
  /\ length train = length locs
  /\ forall r, In r train -> In r t.
Proof.
  revert train. induction locs as [|i locs IH]; intros train H; simpl in H.
  - injection H as <-. split; [constructor|]. split; [reflexivity|intros r []].
  - destruct (nth_error t i) as [r0|] eqn:Hi; [|discriminate].
    destruct (take t locs) as [rs|e]; [|discriminate].
    simpl in H. injection H as <-.
    destruct (IH rs eq_refl) as (Hr & Hl & Hin). split; [|split].
    + constructor; [|exact Hr]. apply nth_error_Some. rewrite Hi. discriminate.
    + simpl. congruence.
    + intros r [<-|Hrr]; [eapply nth_error_In; exact Hi|apply Hin, Hrr].
Qed.

Lemma take_out_of_range {row} (t : frame row) (locs : list nat) :
  Exists (fun i => (length t <= i)%nat) locs -> take t locs = Raise IndexError.
Proof.
  induction locs as [|i locs IH]; intros H; [inversion H|].
  simpl. destruct (nth_error t i) as [r|] eqn:Hi; [|reflexivity].
  inversion H as [? ? Hge|? ? Hrest]; subst.
  - exfalso. apply nth_error_None in Hge. rewrite Hi in Hge. discriminate.
  - rewrite (IH Hrest). reflexivity.
Qed.

(** X18. Whatever the generator draws and whatever the row labels are
    (repeated labels included), a split that succeeds never lets a label
    of [train] into [val], and both parts hold rows of the table only;
    every row of the table is in [val] or carries a label of [train].  The
    split fails only with [IndexError], when a drawn position is out of
    range; [drop] never raises [KeyError] here. *)
Theorem split_never_leaks {row} (rs_choice : nat -> nat -> list nat)
    (housing : frame row) :
  (forall train val,
     train_val_split rs_choice housing = Ok (train, val) ->
     (forall l, In l (labels_of train) -> ~ In l (labels_of val))
     /\ (forall r, In r train -> In r housing)
     /\ (forall r, In r val -> In r housing)
     /\ (forall r, In r housing -> In (fst r) (labels_of train) \/ In r val))
  /\ (forall e, train_val_split rs_choice housing = Raise e -> e = IndexError)
  /\ (Exists (fun i => (length housing <= i)%nat)
             (rs_choice (length housing) (half_rounded (length housing))) ->
      train_val_split rs_choice housing = Raise IndexError).
Proof.
  unfold train_val_split, sample. cbv zeta.
  set (locs := rs_choice (length housing) (half_rounded (length housing))).
  assert (forall train, take housing locs = Ok train ->
            drop (labels_of train) housing
            = Ok (List.filter
                    (fun r => negb (mem_label (fst r) (labels_of train)))
                    housing)) as Hdrop.
  { intros train Ht. destruct (take_Ok_rows _ _ _ Ht) as (_ & _ & Hin).
    unfold drop.
    replace (forallb (fun l => mem_label l (labels_of housing)) (labels_of train))
      with true; [reflexivity|].
    symmetry. apply forallb_forall. intros l Hl. apply mem_label_In.
    unfold labels_of in *. apply in_map_iff in Hl.
    destruct Hl as (r & <- & Hr). apply in_map, Hin, Hr. }
  split; [|split].
  - intros train val H.
    destruct (take housing locs) as [tr|e] eqn:Ht; [|discriminate].
    simpl in H. rewrite (Hdrop tr eq_refl) in H. simpl in H.
    injection H as <- <-.
    destruct (take_Ok_rows _ _ _ Ht) as (_ & _ & Hin).
    split; [|split; [exact Hin|split]].
    + intros l Hl Hv. unfold labels_of in Hv. apply in_map_iff in Hv.
      destruct Hv as (r & <- & Hr). apply filter_In in Hr.
      destruct Hr as [_ Hr]. apply negb_true_iff in Hr.
      apply mem_label_In in Hl. unfold labels_of in Hl.
      rewrite Hl in Hr. discriminate.
    + intros r Hr. apply filter_In in Hr. tauto.
    + intros r Hr.
      destruct (mem_label (fst r) (labels_of tr)) eqn:E.
      * left. apply mem_label_In. exact E.
      * right. apply filter_In. split; [exact Hr|]. rewrite E. reflexivity.
  - intros e H. destruct (take housing locs) as [tr|e'] eqn:Ht.
    + simpl in H. rewrite (Hdrop tr eq_refl) in H. discriminate.
    + simpl in H. injection H as <-.
      clear -Ht. revert e' Ht. generalize locs as l.
      induction l as [|i l IH]; intros e' Ht; simpl in Ht; [discriminate|].
      destruct (nth_error housing i); [|congruence].
      destruct (take housing l) as [rs|e2]; [discriminate|].
      simpl in Ht. injection Ht as <-. apply (IH e2 eq_refl).
  - intros Hout. rewrite (take_out_of_range housing locs Hout). reflexivity.
Qed.

Lemma split_never_leaks_witness :
  train_val_split (fun _ _ => [1; 7]%nat) four_houses = Raise IndexError
  /\ forall train val,
       train_val_split (fun _ _ => [1; 1]%nat)
         [(5%Z, "a"); (5%Z, "b"); (6%Z, "c")]%string = Ok (train, val) ->
       ~ In 5%Z (labels_of val).
Proof.
  split.
  - apply (proj2 (proj2 (split_never_leaks (fun _ _ => [1; 7]%nat) four_houses))).
    right. left. simpl. lia.
  - intros train val H.
    pose proof (proj1 (split_never_leaks (fun _ _ => [1; 1]%nat)
                         [(5%Z, "a"); (5%Z, "b"); (6%Z, "c")]%string)
                  train val H) as (Hleak & _).
    apply Hleak. vm_compute in H. injection H as <- <-. simpl. tauto.
Defined.

Lemma half_rounded_cases (n : nat) :
  (Nat.even n = true -> (half_rounded n + half_rounded n = n)%nat)
  /\ (Nat.even n = false ->
      (half_rounded n + half_rounded n = S n)%nat
      \/ (S (half_rounded n + half_rounded n) = n)%nat).
Proof.
  unfold half_rounded. split; intros He; rewrite He.
  - apply Nat.even_spec in He. destruct He as [k ->].
    rewrite (Nat.mul_comm 2 k), Nat.div_mul by discriminate. lia.
  - assert (Nat.odd n = true) as Ho
        by (rewrite <- Nat.negb_even, He; reflexivity).
    apply Nat.odd_spec in Ho. destruct Ho as [k ->].
    replace ((2 * k + 1) / 2)%nat with k.
    + destruct (Nat.even k); [right|left]; lia.
    + apply (Nat.div_unique (2 * k + 1) 2 k 1); lia.
Qed.

Section SplitSizes.
Context {row : Type}.
Variable housing : frame row.
Hypothesis distinct_labels : List.NoDup (labels_of housing).

Lemma split_lengths (locs : list nat) (train : frame row) :
  List.NoDup locs -> take housing locs = Ok train ->
  (length train
   + length (List.filter (fun r => negb (mem_label (fst r) (labels_of train)))
                         housing)
   = length housing)%nat.
Proof.
  intros Hnd Ht. destruct (take_Ok_rows _ _ _ Ht) as (Hrange & _ & Hsub).
  destruct (take_in_range housing locs Hrange) as (train' & Ht' & HF).
  rewrite Ht in Ht'. injection Ht' as <-.
  destruct (taken_rows housing distinct_labels locs train HF) as (_ & Hndt & _).
  specialize (Hndt Hnd).
  set (b := fun r : Z * row => mem_label (fst r) (labels_of train)).
  assert (Permutation train (List.filter b housing)) as HP.
  { apply Permutation.NoDup_Permutation;
      [exact Hndt
      |apply List.NoDup_filter, (rows_distinct housing distinct_labels)|].
    intros r. rewrite filter_In. unfold b. rewrite mem_label_In.
    unfold labels_of. rewrite in_map_iff. split.
    - intros Hr. split; [apply Hsub, Hr|]. exists r. split; [reflexivity|exact Hr].
    - intros [Hr (r' & E & Hr')].
      rewrite (label_determines_row housing distinct_labels r r' Hr
                 (Hsub _ Hr') (eq_sym E)).
      exact Hr'. }
  rewrite (Permutation_length HP). apply (List.filter_length b housing).
Qed.

(** X19. Under the generator's contract, with distinct row labels, the
    split succeeds and hands every row to one part: the sizes of [train]
    and [val] add up to the size of the table.  The two halves are equal
    exactly when the number of rows is even; with an odd number they differ
    by one row. *)
Theorem split_sizes (rs_choice : nat -> nat -> list nat) :
  is_choice (length housing) (half_rounded (length housing))
            (rs_choice (length housing) (half_rounded (length housing))) ->
  exists train val,
    train_val_split rs_choice housing = Ok (train, val)
    /\ (length train + length val = length housing)%nat
    /\ (Nat.even (length housing) = true -> length train = length val)
    /\ (Nat.even (length housing) = false ->
        length train = S (length val) \/ length val = S (length train)).
Proof.
  set (n := length housing).
  set (locs := rs_choice n (half_rounded n)).
  intros (Hlen & Hnd & Hrange).
  destruct (take_in_range housing locs Hrange) as (train & Ht & HF).
  destruct (take_Ok_rows _ _ _ Ht) as (_ & Hlt & Hsub).
  pose proof (split_lengths locs train Hnd Ht) as Hsum.
  set (val := List.filter (fun r => negb (mem_label (fst r) (labels_of train)))
                          housing) in *.
  exists train, val.
  assert (train_val_split rs_choice housing = Ok (train, val)) as Hsplit.
  { unfold train_val_split, sample. cbv zeta. fold n locs. rewrite Ht. simpl.
    unfold drop.
    replace (forallb (fun l => mem_label l (labels_of housing)) (labels_of train))
      with true; [reflexivity|].
    symmetry. apply forallb_forall. intros l Hl. apply mem_label_In.
    unfold labels_of in *. apply in_map_iff in Hl.
    destruct Hl as (r & <- & Hr). apply in_map, Hsub, Hr. }
  split; [exact Hsplit|]. split; [exact Hsum|].
  destruct (half_rounded_cases n) as [Heven Hodd].
  fold n in Hsum. rewrite Hlt, Hlen in *. split.
  - intros He. specialize (Heven He). lia.
  - intros He. specialize (Hodd He). lia.
Qed.
End SplitSizes.

Lemma split_sizes_witness :
  exists train val,
    train_val_split (fun _ _ => [3; 1]%nat) four_houses = Ok (train, val)
    /\ length train = length val.
Proof.
  destruct (split_sizes four_houses) with (rs_choice := fun _ _ : nat => [3; 1]%nat)
    as (train & val & Hs & _ & He & _).
  - vm_compute. repeat (constructor; [simpl; lia|]). constructor.
  - split; [reflexivity|]. split.
    + repeat (constructor; [simpl; lia|]). constructor.
    + repeat (constructor; [simpl; lia|]). constructor.
  - exists train, val. split; [exact Hs|]. apply He. reflexivity.
Defined.

(* ===================================================================== *)
(** * Further properties: 5.4, the validation error *)
(* ===================================================================== *)

Section ValidationRmse.
Local Open Scope R_scope.

Lemma squared_errors_length (y p : list R) :
  length p = length y -> length (squared_errors y p) = length y.
Proof.
  revert p. induction y as [|a y IH]; intros [|b p] H; simpl in *;
    try discriminate; auto.
Qed.

Lemma squared_errors_nonneg (y p : list R) :
  Forall (fun x => 0 <= x) (squared_errors y p).
Proof.
  revert p. induction y as [|a y IH]; intros [|b p]; simpl; constructor.
  - pose proof (Rle_0_sqr (a - b)) as H. unfold Rsqr in H. exact H.
  - apply IH.
Qed.

Lemma squared_errors_zero (y p : list R) :
  length p = length y ->
  (rsum (squared_errors y p) = 0 <-> y = p).
Proof.
  revert p. induction y as [|a y IH]; intros [|b p] H; simpl in *;
    try discriminate.
  - split; reflexivity.
  - pose proof (Rle_0_sqr (a - b)) as Hsq. unfold Rsqr in Hsq.
    pose proof (rsum_nonneg _ (squared_errors_nonneg y p)) as Hrest.
    fold (rsum (squared_errors y p)). split.
    + intros H0. assert ((a - b) * (a - b) = 0) as Hab by lra.
      assert (rsum (squared_errors y p) = 0) as Hr by lra.
      apply Rmult_integral in Hab.
      assert (a = b) as -> by (destruct Hab; lra).
      f_equal. apply IH; [lia|exact Hr].
    + intros E. injection E as -> ->.
      rewrite (proj2 (IH p ltac:(lia)) eq_refl). lra.
Qed.

Lemma squared_errors_bound (e : R) (y p : list R) :
  Forall2 (fun a b => Rabs (a - b) <= e) y p ->
  rsum (squared_errors y p) <= INR (length y) * (e * e).
Proof.
  induction 1 as [|a b y p Hab _ IH].
  - simpl. lra.
  - change (length (a :: y)) with (S (length y)). rewrite S_INR.
    cbn [squared_errors rsum fold_right]. fold (rsum (squared_errors y p)).
    assert ((a - b) * (a - b) <= e * e).
    { pose proof (Rabs_pos (a - b)) as Hp.
      replace ((a - b) * (a - b)) with (Rabs (a - b) * Rabs (a - b)).
      - apply Rmult_le_compat; lra.
      - unfold Rabs. destruct (Rcase_abs (a - b)); ring. }
    lra.
Qed.

(** X20. For a validation Series and a prediction array of the same
    non-zero length, the validation RMSE is a real number that is never
    negative; it is 0 exactly when every prediction equals its label, and
    it is at most [e] when no prediction is off by more than [e].  With no
    validation rows it is NaN; with lengths that differ (the prediction
    array not a single entry) the cell raises [ValueError].  (Real
    arithmetic.) *)
Theorem rmse_properties (y_val y_val_pred : list R) :
  (length y_val_pred = length y_val -> y_val <> [] ->
   exists r,
     rmse y_val y_val_pred = Ok (Finite r)
     /\ 0 <= r
     /\ (r = 0 <-> y_val = y_val_pred)
     /\ (forall e, Forall2 (fun a b => Rabs (a - b) <= e) y_val y_val_pred ->
                   r <= e))
  /\ (y_val = [] -> y_val_pred = [] -> rmse y_val y_val_pred = Ok NaN)
  /\ (length y_val_pred <> length y_val -> length y_val_pred <> 1%nat ->
      rmse y_val y_val_pred = Raise ValueError).
Proof.
  split; [|split].
  - intros Hlen Hne. unfold rmse. rewrite (proj2 (Nat.eqb_eq _ _) Hlen).
    pose proof (squared_errors_length y_val y_val_pred Hlen) as HL.
    pose proof (squared_errors_nonneg y_val y_val_pred) as Hnn.
    pose proof (rsum_nonneg _ Hnn) as Hsum.
    assert (0 < INR (length y_val)) as Hn.
    { apply lt_0_INR. destruct y_val; [contradiction|simpl; lia]. }
    unfold sqrt_mean.
    destruct (squared_errors y_val y_val_pred) as [|x errs] eqn:E.
    { exfalso. simpl in HL. destruct y_val; [contradiction|discriminate]. }
    rewrite <- E in *. rewrite HL.
    eexists. split; [reflexivity|]. split; [apply sqrt_pos|]. split.
    + rewrite <- (squared_errors_zero y_val y_val_pred Hlen). split.
      * intros H0. apply sqrt_eq_0 in H0.
        -- apply Rmult_integral in H0. destruct H0 as [H0|H0]; [exact H0|].
           pose proof (Rinv_0_lt_compat _ Hn). lra.
        -- apply Rmult_le_pos; [exact Hsum|]. left. apply Rinv_0_lt_compat, Hn.
      * intros ->. unfold Rdiv. rewrite Rmult_0_l. apply sqrt_0.
    + intros e He.
      assert (0 <= e) as He0.
      { destruct He as [|a b ? ? Hab _]; [contradiction|].
        pose proof (Rabs_pos (a - b)). lra. }
      pose proof (squared_errors_bound e _ _ He) as Hb.
      rewrite <- (sqrt_square e He0). apply sqrt_le_1_alt.
      apply Rmult_le_reg_r with (INR (length y_val)); [exact Hn|].
      unfold Rdiv. rewrite Rmult_assoc, Rinv_l by lra. lra.
  - intros -> ->. reflexivity.
  - intros Hlen H1. unfold rmse.
    rewrite (proj2 (Nat.eqb_neq _ _) Hlen).
    destruct y_val_pred as [|p [|q ps]]; [reflexivity|simpl in H1; lia|reflexivity].
Qed.

Lemma rmse_properties_witness :
  (exists r, rmse [200; 100] [200; 100] = Ok (Finite r) /\ r = 0)
  /\ rmse [200; 100; 300] [150; 150] = Raise ValueError.
Proof.
  split.
  - destruct (proj1 (rmse_properties [200; 100] [200; 100]) eq_refl
                ltac:(discriminate)) as (r & Hr & _ & Hz & _).
    exists r. split; [exact Hr|]. apply Hz. reflexivity.
  - apply (proj2 (proj2 (rmse_properties [200; 100; 300] [150; 150])));
      simpl; lia.
Defined.
End ValidationRmse.

(* ===================================================================== *)
(** * Further properties: 10.2, tokens and term counts *)
(* ===================================================================== *)

Lemma has_adjacent_spec (p : ascii -> bool) (s : list ascii) :
  has_adjacent p s = true <-> two_adjacent p s.
Proof.
  induction s as [|a s IH].
  - split; [discriminate|].
    intros (l1 & x & y & l2 & E & _). destruct l1; discriminate.
  - destruct s as [|b s].
    + split; [discriminate|].
      intros (l1 & x & y & l2 & E & _). destruct l1 as [|? [|? ?]]; discriminate.
    + change (has_adjacent p (a :: b :: s))
        with ((p a && p b) || has_adjacent p (b :: s)).
      rewrite orb_true_iff, andb_true_iff, IH. split.
      * intros [[Ha Hb]|(l1 & x & y & l2 & E & Hx & Hy)].
        -- exists [], a, b, s. auto.
        -- exists (a :: l1), x, y, l2. rewrite E. auto.
      * intros (l1 & x & y & l2 & E & Hx & Hy). destruct l1 as [|c l1].
        -- injection E as -> -> _. left. auto.
        -- injection E as _ E. right. exists l1, x, y, l2. auto.
Qed.

Lemma has_adjacent_all (p : ascii -> bool) (cur : list ascii) :
  Forall (fun c => p c = true) cur ->
  has_adjacent p cur = (2 <=? length cur)%nat.
Proof.
  intros H. destruct H as [|a cur Ha H]; [reflexivity|].
  destruct H as [|b cur Hb H]; [reflexivity|].
  change (has_adjacent p (a :: b :: cur))
    with ((p a && p b) || has_adjacent p (b :: cur)).
  rewrite Ha, Hb. reflexivity.
Qed.

Lemma has_adjacent_stop (p : ascii -> bool) (cur : list ascii) (c : ascii)
    (s : list ascii) :
  Forall (fun c => p c = true) cur -> p c = false ->
  has_adjacent p (cur ++ c :: s) = ((2 <=? length cur)%nat || has_adjacent p s).
Proof.
  intros H Hc.
  assert (has_adjacent p (c :: s) = has_adjacent p s) as Hcs.
  { destruct s as [|d s]; [reflexivity|].
    change (has_adjacent p (c :: d :: s))
      with ((p c && p d) || has_adjacent p (d :: s)).
    rewrite Hc. reflexivity. }
  destruct H as [|a cur Ha H]; [exact Hcs|].
  destruct H as [|b cur Hb H].
  - change (has_adjacent p ([a] ++ c :: s))
      with ((p a && p c) || has_adjacent p (c :: s)).
    rewrite Hc, andb_false_r, Hcs. reflexivity.
  - change (has_adjacent p ((a :: b :: cur) ++ c :: s))
      with ((p a && p b) || has_adjacent p (b :: cur ++ c :: s)).
    rewrite Ha, Hb. reflexivity.
Qed.

(** A run of at least two characters is read exactly when two adjacent
    characters satisfy [p]. *)
Lemma runs_has_adjacent (p : ascii -> bool) (cur s : list ascii) :
  Forall (fun c => p c = true) cur ->
  existsb (fun r => (2 <=? length r)%nat) (runs p cur s)
  = has_adjacent p (cur ++ s).
Proof.
  revert cur. induction s as [|c s IH]; intros cur Hcur.
  - rewrite List.app_nil_r, (has_adjacent_all p cur Hcur).
    destruct cur; simpl; [reflexivity|apply orb_false_r].
  - cbn [runs]. destruct (p c) eqn:Hc.
    + rewrite IH by (apply Forall_app; split; [exact Hcur|repeat constructor; exact Hc]).
      rewrite <- List.app_assoc. reflexivity.
    + rewrite List.existsb_app, (IH [] (List.Forall_nil _)), (has_adjacent_stop p cur c s Hcur Hc).
      f_equal. destruct cur; simpl; [reflexivity|apply orb_false_r].
Qed.

Lemma has_adjacent_map (p : ascii -> bool) (f : ascii -> ascii) (s : list ascii) :
  (forall c, p (f c) = p c) ->
  has_adjacent p (List.map f s) = has_adjacent p s.
Proof.
  intros Hf. induction s as [|a s IH]; [reflexivity|].
  destruct s as [|b s]; [reflexivity|].
  change (has_adjacent p (List.map f (a :: b :: s)))
    with ((p (f a) && p (f b)) || has_adjacent p (List.map f (b :: s))).
  rewrite IH, !Hf. reflexivity.
Qed.

Lemma word_char_lower (c : ascii) : is_word_char (lower_char c) = is_word_char c.
Proof. destruct c as [[] [] [] [] [] [] [] []]; reflexivity. Qed.

Lemma filter_nonempty_existsb {A} (f : A -> bool) (l : list A) :
  List.filter f l <> [] <-> existsb f l = true.
Proof.
  induction l as [|x l IH]; simpl; [split; [tauto|discriminate]|].
  destruct (f x); simpl; [split; [reflexivity|discriminate]|exact IH].
Qed.

Lemma analyze_nonempty (doc : string) :
  analyze doc <> []
  <-> two_adjacent is_word_char (list_ascii_of_string doc).
Proof.
  rewrite <- has_adjacent_spec.
  rewrite <- (has_adjacent_map is_word_char lower_char _ word_char_lower).
  fold (str_lower (list_ascii_of_string doc)).
  change (str_lower (list_ascii_of_string doc))
    with ([] ++ str_lower (list_ascii_of_string doc)).
  rewrite <- (runs_has_adjacent is_word_char [] _ (List.Forall_nil _)).
  rewrite <- filter_nonempty_existsb. unfold analyze.
  destruct (List.filter _ _); simpl; split; intros H; congruence.
Qed.

(** X21. Every token the vectorizer's analyzer produces from an ASCII text
    has at least two characters, all of them word characters (letters,
    digits, underscore) and none a capital letter; and the text has a
    token exactly when two adjacent characters of it are word
    characters. *)
Theorem analyze_tokens (doc : string) :
  ascii_text doc ->
  (forall t, In t (analyze doc) ->
     (2 <= String.length t)%nat
     /\ Forall (fun c => is_word_char c = true /\ is_upper c = false)
               (list_ascii_of_string t))
  /\ (analyze doc <> []
      <-> two_adjacent is_word_char (list_ascii_of_string doc)).
Proof.
  intros _.
  assert (forall t, In t (analyze doc) ->
            exists r, t = string_of_list_ascii r /\ (2 <= length r)%nat
                      /\ forall c, In c r ->
                           is_word_char c = true
                           /\ exists c0, In c0 (list_ascii_of_string doc)
                                         /\ c = lower_char c0) as Htok.
  { intros t Ht. unfold analyze in Ht. apply in_map_iff in Ht.
    destruct Ht as (r & <- & Hr). apply filter_In in Hr.
    destruct Hr as [Hr Hlen]. apply Nat.leb_le in Hlen.
    exists r. split; [reflexivity|]. split; [exact Hlen|].
    intros c Hc. destruct (runs_chars _ _ _ _ Hr Hc) as [Hin Hw].
    split; [exact Hw|]. unfold str_lower in Hin. apply in_map_iff in Hin.
    destruct Hin as (c0 & <- & Hc0). exists c0. split; [exact Hc0|reflexivity]. }
  split; [|apply analyze_nonempty].
  intros t Ht. destruct (Htok t Ht) as (r & -> & Hlen & Hch). split.
  - clear -Hlen. revert Hlen. generalize 2%nat as k.
    induction r as [|c r IH]; intros k Hk; simpl in *; [exact Hk|].
    destruct k as [|k]; [lia|]. specialize (IH k). lia.
  - rewrite list_ascii_of_string_of_list_ascii.
    apply List.Forall_forall. intros c Hc.
    destruct (Hch c Hc) as (Hw & c0 & _ & ->).
    split; [exact Hw|apply lower_char_not_upper].
Qed.

Lemma analyze_tokens_witness :
  analyze "I c u 2 :-) Ok!"%string = ["ok"%string]
  /\ (2 <= String.length "ok")%nat
  /\ analyze "a b c 1 2 3"%string = []
  /\ ~ two_adjacent is_word_char (list_ascii_of_string "a b c 1 2 3").
Proof.
  split; [vm_compute; reflexivity|].
  split.
  - apply (proj1 (analyze_tokens "I c u 2 :-) Ok!"%string eq_refl)).
    vm_compute. tauto.
  - split; [vm_compute; reflexivity|].
    intros H.
    apply (proj2 (analyze_tokens "a b c 1 2 3"%string eq_refl)) in H.
    apply H. vm_compute. reflexivity.
Defined.

Lemma list_sum_indicator (vocab : list string) (x : string) :
  list_sum (List.map (fun t => if String.string_dec x t then 1%nat else 0%nat) vocab)
  = count_occ String.string_dec vocab x.
Proof.
  induction vocab as [|v vocab IH]; simpl; [reflexivity|].
  rewrite IH.
  destruct (String.string_dec x v) as [E|E], (String.string_dec v x) as [E'|E'];
    try reflexivity; exfalso; congruence.
Qed.

Lemma list_sum_map_add {A} (f g : A -> nat) (l : list A) :
  list_sum (List.map (fun t => (f t + g t)%nat) l)
  = (list_sum (List.map f l) + list_sum (List.map g l))%nat.
Proof. induction l as [|x l IH]; simpl; [reflexivity|]. rewrite IH. lia. Qed.

Lemma list_sum_counts (vocab toks : list string) :
  List.NoDup vocab -> (forall t, In t toks -> In t vocab) ->
  list_sum (List.map (count_occ String.string_dec toks) vocab) = length toks.
Proof.
  intros Hnd. induction toks as [|x toks IH]; intros Hin.
  - clear. induction vocab as [|v vocab IH]; simpl; [reflexivity|exact IH].
  - rewrite (List.map_ext _ (fun t => ((if String.string_dec x t then 1 else 0)
                                       + count_occ String.string_dec toks t)%nat))
      by (intros t; simpl; destruct (String.string_dec x t); reflexivity).
    rewrite list_sum_map_add, list_sum_indicator, IH
      by (intros t Ht; apply Hin; right; exact Ht).
    rewrite (proj1 (List.NoDup_count_occ' String.string_dec vocab) Hnd x)
      by (apply Hin; left; reflexivity).
    reflexivity.
Qed.

Lemma Forall2_map_same {A B C} (R : B -> C -> Prop) (f : A -> B) (g : A -> C)
    (l : list A) :
  (forall t, R (f t) (g t)) -> Forall2 R (List.map f l) (List.map g l).
Proof. intros H. induction l; simpl; constructor; auto. Qed.

Lemma smooth_idf_ge_1 (n d : nat) : (d <= n)%nat -> (1 <= smooth_idf n d)%R.
Proof.
  intros Hle. unfold smooth_idf.
  pose proof (ln_ratio_nonneg (1 + n) (1 + d) ltac:(lia) ltac:(lia)) as [H _].
  lra.
Qed.

(** X22. For ASCII messages, the term-frequency matrix of
    [CountVectorizer] has one row per message and one column per
    vocabulary term, and every row sums to the number of tokens of its
    message: each token is counted exactly once.  The TF-IDF matrix has
    the same zero entries, and each of its entries is at least the count
    it weights. *)
Theorem tf_sparse_rows (sms_text : list string) (M : list (list nat)) :
  Forall ascii_text sms_text ->
  tf_sparse sms_text = Ok M ->
  let vocab := vocabulary_ (learned sms_text) in
  length M = length sms_text
  /\ forall i doc, nth_error sms_text i = Some doc ->
       exists row,
         nth_error M i = Some row
         /\ length row = length vocab
         /\ list_sum row = length (analyze doc)
         /\ Forall2 (fun c w => (INR c <= w)%R /\ (w = 0%R <-> c = 0%nat))
                    row (tfidf_row (learned sms_text) doc).
Proof.
  intros _ HM vocab. unfold tf_sparse in HM. fold vocab in HM.
  assert (M = List.map (count_row vocab) sms_text) as ->
      by (destruct vocab; [discriminate|injection HM as <-; reflexivity]).
  split; [apply List.length_map|].
  intros i doc Hi. exists (count_row vocab doc).
  assert (In doc sms_text) as Hdoc by (eapply nth_error_In; exact Hi).
  split; [rewrite List.nth_error_map, Hi; reflexivity|].
  split; [apply List.length_map|]. split.
  - unfold count_row. apply list_sum_counts.
    + unfold vocab. simpl.
      apply (Permutation_NoDup (Permutation_sym (sorted_perm _))).
      apply List.NoDup_nodup.
    + intros t Ht. apply In_vocabulary with doc; assumption.
  - rewrite tfidf_row_learned. fold vocab. unfold count_row.
    apply Forall2_map_same. intros t.
    set (c := count_occ String.string_dec (analyze doc) t).
    pose proof (smooth_idf_ge_1 (length (List.map analyze sms_text))
                  (doc_freq t (List.map analyze sms_text)) (doc_freq_le _ _))
      as Hw.
    pose proof (pos_INR c) as Hc. split.
    + rewrite <- (Rmult_1_r (INR c)) at 1.
      apply Rmult_le_compat_l; assumption.
    + split.
      * intros H0. apply Rmult_integral in H0. destruct H0 as [H0|H0]; [|lra].
        apply INR_eq. rewrite H0. reflexivity.
      * intros ->. apply Rmult_0_l.
Qed.

Lemma tf_sparse_rows_witness :
  exists M row,
    tf_sparse ["Ok lar"; "ok ok joking wif u oni"]%string = Ok M
    /\ nth_error M 1 = Some row
    /\ list_sum row = 5%nat.
Proof.
  assert (tf_sparse ["Ok lar"; "ok ok joking wif u oni"]%string
          = Ok (List.map (count_row (vocabulary_
                                       (learned ["Ok lar"; "ok ok joking wif u oni"]%string)))
                         ["Ok lar"; "ok ok joking wif u oni"]%string)) as HM.
  { unfold tf_sparse.
    destruct (vocabulary_ (learned ["Ok lar"; "ok ok joking wif u oni"]%string))
      eqn:E; [|reflexivity].
    vm_compute in E. discriminate E. }
  assert (Forall ascii_text ["Ok lar"; "ok ok joking wif u oni"]%string)
    as Hascii by (repeat constructor).
  destruct (proj2 (tf_sparse_rows _ _ Hascii HM) 1%nat
              "ok ok joking wif u oni"%string eq_refl)
    as (row & Hrow & _ & Hsum & _).
  eexists. exists row. split; [exact HM|]. split; [exact Hrow|].
  rewrite Hsum. vm_compute. reflexivity.
Defined.
